(** * GT911 polling userspace driver: shallow embedding of [driver.py]

    The driver is a single Python class [GT911] whose methods talk to an I2C
    bus and to a uinput device.  Here the object is a record, every method is
    a function in a state-and-exception monad over that record, the I2C bus
    is an oracle indexed by the number of the transaction, and everything the
    driver does to the outside world is appended to a trace.

    Left out: the debug printing of [__dp], the opening of the bus, the
    creation of the uinput device and [cleanup], which no method of the
    polling pipeline depends on.  Python integers are unbounded, so every
    number is a [Z].  [ui.write] and [ui.syn] are taken to accept every
    value: the range check evdev applies to the values it is handed is
    outside this file. *)

From stdpp Require Import gmap list.
From Stdlib Require Import ZArith Lia.

Local Open Scope Z_scope.

(** ** Exceptions *)

(** [OSError] is what [SMBus.i2c_rdwr] raises when a transaction fails; the
    others are raised by the driver's own checks. *)
Inductive exn : Set :=
| OSError
| AssertionError
| ValueError
| KeyError.

(** ** Outside world *)

Inductive etype : Set := EV_ABS | EV_KEY.

Inductive ecode : Set :=
| ABS_MT_SLOT
| ABS_MT_TOUCH_MAJOR
| ABS_MT_POSITION_X
| ABS_MT_POSITION_Y
| ABS_MT_TRACKING_ID
| ABS_X
| ABS_Y
| BTN_TOUCH
| BTN_TOOL_FINGER.

(** What the process does, in program order.  [I2cWrite] and [I2cRead] are
    the two kinds of [bus.i2c_rdwr] transactions (recorded when issued,
    whether or not the device acknowledges), [UiWrite] and [UiSyn] are
    [ui.write] and [ui.syn], [Sleep] is [time.sleep(0.001)]. *)
Inductive effect : Set :=
| I2cWrite (message : list Z)
| I2cRead (numBytes : Z)
| UiWrite (t : etype) (c : ecode) (value : Z)
| UiSyn
| Sleep.

(** The value stored per track: the dict literal of [__readLoop]. *)
Record Info : Set := mkInfo {
  info_x : Z;
  info_y : Z;
  info_size : Z;
  info_track : Z
}.

(** evdev's [AbsInfo] named tuple. *)
Record AbsInfo : Set := mkAbsInfo {
  abs_value : Z;
  abs_min : Z;
  abs_max : Z;
  abs_fuzz : Z;
  abs_flat : Z;
  abs_resolution : Z
}.

(** ** The driver object

    [bus n] is the answer of the device to the [n]-th transaction of the
    process: [None] when the transaction fails, [Some b] when it succeeds
    ([b] is the byte delivered by a one-byte read and is ignored for a
    write).  [txn] counts the transactions issued so far.

    [history] is a ghost field: the successive values of the pair
    ([__touchInfo], [__previousTouchInfo]), one entry per statement that
    assigns to either, most recent last. *)
Record GT911 : Type := mkGT911 {
  flipX : bool;
  flipY : bool;
  swapXY : bool;
  scalingFactor : Z;
  touchBoundary : Z * Z;
  coordinateResolution : Z * Z;
  touchInfo : gmap Z Info;
  previousTouchInfo : gmap Z Info;
  bus : nat -> option Z;
  txn : nat;
  trace : list effect;
  history : list (gmap Z Info * gmap Z Info)
}.

(** ** State and exception monad *)

Definition M (A : Type) : Type := GT911 -> (exn + A) * GT911.

Definition ret {A} (a : A) : M A := fun s => (inr a, s).

Definition raise {A} (e : exn) : M A := fun s => (inl e, s).

Definition bind {A B} (m : M A) (k : A -> M B) : M B :=
  fun s =>
    match m s with
    | (inl e, s') => (inl e, s')
    | (inr a, s') => k a s'
    end.

#[global] Instance M_ret : MRet M := @ret.
#[global] Instance M_bind : MBind M := fun A B k m => bind m k.

Definition get : M GT911 := fun s => (inr s, s).

Definition emit (ev : effect) : M unit :=
  fun s => (inr tt,
    mkGT911 (flipX s) (flipY s) (swapXY s) (scalingFactor s) (touchBoundary s)
      (coordinateResolution s) (touchInfo s) (previousTouchInfo s) (bus s)
      (txn s) (trace s ++ [ev]) (history s)).

(** One [bus.i2c_rdwr] call: the effect is recorded, the transaction counter
    advances, and the call raises [OSError] when the device does not
    answer. *)
Definition i2c_rdwr (ev : effect) : M Z :=
  fun s =>
    let s' :=
      mkGT911 (flipX s) (flipY s) (swapXY s) (scalingFactor s) (touchBoundary s)
        (coordinateResolution s) (touchInfo s) (previousTouchInfo s) (bus s)
        (S (txn s)) (trace s ++ [ev]) (history s) in
    match bus s (txn s) with
    | Some b => (inr b, s')
    | None => (inl OSError, s')
    end.

(** Assignment to [self.__touchInfo] (rebinding or in-place update alike). *)
Definition set_touchInfo (m : gmap Z Info) : M unit :=
  fun s => (inr tt,
    mkGT911 (flipX s) (flipY s) (swapXY s) (scalingFactor s) (touchBoundary s)
      (coordinateResolution s) m (previousTouchInfo s) (bus s)
      (txn s) (trace s) (history s ++ [(m, previousTouchInfo s)])).

(** Assignment to [self.__previousTouchInfo]. *)
Definition set_previousTouchInfo (m : gmap Z Info) : M unit :=
  fun s => (inr tt,
    mkGT911 (flipX s) (flipY s) (swapXY s) (scalingFactor s) (touchBoundary s)
      (coordinateResolution s) (touchInfo s) m (bus s)
      (txn s) (trace s) (history s ++ [(touchInfo s, m)])).

(** [for x in l: body(x)] *)
Fixpoint for_each {A} (l : list A) (body : A -> M unit) : M unit :=
  match l with
  | [] => ret tt
  | x :: l' => body x;; for_each l' body
  end.

(** ** Register access *)

(** [__writeI2C(register, data)] with [data] already a list (an [int] is
    wrapped into a one-element list by the source). *)
Definition writeI2C (register data : list Z) : M unit :=
  let message := register ++ data in
  i2c_rdwr (I2cWrite message);; ret tt.

(** [__readI2C(register)] with the default [numBytes = 1], which is how every
    call site uses it.  The type assertions hold by typing; the assertion
    [len(register) >= 1] is kept. *)
Definition readI2C (register : list Z) : M Z :=
  if decide (register = []) then raise AssertionError
  else
    i2c_rdwr (I2cWrite register);;
    b ← i2c_rdwr (I2cRead 1);
    ret b.

(** The first loop of [__readI2CMultiByteValue]: one byte per register, in
    the order given. *)
Fixpoint readValues (registers : list (list Z)) : M (list Z) :=
  match registers with
  | [] => ret []
  | register :: rest =>
      value ← readI2C register;
      values ← readValues rest;
      ret (value :: values)
  end.

(** The second loop: [combinedValue |= value << (8 * i)] for
    [i, value in enumerate(readValues)], started at index [i]. *)
Fixpoint combine_from (i : Z) (values : list Z) (combinedValue : Z) : Z :=
  match values with
  | [] => combinedValue
  | value :: rest =>
      combine_from (i + 1) rest (Z.lor combinedValue (Z.shiftl value (8 * i)))
  end.

Definition combine (values : list Z) : Z := combine_from 0 values 0.

(** [__readI2CMultiByteValue(registers)] with the default [combine = True].
    Each register being a [list] holds by typing, so the [ValueError] branch
    is not reachable here. *)
Definition readI2CMultiByteValue (registers : list (list Z)) : M Z :=
  values ← readValues registers;
  ret (combine values).

(** ** Device metadata *)

Definition set_touchBoundary (v : Z * Z) : M unit :=
  fun s => (inr tt,
    mkGT911 (flipX s) (flipY s) (swapXY s) (scalingFactor s) v
      (coordinateResolution s) (touchInfo s) (previousTouchInfo s) (bus s)
      (txn s) (trace s) (history s)).

Definition set_coordinateResolution (v : Z * Z) : M unit :=
  fun s => (inr tt,
    mkGT911 (flipX s) (flipY s) (swapXY s) (scalingFactor s) (touchBoundary s)
      v (touchInfo s) (previousTouchInfo s) (bus s)
      (txn s) (trace s) (history s)).

(** [__queryTouchBoundary] *)
Definition queryTouchBoundary : M (Z * Z) :=
  self ← get;
  v ← readI2CMultiByteValue [[0x80; 0x48]; [0x80; 0x49]];
  let xMax := v * scalingFactor self in
  v ← readI2CMultiByteValue [[0x80; 0x4A]; [0x80; 0x4B]];
  let yMax := v * scalingFactor self in
  let '(xMax, yMax) := if swapXY self then (yMax, xMax) else (xMax, yMax) in
  ret (xMax, yMax).

(** [__queryCoordinateResolution] *)
Definition queryCoordinateResolution : M (Z * Z) :=
  self ← get;
  v ← readI2CMultiByteValue [[0x81; 0x46]; [0x81; 0x47]];
  let xRes := v * scalingFactor self in
  v ← readI2CMultiByteValue [[0x81; 0x48]; [0x81; 0x49]];
  let yRes := v * scalingFactor self in
  let '(xRes, yRes) := if swapXY self then (yRes, xRes) else (xRes, yRes) in
  ret (xRes, yRes).

(** ** Contact query *)

(** One entry of [__tpRegisterID]. *)
Record PointRegisters : Set := mkPointRegisters {
  reg_track : list Z;
  reg_x : list (list Z);
  reg_y : list (list Z);
  reg_size : list (list Z)
}.

(** The hardcoded table [self.__tpRegisterID]. *)
Definition tpRegisterID : gmap Z PointRegisters :=
  list_to_map [
    (0, mkPointRegisters [0x81; 0x4F]
          [[0x81; 0x50]; [0x81; 0x51]]
          [[0x81; 0x52]; [0x81; 0x53]]
          [[0x81; 0x54]; [0x81; 0x55]]);
    (1, mkPointRegisters [0x81; 0x57]
          [[0x81; 0x58]; [0x81; 0x59]]
          [[0x81; 0x5A]; [0x81; 0x5B]]
          [[0x81; 0x5C]; [0x81; 0x5D]]);
    (2, mkPointRegisters [0x81; 0x5F]
          [[0x81; 0x60]; [0x81; 0x61]]
          [[0x81; 0x62]; [0x81; 0x63]]
          [[0x81; 0x64]; [0x81; 0x65]]);
    (3, mkPointRegisters [0x81; 0x67]
          [[0x81; 0x68]; [0x81; 0x69]]
          [[0x81; 0x6A]; [0x81; 0x6B]]
          [[0x81; 0x6C]; [0x81; 0x6D]]);
    (4, mkPointRegisters [0x81; 0x6F]
          [[0x81; 0x70]; [0x81; 0x71]]
          [[0x81; 0x72]; [0x81; 0x73]]
          [[0x81; 0x74]; [0x81; 0x75]])
  ].

(** The three [if]s of [__queryPoint] between the coordinate reads and the
    size read: flip X, flip Y, then swap. *)
Definition flipAndSwap (self : GT911) (xCoordinate yCoordinate : Z) : Z * Z :=
  let xCoordinate :=
    if flipX self then (coordinateResolution self).1 - xCoordinate
    else xCoordinate in
  let yCoordinate :=
    if flipY self then (coordinateResolution self).2 - yCoordinate
    else yCoordinate in
  if swapXY self then (yCoordinate, xCoordinate)
  else (xCoordinate, yCoordinate).

(** [__queryPoint(pointID)]: returns [(x, y, size, track)]. *)
Definition queryPoint (pointID : Z) : M (Z * Z * Z * Z) :=
  if negb ((0 <=? pointID) && (pointID <=? 4)) then raise AssertionError
  else
    match tpRegisterID !! pointID with
    | None => raise KeyError
    | Some regs =>
        self ← get;
        v ← readI2CMultiByteValue (reg_x regs);
        let xCoordinate := v * scalingFactor self in
        v ← readI2CMultiByteValue (reg_y regs);
        let yCoordinate := v * scalingFactor self in
        let '(xCoordinate, yCoordinate) :=
          flipAndSwap self xCoordinate yCoordinate in
        size ← readI2CMultiByteValue (reg_size regs);
        track ← readI2C (reg_track regs);
        ret (xCoordinate, yCoordinate, size, track)
    end.

(** ** Event emission *)

(** [__newTrack(trackID, info)] *)
Definition newTrack (trackID : Z) (info : Info) : M unit :=
  emit (UiWrite EV_ABS ABS_MT_SLOT trackID);;
  emit (UiWrite EV_ABS ABS_MT_TRACKING_ID trackID);;
  emit (UiWrite EV_ABS ABS_MT_POSITION_X (info_x info));;
  emit (UiWrite EV_ABS ABS_MT_POSITION_Y (info_y info));;
  emit (UiWrite EV_ABS ABS_MT_TOUCH_MAJOR (info_size info)).

(** [__updateTrack(trackID, info)] *)
Definition updateTrack (trackID : Z) (info : Info) : M unit :=
  emit (UiWrite EV_ABS ABS_MT_SLOT trackID);;
  emit (UiWrite EV_ABS ABS_MT_POSITION_X (info_x info));;
  emit (UiWrite EV_ABS ABS_MT_POSITION_Y (info_y info));;
  emit (UiWrite EV_ABS ABS_MT_TOUCH_MAJOR (info_size info)).

(** [__endTrack(trackID)] *)
Definition endTrack (trackID : Z) : M unit :=
  emit (UiWrite EV_ABS ABS_MT_SLOT trackID);;
  emit (UiWrite EV_ABS ABS_MT_TRACKING_ID (-1)).

(** ** Track diff *)

(** The three sets computed by [__eventCallback]. *)
Definition newTracks (cur prev : gmap Z Info) : gset Z := dom cur ∖ dom prev.
Definition commonTracks (cur prev : gmap Z Info) : gset Z := dom cur ∩ dom prev.
Definition endedTracks (cur prev : gmap Z Info) : gset Z := dom prev ∖ dom cur.

(** [self.__touchInfo[trackID]] *)
Definition touchInfo_at (trackID : Z) : M Info :=
  self ← get;
  match touchInfo self !! trackID with
  | Some info => ret info
  | None => raise KeyError
  end.

(** [if len(tracks) > 0: self.ui.syn()] *)
Definition syn_if_any (tracks : gset Z) : M unit :=
  if decide (0 < size tracks)%nat then emit UiSyn else ret tt.

(** The order in which Python iterates over a [set] is not specified; the
    model iterates in the order of [elements].  Statements about what a loop
    over a set sends are therefore given for some enumeration of the set,
    by counting, or by the presence of a block of writes, never for the
    order of [elements] itself. *)

(** "Detect new tracks" *)
Definition detectNewTracks : M unit :=
  self ← get;
  let tracks := newTracks (touchInfo self) (previousTouchInfo self) in
  for_each (elements tracks)
    (fun trackID => info ← touchInfo_at trackID; newTrack trackID info);;
  syn_if_any tracks.

(** "Detect updated tracks" *)
Definition detectUpdatedTracks : M unit :=
  self ← get;
  let tracks := commonTracks (touchInfo self) (previousTouchInfo self) in
  for_each (elements tracks)
    (fun trackID => info ← touchInfo_at trackID; updateTrack trackID info);;
  syn_if_any tracks.

(** "Detect ended tracks" *)
Definition detectEndedTracks : M unit :=
  self ← get;
  let tracks := endedTracks (touchInfo self) (previousTouchInfo self) in
  for_each (elements tracks) (fun trackID => endTrack trackID);;
  syn_if_any tracks.

(** "Update previous state": [dict.copy()] builds a new dict that shares the
    per-track values; these are never mutated (every cycle stores a fresh
    dict literal), so the copy is the same finite map. *)
Definition updatePreviousState : M unit :=
  self ← get;
  set_previousTouchInfo (touchInfo self).

(** [__eventCallback] *)
Definition eventCallback : M unit :=
  detectNewTracks;;
  detectUpdatedTracks;;
  detectEndedTracks;;
  updatePreviousState.

(** ** Polling loop *)

(** The five values parsed from the status byte at the top of the loop. *)
Record Status : Set := mkStatus {
  bufferStatus : bool;
  largeDetect : bool;
  proximityValid : bool;
  haveKey : bool;
  touchPoints : Z
}.

(** Python's [bool(n)] for an [int]. *)
Definition py_bool (n : Z) : bool := negb (n =? 0).

(** The masks are the source's [0b10000000], [0b01000000], [0b00100000],
    [0b00010000] and [0b00001111]. *)
Definition parseStatus (statusByte : Z) : Status :=
  {| bufferStatus := py_bool (Z.land statusByte 0x80);
     largeDetect := py_bool (Z.land statusByte 0x40);
     proximityValid := py_bool (Z.land statusByte 0x20);
     haveKey := py_bool (Z.land statusByte 0x10);
     touchPoints := Z.land statusByte 0x0F |}.

(** [for i in range(touchPoints): ...] of [__readLoop], over the remaining
    indices [ids]; returns [tracksThisRound]. *)
Fixpoint queryTracks (ids : list Z) (tracksThisRound : list Z) : M (list Z) :=
  match ids with
  | [] => ret tracksThisRound
  | i :: rest =>
      '(x, y, size, track) ← queryPoint i;
      self ← get;
      set_touchInfo (<[track := mkInfo x y size track]> (touchInfo self));;
      queryTracks rest (tracksThisRound ++ [track])
  end.

(** "Remove missing tracks from info" *)
Definition removeMissingTracks (tracksThisRound : list Z) : M unit :=
  self ← get;
  let toDel :=
    filter (fun k => k ∉ tracksThisRound) (elements (dom (touchInfo self))) in
  for_each toDel
    (fun k => self ← get; set_touchInfo (delete k (touchInfo self))).

(** [range(n)] *)
Definition range (n : Z) : list Z := seqZ 0 n.

(** One iteration of the [while(True)] of [__readLoop]. *)
Definition readLoop_iteration : M unit :=
  statusByte ← readI2C [0x81; 0x4E];
  let st := parseStatus statusByte in
  (if bufferStatus st then
     (if 1 <=? touchPoints st then
        tracksThisRound ← queryTracks (range (touchPoints st)) [];
        removeMissingTracks tracksThisRound;;
        eventCallback
      else
        set_touchInfo ∅;;
        eventCallback);;
     writeI2C [0x81; 0x4E] [0]
   else ret tt);;
  emit Sleep.

(** [__readLoop], unrolled [fuel] times.  The source loop has no exit: the
    result is [inr tt] when all [fuel] iterations ran (the loop is still
    running) and [inl e] when exception [e] left the loop. *)
Fixpoint readLoop (fuel : nat) : M unit :=
  match fuel with
  | O => ret tt
  | S fuel' => readLoop_iteration;; readLoop fuel'
  end.

(** ** Construction *)

(** [self.caps[e.EV_ABS]] *)
Definition caps (self : GT911) : list (ecode * AbsInfo) :=
  [ (ABS_MT_SLOT, mkAbsInfo 0 0 9 0 0 0);
    (ABS_MT_TOUCH_MAJOR, mkAbsInfo 0 0 255 0 0 0);
    (ABS_MT_POSITION_X, mkAbsInfo 0 0 (coordinateResolution self).1 0 0 0);
    (ABS_MT_POSITION_Y, mkAbsInfo 0 0 (coordinateResolution self).2 0 0 0);
    (ABS_MT_TRACKING_ID, mkAbsInfo 0 0 65535 0 0 0);
    (ABS_X, mkAbsInfo 0 0 (coordinateResolution self).1 0 0 0);
    (ABS_Y, mkAbsInfo 0 0 (coordinateResolution self).2 0 0 0) ].

(** The object as [__init__] finds it: the arguments stored, nothing read
    yet. *)
Definition blank (flipX flipY swapXY : bool) (scaling : Z)
    (bus : nat -> option Z) : GT911 :=
  mkGT911 flipX flipY swapXY scaling (0, 0) (0, 0) ∅ ∅ bus 0 [] [].

(** [__init__] up to the call of [__readLoop] (opening the bus and creating
    the uinput device are outside the model). *)
Definition init : M unit :=
  tb ← queryTouchBoundary;
  set_touchBoundary tb;;
  cr ← queryCoordinateResolution;
  set_coordinateResolution cr;;
  set_touchInfo ∅;;
  set_previousTouchInfo ∅.

(** The whole process: [GT911(...)] with the loop unrolled [fuel] times. *)
Definition run (flipX flipY swapXY : bool) (scaling : Z)
    (bus : nat -> option Z) (fuel : nat) : (exn + unit) * GT911 :=
  (init;; readLoop fuel) (blank flipX flipY swapXY scaling bus).

(** A bus that answers the transactions with the given replies, in order, and
    acknowledges with [0] once they are used up. *)
Definition scripted (replies : list (option Z)) : nat -> option Z :=
  fun n => default (Some 0) (replies !! n).

(** A one-byte register read that succeeds with byte [b]: the address write is
    acknowledged, then the read delivers [b]. *)
Definition rd (b : Z) : list (option Z) := [Some 0; Some b].

(** A two-byte little-endian field read that delivers [v]. *)
Definition rd16 (v : Z) : list (option Z) :=
  rd (Z.land v 255) ++ rd (Z.shiftr v 8).

(** The reads of one [__queryPoint]: x, y, size, then track. *)
Definition rdPoint (x y size track : Z) : list (option Z) :=
  rd16 x ++ rd16 y ++ rd16 size ++ rd track.

(** The four startup reads: boundary X/Y, resolution X/Y. *)
Definition rdInit (xMax yMax xRes yRes : Z) : list (option Z) :=
  rd16 xMax ++ rd16 yMax ++ rd16 xRes ++ rd16 yRes.

(** ** Vocabulary of the statements *)

(** The state after the effects [evs] have been appended to the trace. *)
Definition log (evs : list effect) (s : GT911) : GT911 :=
  mkGT911 (flipX s) (flipY s) (swapXY s) (scalingFactor s) (touchBoundary s)
    (coordinateResolution s) (touchInfo s) (previousTouchInfo s) (bus s)
    (txn s) (trace s ++ evs) (history s).

(** The [ui.write] calls of [__newTrack], [__updateTrack] and [__endTrack]. *)
Definition newTrack_writes (trackID : Z) (info : Info) : list effect :=
  [ UiWrite EV_ABS ABS_MT_SLOT trackID;
    UiWrite EV_ABS ABS_MT_TRACKING_ID trackID;
    UiWrite EV_ABS ABS_MT_POSITION_X (info_x info);
    UiWrite EV_ABS ABS_MT_POSITION_Y (info_y info);
    UiWrite EV_ABS ABS_MT_TOUCH_MAJOR (info_size info) ].

Definition updateTrack_writes (trackID : Z) (info : Info) : list effect :=
  [ UiWrite EV_ABS ABS_MT_SLOT trackID;
    UiWrite EV_ABS ABS_MT_POSITION_X (info_x info);
    UiWrite EV_ABS ABS_MT_POSITION_Y (info_y info);
    UiWrite EV_ABS ABS_MT_TOUCH_MAJOR (info_size info) ].

Definition endTrack_writes (trackID : Z) : list effect :=
  [ UiWrite EV_ABS ABS_MT_SLOT trackID;
    UiWrite EV_ABS ABS_MT_TRACKING_ID (-1) ].

(** What one group of [__eventCallback] sends: the writes of each track of the
    group, then one [syn] if the group is not empty. *)
Definition group_writes (cur : gmap Z Info) (tracks : gset Z)
    (writes : Z -> Info -> list effect) : list effect :=
  flat_map
    (fun trackID =>
       match cur !! trackID with
       | Some info => writes trackID info
       | None => []
       end)
    (elements tracks)
  ++ (if decide (0 < size tracks)%nat then [UiSyn] else []).

(** Everything [__eventCallback] sends for a pair of states. *)
Definition callback_writes (cur prev : gmap Z Info) : list effect :=
  group_writes cur (newTracks cur prev) newTrack_writes
  ++ group_writes cur (commonTracks cur prev) updateTrack_writes
  ++ (flat_map endTrack_writes (elements (endedTracks cur prev))
      ++ (if decide (0 < size (endedTracks cur prev))%nat then [UiSyn] else [])).

(** The effects added to the trace between state [s] and a later state
    [s']. *)
Definition since (s s' : GT911) : list effect :=
  drop (length (trace s)) (trace s').

(** The write that acknowledges the buffer: [__writeI2C([0x81, 0x4E], 0)]. *)
Definition clearBuffer : effect := I2cWrite [0x81; 0x4E; 0].

Definition is_i2c (ev : effect) : bool :=
  match ev with
  | I2cWrite _ | I2cRead _ => true
  | _ => false
  end.

(** The little-endian value of a byte sequence, as the specification words
    it: the first byte is the least significant and each following byte
    weighs 256 times more than the one before. *)
Definition little_endian (bytes : list Z) : Z :=
  foldr (fun b acc => b + 256 * acc) 0 bytes.

(** The state after [n] more bus transactions whose effects are [evs]. *)
Definition transact (n : nat) (evs : list effect) (s : GT911) : GT911 :=
  mkGT911 (flipX s) (flipY s) (swapXY s) (scalingFactor s) (touchBoundary s)
    (coordinateResolution s) (touchInfo s) (previousTouchInfo s) (bus s)
    (txn s + n)%nat (trace s ++ evs) (history s).

(** The transactions of one-byte reads from [registers], in order. *)
Definition reads_of (registers : list (list Z)) : list effect :=
  flat_map (fun register => [I2cWrite register; I2cRead 1]) registers.

(** A register read: the two-byte address write or the read that follows. *)
Definition is_query (ev : effect) : bool :=
  match ev with
  | I2cWrite [_; _] | I2cRead _ => true
  | _ => false
  end.

(** The part of the object that holds the two touch states. *)
Definition tracks (s : GT911) :
    gmap Z Info * gmap Z Info * list (gmap Z Info * gmap Z Info) :=
  (touchInfo s, previousTouchInfo s, history s).

(** [preserves R m]: whatever the outcome, [m] takes a state to an
    [R]-related state. *)
Definition preserves {A} (R : GT911 -> GT911 -> Prop) (m : M A) : Prop :=
  ∀ s, R s (m s).2.

(** [hoare P m Q E]: from a state satisfying [P], [m] either returns [a] in
    a state satisfying [Q a] or raises [e] in a state satisfying [E e]. *)
Definition hoare {A} (P : GT911 -> Prop) (m : M A)
    (Q : A -> GT911 -> Prop) (E : exn -> GT911 -> Prop) : Prop :=
  ∀ s, P s ->
    match m s with
    | (inr a, s') => Q a s'
    | (inl e, s') => E e s'
    end.

(** Nothing but the trace and the transaction counter changed. *)
Definition same_tracks (s s' : GT911) : Prop :=
  tracks s' = tracks s ∧ bus s' = bus s.

(** Only register reads happened: the bus and the previous state are the
    same, and the trace grew by register reads only. *)
Definition reads_only (s s' : GT911) : Prop :=
  bus s' = bus s
  ∧ previousTouchInfo s' = previousTouchInfo s
  ∧ ∃ evs, trace s' = trace s ++ evs
           ∧ Forall (fun ev => is_query ev = true) evs.

(** The last thing that happened is a bus transaction that failed. *)
Definition failed_last (s : GT911) : Prop :=
  ∃ n pre ev,
    txn s = S n ∧ bus s n = None
    ∧ trace s = pre ++ [ev] ∧ is_i2c ev = true.

(** Whenever a computation raises [OSError], the failed transaction is the
    last thing that happened. *)
Definition stops_at_failure {A} (m : M A) : Prop :=
  hoare (fun _ => True) m (fun _ _ => True)
    (fun e s => e = OSError -> failed_last s).

(** The trace only grew. *)
Definition grows (s s' : GT911) : Prop :=
  ∃ evs, trace s' = trace s ++ evs.

(** The body of [if(bufferStatus)] in [__readLoop] up to and including the
    call of the event handler, for a parsed status [st]. *)
Definition cycle (st : Status) : M unit :=
  if 1 <=? touchPoints st then
    tracksThisRound ← queryTracks (range (touchPoints st)) [];
    removeMissingTracks tracksThisRound;;
    eventCallback
  else
    set_touchInfo ∅;;
    eventCallback.

(** Size bounds on a pair (current, previous). *)
Definition within (n : nat) (p : gmap Z Info * gmap Z Info) : Prop :=
  (size p.1 <= n)%nat ∧ (size p.2 <= 5)%nat.

(** The current state holds at most [n] entries, the previous state at most
    5, and every pair of states so far was within (10, 5). *)
Definition bounded (n : nat) (s : GT911) : Prop :=
  Forall (within 10) (history s)
  ∧ within n (touchInfo s, previousTouchInfo s).

(** ** Vocabulary of the further properties *)

(** The bus acknowledges the next address writes and answers the one-byte
    reads that follow them with [bytes], in order. *)
Definition answers (s : GT911) (bytes : list Z) : Prop :=
  ∀ (i : nat) (b : Z), bytes !! i = Some b ->
    is_Some (bus s (txn s + 2 * i)%nat)
    ∧ bus s (txn s + 2 * i + 1)%nat = Some b.

Definition is_byte (b : Z) : Prop := 0 <= b < 256.

(** The seven registers [__queryPoint(i)] reads, in the order it reads them:
    x low, x high, y low, y high, size low, size high, track. *)
Definition point_registers (i : Z) : list (list Z) :=
  [ [0x81; 0x50 + 8 * i]; [0x81; 0x51 + 8 * i];
    [0x81; 0x52 + 8 * i]; [0x81; 0x53 + 8 * i];
    [0x81; 0x54 + 8 * i]; [0x81; 0x55 + 8 * i];
    [0x81; 0x4F + 8 * i] ].

(** [m] returns from every state. *)
Definition never_raises {A} (m : M A) : Prop :=
  ∀ s, ∃ a s', m s = (inr a, s').

(** The only exceptions [m] raises are [OSError] and [AssertionError]. *)
Definition raises_only_bus_or_assert {A} (m : M A) : Prop :=
  hoare (fun _ => True) m (fun _ _ => True)
    (fun e _ => e = OSError ∨ e = AssertionError).

Definition is_syn (ev : effect) : bool :=
  match ev with
  | UiSyn => true
  | _ => false
  end.

(** The slot-select write for slot [slot]. *)
Definition is_slot (slot : Z) (ev : effect) : bool :=
  match ev with
  | UiWrite EV_ABS ABS_MT_SLOT v => bool_decide (v = slot)
  | _ => false
  end.

(** How many effects of [evs] satisfy the test [p]. *)
Definition count_of (p : effect -> bool) (evs : list effect) : nat :=
  length (filter (fun ev => p ev = true) evs).

(** The effects the driver is ever seen to have: register reads, the write
    of zero to the status register, multi-touch writes of the five codes the
    event handlers use, [syn] and the sleep. *)
Definition is_protocol (ev : effect) : bool :=
  match ev with
  | I2cWrite [_; _] => true
  | I2cWrite [hi; lo; data] => (hi =? 0x81) && (lo =? 0x4E) && (data =? 0)
  | I2cWrite _ => false
  | I2cRead _ => true
  | UiWrite EV_ABS ABS_MT_SLOT _
  | UiWrite EV_ABS ABS_MT_TRACKING_ID _
  | UiWrite EV_ABS ABS_MT_POSITION_X _
  | UiWrite EV_ABS ABS_MT_POSITION_Y _
  | UiWrite EV_ABS ABS_MT_TOUCH_MAJOR _ => true
  | UiWrite _ _ _ => false
  | UiSyn => true
  | Sleep => true
  end.

(** The trace grew by effects of the protocol only. *)
Definition emits_protocol (s s' : GT911) : Prop :=
  ∃ evs, trace s' = trace s ++ evs
         ∧ Forall (fun ev => is_protocol ev = true) evs.

(** ** Vocabulary of order-free statements *)

(** What one group sends when its tracks are visited in the order [order]. *)
Definition group_sent (cur : gmap Z Info) (order : list Z)
    (writes : Z -> Info -> list effect) : list effect :=
  flat_map
    (fun trackID =>
       match cur !! trackID with
       | Some info => writes trackID info
       | None => []
       end)
    order
  ++ (if decide (0 < length order)%nat then [UiSyn] else []).

(** What the three groups send for given visiting orders. *)
Definition callback_sent (cur : gmap Z Info)
    (newOrder commonOrder endedOrder : list Z) : list effect :=
  group_sent cur newOrder newTrack_writes
  ++ group_sent cur commonOrder updateTrack_writes
  ++ (flat_map endTrack_writes endedOrder
      ++ (if decide (0 < length endedOrder)%nat then [UiSyn] else [])).

(** [evs] is what the event handler sends for the pair of states, for some
    enumeration of each of the three sets. *)
Definition diff_sent (cur prev : gmap Z Info) (evs : list effect) : Prop :=
  ∃ newOrder commonOrder endedOrder,
    newOrder ≡ₚ elements (newTracks cur prev)
    ∧ commonOrder ≡ₚ elements (commonTracks cur prev)
    ∧ endedOrder ≡ₚ elements (endedTracks cur prev)
    ∧ evs = callback_sent cur newOrder commonOrder endedOrder.

(** From [s] to [s'] the previous state was not assigned: it is the same,
    and every pair recorded in between has it as second component. *)
Definition prev_kept (s s' : GT911) : Prop :=
  previousTouchInfo s' = previousTouchInfo s
  ∧ ∃ H, history s' = history s ++ H
         ∧ Forall (fun p => p.2 = previousTouchInfo s) H.

(** From [s] to [s'] exactly the transactions [evs] were issued, one per
    index of the bus, and the previous state was not touched. *)
Definition after (s s' : GT911) (evs : list effect) : Prop :=
  txn s' = (txn s + length evs)%nat
  ∧ trace s' = trace s ++ evs
  ∧ bus s' = bus s
  ∧ previousTouchInfo s' = previousTouchInfo s.

(** [m] returns when the bus answers the transactions [evs], having issued
    them in order, each once. *)
Definition succeeds_in {A} (m : M A) (evs : list effect) : Prop :=
  ∀ s,
    (∀ i, (i < length evs)%nat -> is_Some (bus s (txn s + i)%nat)) ->
    ∃ a s', m s = (inr a, s') ∧ after s s' evs.

(** When the first answer missing is the one of transaction number [j] of
    [evs], [m] raises [OSError] having issued the first [j + 1] of them, each
    once, and nothing else. *)
Definition fails_in {A} (m : M A) (evs : list effect) : Prop :=
  ∀ s j, (j < length evs)%nat ->
    (∀ i, (i < j)%nat -> is_Some (bus s (txn s + i)%nat)) ->
    bus s (txn s + j)%nat = None ->
    ∃ s', m s = (inl OSError, s') ∧ after s s' (take (S j) evs).

(** [m] issues the transactions [evs] in order, each once, and stops at the
    first one that fails. *)
Definition transacts {A} (m : M A) (evs : list effect) : Prop :=
  succeeds_in m evs ∧ fails_in m evs.

(** ** Sample buses *)

(** Startup on an 800x480 panel, a first cycle with five contacts (tracks
    0..4), the acknowledged clear, then a cycle with one contact whose track
    ID is 5, and its clear. *)
Definition five_then_one : nat -> option Z :=
  scripted (rdInit 800 480 800 480
            ++ rd 0x85
            ++ rdPoint 10 10 1 0 ++ rdPoint 20 20 1 1 ++ rdPoint 30 30 1 2
            ++ rdPoint 40 40 1 3 ++ rdPoint 50 50 1 4
            ++ [Some 0]
            ++ rd 0x81
            ++ rdPoint 60 60 1 5
            ++ [Some 0]).

(** Startup, a first cycle with five contacts (tracks 0..4), the acknowledged
    clear, then a cycle with five contacts whose track IDs are 5..9. *)
Definition five_then_five : nat -> option Z :=
  scripted (rdInit 800 480 800 480
            ++ rd 0x85
            ++ rdPoint 10 10 1 0 ++ rdPoint 20 20 1 1 ++ rdPoint 30 30 1 2
            ++ rdPoint 40 40 1 3 ++ rdPoint 50 50 1 4
            ++ [Some 0]
            ++ rd 0x85
            ++ rdPoint 10 10 1 5 ++ rdPoint 20 20 1 6 ++ rdPoint 30 30 1 7
            ++ rdPoint 40 40 1 8 ++ rdPoint 50 50 1 9
            ++ [Some 0]).

(** Startup, then a status byte announcing one contact; the address write of
    the first contact register is acknowledged and the read that follows
    fails.  Every later transaction would succeed. *)
Definition read_fails : nat -> option Z :=
  scripted (rdInit 800 480 800 480 ++ rd 0x81 ++ [Some 0; None]).

(** Startup, then a status byte with the buffer-ready bit and a contact count
    of six; every transaction succeeds. *)
Definition six_contacts : nat -> option Z :=
  scripted (rdInit 800 480 800 480 ++ rd 0x86).

(** Startup on an 800x480 panel, then the reads of contact 0 at raw
    (700, 100), size 3, track 0. *)
Definition point_700_100 : nat -> option Z :=
  scripted (rdInit 800 480 800 480 ++ rdPoint 700 100 3 0).

(** * Proofs *)

(** ** Track diff *)

(** C1: the three sets of the track diff partition the track IDs: new and
    common make up the keys of the current state, common and ended make up
    the keys of the previous state, and the three are pairwise disjoint. *)
Theorem track_diff_partition (previous current : gmap Z Info) :
  newTracks current previous ∪ commonTracks current previous = dom current
  ∧ commonTracks current previous ∪ endedTracks current previous = dom previous
  ∧ newTracks current previous ## commonTracks current previous
  ∧ commonTracks current previous ## endedTracks current previous
  ∧ newTracks current previous ## endedTracks current previous.
Proof.
  unfold newTracks, commonTracks, endedTracks.
  split; [|split; [|split; [|split]]].
  - apply set_eq. intros k.
    rewrite elem_of_union, elem_of_difference, elem_of_intersection.
    destruct (decide (k ∈ dom previous)); tauto.
  - apply set_eq. intros k.
    rewrite elem_of_union, elem_of_difference, elem_of_intersection.
    destruct (decide (k ∈ dom current)); tauto.
  - intros k. rewrite elem_of_difference, elem_of_intersection. tauto.
  - intros k. rewrite elem_of_difference, elem_of_intersection. tauto.
  - intros k. rewrite !elem_of_difference. tauto.
Qed.

(** ** Status byte *)

Lemma land_pow2 (b k : Z) :
  0 <= k -> py_bool (Z.land b (2 ^ k)) = Z.testbit b k.
Proof.
  intros Hk. unfold py_bool.
  destruct (Z.testbit b k) eqn:Hb.
  - apply negb_true_iff, Z.eqb_neq. intros H0.
    assert (Z.testbit (Z.land b (2 ^ k)) k = false) as Hf
      by (rewrite H0; apply Z.bits_0).
    rewrite Z.land_spec, Hb, Z.pow2_bits_true in Hf by lia. discriminate.
  - apply negb_false_iff, Z.eqb_eq. apply Z.bits_inj'. intros n Hn.
    rewrite Z.land_spec, Z.bits_0.
    destruct (decide (k = n)) as [->|Hne].
    + rewrite Hb. reflexivity.
    + rewrite Z.pow2_bits_false by lia. apply andb_false_r.
Qed.

(** C8: every byte value decodes, with bufferStatus taken from bit 7,
    largeDetect from bit 6, proximityValid from bit 5, haveKey from bit 4
    and touchPoints from the low four bits; 0b10000011 decodes to
    (true, false, false, false, 3). *)
Theorem parseStatus_bits (statusByte : Z) :
  bufferStatus (parseStatus statusByte) = Z.testbit statusByte 7
  ∧ largeDetect (parseStatus statusByte) = Z.testbit statusByte 6
  ∧ proximityValid (parseStatus statusByte) = Z.testbit statusByte 5
  ∧ haveKey (parseStatus statusByte) = Z.testbit statusByte 4
  ∧ touchPoints (parseStatus statusByte) = statusByte mod 16
  ∧ 0 <= touchPoints (parseStatus statusByte) <= 15
  ∧ parseStatus 131 = mkStatus true false false false 3.
Proof.
  assert (Z.land statusByte 15 = statusByte mod 16) as Hlow.
  { change 15 with (Z.ones 4). rewrite Z.land_ones by lia. reflexivity. }
  pose proof (Z.mod_pos_bound statusByte 16 eq_refl) as Hb.
  unfold parseStatus; simpl. rewrite Hlow.
  repeat split; try lia.
  - apply (land_pow2 statusByte 7). lia.
  - apply (land_pow2 statusByte 6). lia.
  - apply (land_pow2 statusByte 5). lia.
  - apply (land_pow2 statusByte 4). lia.
Qed.

(** ** The monad *)

Lemma bind_unfold {A B} (m : M A) (k : A -> M B) (s : GT911) :
  (m ≫= k) s =
  match m s with
  | (inl e, s') => (inl e, s')
  | (inr a, s') => k a s'
  end.
Proof. reflexivity. Qed.

Lemma bind_inr {A B} (m : M A) (k : A -> M B) (s s' : GT911) (a : A) :
  m s = (inr a, s') -> (m ≫= k) s = k a s'.
Proof. intros H. rewrite bind_unfold, H. reflexivity. Qed.

Lemma log_nil (s : GT911) : log [] s = s.
Proof. destruct s. unfold log; simpl. rewrite app_nil_r. reflexivity. Qed.

Lemma log_log (a b : list effect) (s : GT911) :
  log b (log a s) = log (a ++ b) s.
Proof. unfold log; simpl. rewrite app_assoc. reflexivity. Qed.

Lemma emit_log (ev : effect) (s : GT911) : emit ev s = (inr tt, log [ev] s).
Proof. reflexivity. Qed.

Lemma since_log (evs : list effect) (s : GT911) : since s (log evs s) = evs.
Proof. unfold since, log; simpl. apply drop_app_length. Qed.

(** ** Event emission *)

Lemma newTrack_log (trackID : Z) (info : Info) (s : GT911) :
  newTrack trackID info s = (inr tt, log (newTrack_writes trackID info) s).
Proof.
  unfold newTrack, newTrack_writes.
  repeat (erewrite bind_inr by apply emit_log).
  rewrite emit_log, !log_log. reflexivity.
Qed.

Lemma updateTrack_log (trackID : Z) (info : Info) (s : GT911) :
  updateTrack trackID info s = (inr tt, log (updateTrack_writes trackID info) s).
Proof.
  unfold updateTrack, updateTrack_writes.
  repeat (erewrite bind_inr by apply emit_log).
  rewrite emit_log, !log_log. reflexivity.
Qed.

Lemma endTrack_log (trackID : Z) (s : GT911) :
  endTrack trackID s = (inr tt, log (endTrack_writes trackID) s).
Proof.
  unfold endTrack, endTrack_writes.
  repeat (erewrite bind_inr by apply emit_log).
  rewrite emit_log, !log_log. reflexivity.
Qed.

Lemma syn_if_any_log (tracks : gset Z) (s : GT911) :
  syn_if_any tracks s =
  (inr tt, log (if decide (0 < size tracks)%nat then [UiSyn] else []) s).
Proof.
  unfold syn_if_any. case_decide.
  - reflexivity.
  - rewrite log_nil. reflexivity.
Qed.

Lemma touchInfo_at_some (trackID : Z) (info : Info) (s : GT911) :
  touchInfo s !! trackID = Some info -> touchInfo_at trackID s = (inr info, s).
Proof.
  intros H. unfold touchInfo_at. rewrite bind_unfold. simpl. rewrite H.
  reflexivity.
Qed.

(** A loop over tracks that are all present in [__touchInfo] only appends the
    writes of each track. *)
Lemma for_each_info_log (f : Z -> Info -> M unit)
    (writes : Z -> Info -> list effect) :
  (∀ trackID info s, f trackID info s = (inr tt, log (writes trackID info) s)) ->
  ∀ (l : list Z) (s : GT911),
    (∀ trackID, trackID ∈ l -> is_Some (touchInfo s !! trackID)) ->
    for_each l (fun trackID => info ← touchInfo_at trackID; f trackID info) s
    = (inr tt,
       log (flat_map
              (fun trackID =>
                 match touchInfo s !! trackID with
                 | Some info => writes trackID info
                 | None => []
                 end) l) s).
Proof.
  intros Hf l. induction l as [|t l IH]; intros s Hin.
  - simpl. rewrite log_nil. reflexivity.
  - simpl.
    destruct (Hin t) as [info Hinfo]; [left|].
    assert ((info0 ← touchInfo_at t; f t info0) s
            = (inr tt, log (writes t info) s)) as Hbody.
    { rewrite (bind_inr _ _ _ _ _ (touchInfo_at_some t info s Hinfo)).
      apply Hf. }
    rewrite (bind_inr _ _ _ _ _ Hbody).
    rewrite IH.
    + simpl. rewrite Hinfo, log_log. reflexivity.
    + intros t' Ht'. simpl. apply Hin. right. exact Ht'.
Qed.

Lemma for_each_log (f : Z -> M unit) (writes : Z -> list effect) :
  (∀ trackID s, f trackID s = (inr tt, log (writes trackID) s)) ->
  ∀ (l : list Z) (s : GT911),
    for_each l f s = (inr tt, log (flat_map writes l) s).
Proof.
  intros Hf l. induction l as [|t l IH]; intros s.
  - simpl. rewrite log_nil. reflexivity.
  - simpl. rewrite (bind_inr _ _ _ _ _ (Hf t s)), IH, log_log. reflexivity.
Qed.

Lemma detectNewTracks_log (s : GT911) :
  detectNewTracks s =
  (inr tt,
   log (group_writes (touchInfo s)
          (newTracks (touchInfo s) (previousTouchInfo s)) newTrack_writes) s).
Proof.
  unfold detectNewTracks, group_writes.
  rewrite bind_unfold. simpl.
  erewrite bind_inr.
  2:{ apply (for_each_info_log newTrack newTrack_writes newTrack_log).
      intros t Ht. apply elem_of_elements in Ht.
      unfold newTracks in Ht. apply elem_of_difference in Ht as [Ht _].
      apply elem_of_dom in Ht. exact Ht. }
  rewrite syn_if_any_log, log_log. reflexivity.
Qed.

Lemma detectUpdatedTracks_log (s : GT911) :
  detectUpdatedTracks s =
  (inr tt,
   log (group_writes (touchInfo s)
          (commonTracks (touchInfo s) (previousTouchInfo s))
          updateTrack_writes) s).
Proof.
  unfold detectUpdatedTracks, group_writes.
  rewrite bind_unfold. simpl.
  erewrite bind_inr.
  2:{ apply (for_each_info_log updateTrack updateTrack_writes updateTrack_log).
      intros t Ht. apply elem_of_elements in Ht.
      unfold commonTracks in Ht. apply elem_of_intersection in Ht as [Ht _].
      apply elem_of_dom in Ht. exact Ht. }
  rewrite syn_if_any_log, log_log. reflexivity.
Qed.

Lemma detectEndedTracks_log (s : GT911) :
  detectEndedTracks s =
  (inr tt,
   log (flat_map endTrack_writes
          (elements (endedTracks (touchInfo s) (previousTouchInfo s)))
        ++ (if decide (0 < size (endedTracks (touchInfo s)
                                   (previousTouchInfo s)))%nat
            then [UiSyn] else [])) s).
Proof.
  unfold detectEndedTracks.
  rewrite bind_unfold. simpl.
  erewrite bind_inr.
  2:{ apply (for_each_log endTrack endTrack_writes endTrack_log). }
  rewrite syn_if_any_log, log_log. reflexivity.
Qed.

(** The three detection groups together: they only append to the trace. *)
Lemma detect_groups_log (s : GT911) :
  (detectNewTracks;; detectUpdatedTracks;; detectEndedTracks) s =
  (inr tt, log (callback_writes (touchInfo s) (previousTouchInfo s)) s).
Proof.
  rewrite (bind_inr _ _ _ _ _ (detectNewTracks_log s)).
  rewrite (bind_inr _ _ _ _ _ (detectUpdatedTracks_log _)).
  rewrite detectEndedTracks_log. simpl.
  rewrite !log_log. unfold callback_writes. rewrite <- ?app_assoc.
  reflexivity.
Qed.

Lemma eventCallback_eq (s : GT911) :
  eventCallback s =
  set_previousTouchInfo (touchInfo s)
    (log (callback_writes (touchInfo s) (previousTouchInfo s)) s).
Proof.
  unfold eventCallback.
  rewrite (bind_inr _ _ _ _ _ (detectNewTracks_log s)).
  rewrite (bind_inr _ _ _ _ _ (detectUpdatedTracks_log _)).
  rewrite (bind_inr _ _ _ _ _ (detectEndedTracks_log _)).
  simpl. rewrite !log_log. unfold callback_writes. rewrite <- ?app_assoc.
  reflexivity.
Qed.

Lemma eventCallback_run (s : GT911) :
  ∃ s', eventCallback s = (inr tt, s')
    ∧ previousTouchInfo s' = touchInfo s
    ∧ touchInfo s' = touchInfo s
    ∧ trace s' = trace s ++ callback_writes (touchInfo s) (previousTouchInfo s)
    ∧ history s' = history s ++ [(touchInfo s, touchInfo s)]
    ∧ bus s' = bus s ∧ txn s' = txn s.
Proof.
  eexists. split; [apply eventCallback_eq|]. simpl. tauto.
Qed.

(** What the model sends is what the handler sends for one enumeration of
    each set: the one of [elements]. *)
Lemma callback_writes_diff_sent (cur prev : gmap Z Info) :
  diff_sent cur prev (callback_writes cur prev).
Proof.
  exists (elements (newTracks cur prev)), (elements (commonTracks cur prev)),
    (elements (endedTracks cur prev)).
  split; [reflexivity|]. split; [reflexivity|]. split; reflexivity.
Qed.

Lemma flat_map_split {A B} (f : A -> list B) (l : list A) (x : A) :
  x ∈ l -> ∃ before after, flat_map f l = before ++ f x ++ after.
Proof.
  intros Hx. apply list_elem_of_split in Hx as (l1 & l2 & ->).
  exists (flat_map f l1), (flat_map f l2).
  rewrite flat_map_app. reflexivity.
Qed.

(** C9: a track present in both states gets its Updated writes (slot select,
    both positions, contact size) in every callback, whatever the previous
    entry was, the same values included. *)
Theorem common_track_always_updated (s : GT911) (trackID : Z)
    (info old : Info) :
  touchInfo s !! trackID = Some info ->
  previousTouchInfo s !! trackID = Some old ->
  trackID ∈ commonTracks (touchInfo s) (previousTouchInfo s)
  ∧ ∃ s' before after,
      eventCallback s = (inr tt, s')
      ∧ since s s' = before ++ updateTrack_writes trackID info ++ after.
Proof.
  intros Hcur Hprev.
  assert (trackID ∈ commonTracks (touchInfo s) (previousTouchInfo s)) as Hin.
  { unfold commonTracks. apply elem_of_intersection.
    split; apply elem_of_dom; eauto. }
  split; [exact Hin|].
  destruct (flat_map_split
              (fun t => match touchInfo s !! t with
                        | Some i => updateTrack_writes t i
                        | None => []
                        end)
              (elements (commonTracks (touchInfo s) (previousTouchInfo s)))
              trackID) as (b & a & Hsplit).
  { apply elem_of_elements. exact Hin. }
  rewrite Hcur in Hsplit.
  eexists. 
  exists (group_writes (touchInfo s)
            (newTracks (touchInfo s) (previousTouchInfo s)) newTrack_writes
          ++ b).
  eexists.
  split; [apply eventCallback_eq|].
  unfold since. simpl. rewrite drop_app_length.
  unfold callback_writes. unfold group_writes at 2.
  rewrite Hsplit. rewrite <- !app_assoc. reflexivity.
Qed.

Lemma common_track_always_updated_witness :
  let info := mkInfo 10 10 3 5 in
  let s := mkGT911 false false false 1 (800, 480) (800, 480)
             {[ 5 := info ]} {[ 5 := info ]} (fun _ => Some 0) 0%nat [] [] in
  5 ∈ commonTracks (touchInfo s) (previousTouchInfo s)
  ∧ ∃ s' before after,
      eventCallback s = (inr tt, s')
      ∧ since s s' = before ++ updateTrack_writes 5 info ++ after.
Proof.
  intros info s.
  apply (common_track_always_updated s 5 info info); reflexivity.
Defined.

(** ** Slot selection *)

Lemma slot_in_group (cur : gmap Z Info) (tracks : gset Z)
    (writes : Z -> Info -> list effect) (v : Z) :
  (∀ t i, UiWrite EV_ABS ABS_MT_SLOT v ∈ writes t i ↔ v = t) ->
  tracks ⊆ dom cur ->
  UiWrite EV_ABS ABS_MT_SLOT v ∈ group_writes cur tracks writes ↔ v ∈ tracks.
Proof.
  intros Hw Hsub. unfold group_writes.
  rewrite elem_of_app, list_elem_of_In, in_flat_map.
  split.
  - intros [(t & Ht & Hv)|Hsyn].
    + apply list_elem_of_In, elem_of_elements in Ht.
      destruct (cur !! t) as [i|].
      * apply list_elem_of_In, Hw in Hv. subst. exact Ht.
      * destruct Hv.
    + case_decide; [|inversion Hsyn].
      apply list_elem_of_singleton in Hsyn. discriminate.
  - intros Hv. left. exists v. split.
    + apply list_elem_of_In, elem_of_elements. exact Hv.
    + apply Hsub, elem_of_dom in Hv as [i Hi]. rewrite Hi.
      apply list_elem_of_In, Hw. reflexivity.
Qed.

Lemma slot_in_newTrack_writes (v t : Z) (i : Info) :
  UiWrite EV_ABS ABS_MT_SLOT v ∈ newTrack_writes t i ↔ v = t.
Proof.
  unfold newTrack_writes. rewrite !elem_of_cons, elem_of_nil.
  split.
  - intros [H|[H|[H|[H|[H|[]]]]]]; inversion H; reflexivity.
  - intros ->. left. reflexivity.
Qed.

Lemma slot_in_updateTrack_writes (v t : Z) (i : Info) :
  UiWrite EV_ABS ABS_MT_SLOT v ∈ updateTrack_writes t i ↔ v = t.
Proof.
  unfold updateTrack_writes. rewrite !elem_of_cons, elem_of_nil.
  split.
  - intros [H|[H|[H|[H|[]]]]]; inversion H; reflexivity.
  - intros ->. left. reflexivity.
Qed.

Lemma slot_in_endTrack_writes (v t : Z) :
  UiWrite EV_ABS ABS_MT_SLOT v ∈ endTrack_writes t ↔ v = t.
Proof.
  unfold endTrack_writes. rewrite !elem_of_cons, elem_of_nil.
  split.
  - intros [H|[H|[]]]; inversion H; reflexivity.
  - intros ->. left. reflexivity.
Qed.

(** The slots selected by one callback are exactly the track IDs that are
    keys of the current or of the previous state. *)
Lemma slots_of_callback (cur prev : gmap Z Info) (v : Z) :
  UiWrite EV_ABS ABS_MT_SLOT v ∈ callback_writes cur prev
  ↔ v ∈ dom cur ∪ dom prev.
Proof.
  unfold callback_writes.
  rewrite !elem_of_app.
  rewrite (slot_in_group cur (newTracks cur prev) newTrack_writes v).
  2:{ intros. apply slot_in_newTrack_writes. }
  2:{ unfold newTracks. intros k Hk. apply elem_of_difference in Hk. tauto. }
  rewrite (slot_in_group cur (commonTracks cur prev) updateTrack_writes v).
  2:{ intros. apply slot_in_updateTrack_writes. }
  2:{ unfold commonTracks. intros k Hk. apply elem_of_intersection in Hk.
      tauto. }
  assert (UiWrite EV_ABS ABS_MT_SLOT v
            ∈ flat_map endTrack_writes (elements (endedTracks cur prev))
          ↔ v ∈ endedTracks cur prev) as Hend.
  { rewrite list_elem_of_In, in_flat_map. split.
    - intros (t & Ht & Hv).
      apply list_elem_of_In, elem_of_elements in Ht.
      apply list_elem_of_In, slot_in_endTrack_writes in Hv. subst. exact Ht.
    - intros Hv. exists v. split.
      + apply list_elem_of_In, elem_of_elements. exact Hv.
      + apply list_elem_of_In, slot_in_endTrack_writes. reflexivity. }
  rewrite Hend.
  assert (UiWrite EV_ABS ABS_MT_SLOT v
            ∈ (if decide (0 < size (endedTracks cur prev))%nat
               then [UiSyn] else []) ↔ False) as Hsyn.
  { split; [|tauto]. case_decide; intros H'.
    - apply list_elem_of_singleton in H'. discriminate.
    - inversion H'. }
  rewrite Hsyn.
  unfold newTracks, commonTracks, endedTracks.
  rewrite elem_of_union, !elem_of_difference, elem_of_intersection.
  destruct (decide (v ∈ dom cur)), (decide (v ∈ dom prev)); tauto.
Qed.

(** C10: New, Updated and Ended each start by selecting the slot whose
    number is the track ID itself, whatever the ID; the slots selected by a
    call of the event handler are exactly the track IDs that are keys of the
    current or of the previous state; the device declares slots 0..9, so a
    track ID above 9 selects a slot outside the declared range. *)
Theorem slot_select_is_track_id (s : GT911) (trackID : Z) (info : Info) :
  head (since s (newTrack trackID info s).2)
    = Some (UiWrite EV_ABS ABS_MT_SLOT trackID)
  ∧ head (since s (updateTrack trackID info s).2)
    = Some (UiWrite EV_ABS ABS_MT_SLOT trackID)
  ∧ head (since s (endTrack trackID s).2)
    = Some (UiWrite EV_ABS ABS_MT_SLOT trackID)
  ∧ (∃ s', eventCallback s = (inr tt, s')
           ∧ ∀ v, UiWrite EV_ABS ABS_MT_SLOT v ∈ since s s'
                  ↔ v ∈ dom (touchInfo s) ∪ dom (previousTouchInfo s))
  ∧ (ABS_MT_SLOT, mkAbsInfo 0 0 9 0 0 0) ∈ caps s
  ∧ (9 < trackID ->
     ∀ declared, (ABS_MT_SLOT, declared) ∈ caps s ->
       ¬ (abs_min declared <= trackID <= abs_max declared)).
Proof.
  rewrite newTrack_log, updateTrack_log, endTrack_log. simpl.
  rewrite !since_log. simpl.
  split; [reflexivity|]. split; [reflexivity|]. split; [reflexivity|].
  split.
  { destruct (eventCallback_run s) as (s' & Hrun & _ & _ & Htr & _).
    exists s'. split; [exact Hrun|]. intros v.
    unfold since. rewrite Htr, drop_app_length. apply slots_of_callback. }
  split; [unfold caps; left|].
  intros Hbig declared Hin. unfold caps in Hin.
  rewrite !elem_of_cons, elem_of_nil in Hin.
  destruct Hin as [H|[H|[H|[H|[H|[H|[H|[]]]]]]]]; inversion H; subst.
  simpl. lia.
Qed.

Lemma slot_select_is_track_id_witness :
  let s := blank false false false 1 (fun _ => Some 0) in
  head (since s (newTrack 200 (mkInfo 30 40 5 200) s).2)
    = Some (UiWrite EV_ABS ABS_MT_SLOT 200)
  ∧ ¬ (0 <= 200 <= 9).
Proof.
  intros s.
  destruct (slot_select_is_track_id s 200 (mkInfo 30 40 5 200))
    as (Hnew & _ & _ & _ & Hcap & Hout).
  split; [exact Hnew|].
  exact (Hout ltac:(lia) _ Hcap).
Defined.

(** ** Register access *)

Lemma transact_transact (n m : nat) (a b : list effect) (s : GT911) :
  transact m b (transact n a s) = transact (n + m) (a ++ b) s.
Proof.
  unfold transact; simpl. rewrite app_assoc, Nat.add_assoc. reflexivity.
Qed.

Lemma transact_0 (s : GT911) : transact 0 [] s = s.
Proof.
  destruct s. unfold transact; simpl.
  rewrite app_nil_r, Nat.add_0_r. reflexivity.
Qed.

Lemma since_transact (n : nat) (evs : list effect) (s : GT911) :
  since s (transact n evs s) = evs.
Proof. unfold since, transact; simpl. apply drop_app_length. Qed.

Lemma i2c_rdwr_ok (ev : effect) (s : GT911) (b : Z) :
  bus s (txn s) = Some b -> i2c_rdwr ev s = (inr b, transact 1 [ev] s).
Proof.
  intros H. unfold i2c_rdwr, transact. rewrite H, Nat.add_1_r. reflexivity.
Qed.

Lemma readI2C_ok (register : list Z) (s : GT911) (a b : Z) :
  register ≠ [] ->
  bus s (txn s) = Some a ->
  bus s (S (txn s)) = Some b ->
  readI2C register s = (inr b, transact 2 [I2cWrite register; I2cRead 1] s).
Proof.
  intros Hne Ha Hb. unfold readI2C. case_decide; [contradiction|].
  rewrite (bind_inr _ _ _ _ _ (i2c_rdwr_ok _ s a Ha)).
  erewrite bind_inr.
  2:{ apply i2c_rdwr_ok. simpl. rewrite Nat.add_1_r. exact Hb. }
  rewrite transact_transact. reflexivity.
Qed.

Lemma readValues_ok (registers : list (list Z)) :
  ∀ (bytes : list Z) (s : GT911),
    Forall (fun register => register ≠ []) registers ->
    length bytes = length registers ->
    (∀ i b, bytes !! i = Some b ->
       is_Some (bus s (txn s + 2 * i)%nat)
       ∧ bus s (txn s + 2 * i + 1)%nat = Some b) ->
    readValues registers s =
    (inr bytes, transact (2 * length registers) (reads_of registers) s).
Proof.
  induction registers as [|r rs IH]; intros bytes s Hne Hlen Hbus.
  - destruct bytes; [|discriminate]. simpl. rewrite transact_0. reflexivity.
  - destruct bytes as [|b bytes]; [discriminate|].
    inversion Hne as [|? ? Hr Hrs]; subst.
    destruct (Hbus 0%nat b eq_refl) as [[a Ha] Hb].
    rewrite Nat.add_0_r in Ha. simpl in Hb.
    rewrite Nat.add_0_r, Nat.add_1_r in Hb.
    cbn [readValues].
    rewrite (bind_inr _ _ _ _ _ (readI2C_ok r s a b Hr Ha Hb)).
    assert (length bytes = length rs) as Hlen' by (simpl in Hlen; lia).
    assert (readValues rs (transact 2 [I2cWrite r; I2cRead 1] s) =
            (inr bytes,
             transact (2 * length rs) (reads_of rs)
               (transact 2 [I2cWrite r; I2cRead 1] s))) as Hrest.
    { apply IH; [exact Hrs|exact Hlen'|].
      intros i b' Hi. specialize (Hbus (S i) b' Hi). simpl.
      replace (txn s + 2 + (i + (i + 0)))%nat
        with (txn s + 2 * S i)%nat by lia.
      exact Hbus. }
    rewrite (bind_inr _ _ _ _ _ Hrest).
    cbn [mret M_ret ret].
    rewrite transact_transact.
    replace (2 + 2 * length rs)%nat with (2 * length (r :: rs))%nat
      by (simpl; lia).
    reflexivity.
Qed.

Lemma byte_lor_shift (b x : Z) :
  0 <= b < 256 -> Z.lor b (Z.shiftl x 8) = b + 256 * x.
Proof.
  intros Hb.
  assert (Z.land b (Z.shiftl x 8) = 0) as Hland.
  { apply Z.bits_inj'. intros n Hn. rewrite Z.land_spec, Z.bits_0.
    destruct (decide (n < 8)).
    - rewrite Z.shiftl_spec_low by lia. apply andb_false_r.
    - rewrite <- (Z.mod_small b (2 ^ 8)) by (change (2 ^ 8) with 256; lia).
      rewrite Z.mod_pow2_bits_high by lia. reflexivity. }
  pose proof (Z.add_lor_land b (Z.shiftl x 8)) as Hadd.
  rewrite Hland, Z.add_0_r in Hadd. rewrite Hadd.
  rewrite Z.shiftl_mul_pow2 by lia. change (2 ^ 8) with 256. lia.
Qed.

Lemma byte_lor_shift_bit (b x n : Z) :
  0 <= b < 256 -> 0 <= n ->
  Z.testbit (Z.lor b (Z.shiftl x 8)) n =
  if decide (n < 8) then Z.testbit b n else Z.testbit x (n - 8).
Proof.
  intros Hb Hn. rewrite Z.lor_spec. case_decide.
  - rewrite Z.shiftl_spec_low by lia. apply orb_false_r.
  - rewrite <- (Z.mod_small b (2 ^ 8)) by (change (2 ^ 8) with 256; lia).
    rewrite Z.mod_pow2_bits_high by lia.
    rewrite Z.shiftl_spec by lia. reflexivity.
Qed.

(** The accumulating loop of the source computes the nested form. *)
Lemma combine_from_nested (values : list Z) :
  ∀ (i acc : Z), 0 <= i ->
    combine_from i values acc =
    Z.lor acc
      (Z.shiftl (foldr (fun v r => Z.lor v (Z.shiftl r 8)) 0 values) (8 * i)).
Proof.
  induction values as [|v vs IH]; intros i acc Hi.
  - simpl. rewrite Z.shiftl_0_l, Z.lor_0_r. reflexivity.
  - cbn [combine_from foldr]. rewrite IH by lia.
    rewrite Z.shiftl_lor, Z.shiftl_shiftl by lia.
    rewrite Z.lor_assoc.
    replace (8 + 8 * i) with (8 * (i + 1)) by lia. reflexivity.
Qed.

Lemma combine_nested (values : list Z) :
  combine values = foldr (fun v r => Z.lor v (Z.shiftl r 8)) 0 values.
Proof.
  unfold combine. rewrite combine_from_nested by lia.
  rewrite Z.shiftl_0_r, Z.lor_0_l. reflexivity.
Qed.

Lemma combine_little_endian (bytes : list Z) :
  Forall (fun b => 0 <= b < 256) bytes -> combine bytes = little_endian bytes.
Proof.
  intros Hb. rewrite combine_nested. unfold little_endian.
  induction Hb as [|b bs Hb Hbs IH]; [reflexivity|].
  cbn [foldr]. rewrite IH. apply byte_lor_shift. exact Hb.
Qed.

Lemma combine_bits (bytes : list Z) :
  Forall (fun b => 0 <= b < 256) bytes ->
  ∀ (i : nat) (b j : Z), bytes !! i = Some b -> 0 <= j < 8 ->
    Z.testbit (combine bytes) (8 * Z.of_nat i + j) = Z.testbit b j.
Proof.
  intros Hb. rewrite combine_nested.
  induction Hb as [|b0 bs Hb0 Hbs IH]; intros i b j Hi Hj.
  - discriminate.
  - cbn [foldr]. rewrite byte_lor_shift_bit by lia.
    destruct i as [|i]; simpl in Hi.
    + inversion Hi; subst. case_decide; [|lia].
      f_equal; lia.
    + case_decide; [lia|].
      replace (8 * Z.of_nat (S i) + j - 8) with (8 * Z.of_nat i + j) by lia.
      apply IH; assumption.
Qed.

(** C7: reading one byte from each register in the order given and combining
    yields the little-endian value: byte [i] occupies bits [8i .. 8i+7], the
    first byte is the least significant; bytes [0x34, 0x12] give 0x1234. *)
Theorem readI2CMultiByteValue_little_endian (registers : list (list Z))
    (bytes : list Z) (s : GT911) :
  Forall (fun register => register ≠ []) registers ->
  length bytes = length registers ->
  Forall (fun b => 0 <= b < 256) bytes ->
  (∀ i b, bytes !! i = Some b ->
     is_Some (bus s (txn s + 2 * i)%nat)
     ∧ bus s (txn s + 2 * i + 1)%nat = Some b) ->
  ∃ value s',
    readI2CMultiByteValue registers s = (inr value, s')
    ∧ since s s' = reads_of registers
    ∧ value = little_endian bytes
    ∧ (∀ (i : nat) (b j : Z), bytes !! i = Some b -> 0 <= j < 8 ->
         Z.testbit value (8 * Z.of_nat i + j) = Z.testbit b j)
    ∧ combine [0x34; 0x12] = 0x1234.
Proof.
  intros Hne Hlen Hbytes Hbus.
  exists (combine bytes).
  eexists. split.
  { unfold readI2CMultiByteValue.
    rewrite (bind_inr _ _ _ _ _ (readValues_ok registers bytes s Hne Hlen Hbus)).
    reflexivity. }
  split; [apply since_transact|].
  split; [apply combine_little_endian; exact Hbytes|].
  split; [apply combine_bits; exact Hbytes|].
  reflexivity.
Qed.

Lemma readI2CMultiByteValue_little_endian_witness :
  let s := blank false false false 1 (scripted (rd 0x34 ++ rd 0x12)) in
  ∃ s', readI2CMultiByteValue [[0x00]; [0x01]] s = (inr 0x1234, s').
Proof.
  intros s.
  destruct (readI2CMultiByteValue_little_endian
              [[0x00]; [0x01]] [0x34; 0x12] s)
    as (value & s' & Hrun & _ & Hvalue & _).
  - repeat constructor; discriminate.
  - reflexivity.
  - repeat constructor; lia.
  - intros i b Hi.
    destruct i as [|[|i]]; simpl in Hi; inversion Hi; subst; simpl;
      split; eauto.
  - exists s'. rewrite Hrun, Hvalue. reflexivity.
Defined.

(** ** Frame rules *)

Section Preserves.
Context (R : GT911 -> GT911 -> Prop) `{!PreOrder R}.

Lemma preserves_ret {A} (a : A) : preserves R (mret a : M A).
Proof. intros s. simpl. reflexivity. Qed.

Lemma preserves_raise {A} (e : exn) : preserves R (raise e : M A).
Proof. intros s. simpl. reflexivity. Qed.

Lemma preserves_get : preserves R get.
Proof. intros s. simpl. reflexivity. Qed.

Lemma preserves_bind {A B} (m : M A) (k : A -> M B) :
  preserves R m -> (∀ a, preserves R (k a)) -> preserves R (m ≫= k).
Proof.
  intros Hm Hk s. rewrite bind_unfold. specialize (Hm s).
  destruct (m s) as [[e|a] s1]; simpl in *.
  - exact Hm.
  - etransitivity; [exact Hm|apply Hk].
Qed.

Lemma preserves_for_each {A} (l : list A) (body : A -> M unit) :
  (∀ x, preserves R (body x)) -> preserves R (for_each l body).
Proof.
  intros Hbody. induction l as [|x l IH].
  - apply (preserves_ret tt).
  - simpl. apply preserves_bind; [apply Hbody|intros _; exact IH].
Qed.
End Preserves.

#[local] Instance same_tracks_preorder : PreOrder same_tracks.
Proof.
  split.
  - intros s. split; reflexivity.
  - intros s1 s2 s3 [H1 H1'] [H2 H2']. split; congruence.
Qed.

#[local] Instance reads_only_preorder : PreOrder reads_only.
Proof.
  split.
  - intros s. split; [reflexivity|]. split; [reflexivity|].
    exists []. rewrite app_nil_r. split; [reflexivity|constructor].
  - intros s1 s2 s3 (Hb1 & Hp1 & e1 & Ht1 & Hq1) (Hb2 & Hp2 & e2 & Ht2 & Hq2).
    split; [congruence|]. split; [congruence|].
    exists (e1 ++ e2). split.
    + rewrite Ht2, Ht1, app_assoc. reflexivity.
    + apply Forall_app. split; assumption.
Qed.

Lemma same_tracks_i2c_rdwr (ev : effect) : preserves same_tracks (i2c_rdwr ev).
Proof.
  intros s. unfold i2c_rdwr. destruct (bus s (txn s)); split; reflexivity.
Qed.

Lemma same_tracks_emit (ev : effect) : preserves same_tracks (emit ev).
Proof. intros s. split; reflexivity. Qed.

Lemma same_tracks_readI2C (register : list Z) :
  preserves same_tracks (readI2C register).
Proof.
  unfold readI2C. case_decide.
  - apply preserves_raise; apply _.
  - apply preserves_bind; [apply _|apply same_tracks_i2c_rdwr|intros _].
    apply preserves_bind; [apply _|apply same_tracks_i2c_rdwr|intros b].
    apply preserves_ret; apply _.
Qed.

Lemma same_tracks_writeI2C (register data : list Z) :
  preserves same_tracks (writeI2C register data).
Proof.
  unfold writeI2C.
  apply preserves_bind; [apply _|apply same_tracks_i2c_rdwr|intros _].
  apply preserves_ret; apply _.
Qed.

Lemma same_tracks_readValues (registers : list (list Z)) :
  preserves same_tracks (readValues registers).
Proof.
  induction registers as [|r rs IH]; simpl.
  - apply preserves_ret; apply _.
  - apply preserves_bind; [apply _|apply same_tracks_readI2C|intros v].
    apply preserves_bind; [apply _|exact IH|intros vs].
    apply preserves_ret; apply _.
Qed.

Lemma same_tracks_readI2CMultiByteValue (registers : list (list Z)) :
  preserves same_tracks (readI2CMultiByteValue registers).
Proof.
  unfold readI2CMultiByteValue.
  apply preserves_bind; [apply _|apply same_tracks_readValues|intros vs].
  apply preserves_ret; apply _.
Qed.

Lemma same_tracks_queryPoint (pointID : Z) :
  preserves same_tracks (queryPoint pointID).
Proof.
  unfold queryPoint.
  destruct (negb _); [apply preserves_raise; apply _|].
  destruct (tpRegisterID !! pointID) as [regs|];
    [|apply preserves_raise; apply _].
  apply preserves_bind; [apply _|apply preserves_get; apply _|intros self].
  apply preserves_bind;
    [apply _|apply same_tracks_readI2CMultiByteValue|intros vx].
  apply preserves_bind;
    [apply _|apply same_tracks_readI2CMultiByteValue|intros vy].
  destruct (flipAndSwap self _ _) as [x y].
  apply preserves_bind;
    [apply _|apply same_tracks_readI2CMultiByteValue|intros size].
  apply preserves_bind; [apply _|apply same_tracks_readI2C|intros track].
  apply preserves_ret; apply _.
Qed.

(** ** Hoare rules *)

Lemma hoare_bind {A B} (P : GT911 -> Prop) (m : M A) (Q : A -> GT911 -> Prop)
    (k : A -> M B) (Q' : B -> GT911 -> Prop) (E : exn -> GT911 -> Prop) :
  hoare P m Q E -> (∀ a, hoare (Q a) (k a) Q' E) -> hoare P (m ≫= k) Q' E.
Proof.
  intros Hm Hk s HP. rewrite bind_unfold. specialize (Hm s HP).
  destruct (m s) as [[e|a] s1].
  - exact Hm.
  - apply Hk. exact Hm.
Qed.

Lemma hoare_conseq {A} (P P' : GT911 -> Prop) (m : M A)
    (Q Q' : A -> GT911 -> Prop) (E E' : exn -> GT911 -> Prop) :
  hoare P m Q E ->
  (∀ s, P' s -> P s) -> (∀ a s, Q a s -> Q' a s) -> (∀ e s, E e s -> E' e s) ->
  hoare P' m Q' E'.
Proof.
  intros Hm HP HQ HE s HP'. specialize (Hm s (HP s HP')).
  destruct (m s) as [[e|a] s1]; [apply HE|apply HQ]; exact Hm.
Qed.

(** ** Sizes of the two touch states *)

Lemma within_mono (n k : nat) (p : gmap Z Info * gmap Z Info) :
  (n <= k)%nat -> within n p -> within k p.
Proof. unfold within. intros Hnk [H1 H2]. split; lia. Qed.

Lemma bounded_mono (n k : nat) (s : GT911) :
  (n <= k)%nat -> bounded n s -> bounded k s.
Proof.
  intros Hnk [Hh Hw]. split; [exact Hh|]. eapply within_mono; eassumption.
Qed.

Lemma bounded_same_tracks (n : nat) (s s' : GT911) :
  same_tracks s s' -> bounded n s -> bounded n s'.
Proof.
  intros [Ht _] Hb. unfold tracks in Ht. inversion Ht as [[Hc Hp Hh]].
  unfold bounded. rewrite Hc, Hp, Hh. exact Hb.
Qed.

(** A computation that leaves the touch states alone keeps any bound. *)
Lemma hoare_same_tracks {A} (m : M A) (n : nat) :
  preserves same_tracks m ->
  (n <= 10)%nat ->
  hoare (bounded n) m (fun _ => bounded n) (fun _ => bounded 10).
Proof.
  intros Hm Hn s Hb. specialize (Hm s).
  destruct (m s) as [[e|a] s1]; simpl in Hm.
  - apply (bounded_mono n); [exact Hn|].
    eapply bounded_same_tracks; eassumption.
  - eapply bounded_same_tracks; eassumption.
Qed.

Lemma set_touchInfo_bounded (m : gmap Z Info) (n k : nat) (s : GT911) :
  bounded n s -> (size m <= k)%nat -> (k <= 10)%nat ->
  bounded k (set_touchInfo m s).2 ∧ touchInfo (set_touchInfo m s).2 = m.
Proof.
  intros [Hh [_ Hp]] Hm Hk. simpl in Hp. split; [|reflexivity].
  unfold bounded, within; simpl. split; [|split; assumption].
  apply Forall_app. split; [exact Hh|].
  constructor; [|constructor]. split; simpl; lia.
Qed.

Lemma queryPoint_inr (pointID : Z) (s s' : GT911) (r : Z * Z * Z * Z) :
  queryPoint pointID s = (inr r, s') -> 0 <= pointID <= 4.
Proof.
  unfold queryPoint.
  destruct ((0 <=? pointID) && (pointID <=? 4)) eqn:Hrange; simpl.
  - intros _. apply andb_true_iff in Hrange. lia.
  - discriminate.
Qed.

Lemma queryPoint_bounded (pointID : Z) (n : nat) :
  (n <= 10)%nat ->
  hoare (bounded n) (queryPoint pointID)
    (fun _ s => bounded n s ∧ 0 <= pointID <= 4)
    (fun _ => bounded 10).
Proof.
  intros Hn s Hb.
  pose proof (hoare_same_tracks (queryPoint pointID) n
                (same_tracks_queryPoint pointID) Hn s Hb) as H.
  destruct (queryPoint pointID s) as [[e|r] s1] eqn:Hq.
  - exact H.
  - split; [exact H|]. eapply queryPoint_inr. exact Hq.
Qed.

(** The query loop over points [j, j+1, ..]: each point that is read adds at
    most one entry, and only points 0..4 can be read. *)
Lemma queryTracks_bounded (m : nat) :
  ∀ (j : nat) (acc : list Z),
    hoare (fun s => bounded (5 + j) s ∧ length acc = j ∧ (j <= 5)%nat)
      (queryTracks (seqZ (Z.of_nat j) (Z.of_nat m)) acc)
      (fun tracksThisRound s =>
         bounded 10 s ∧ length tracksThisRound = (j + m)%nat
         ∧ (j + m <= 5)%nat)
      (fun _ => bounded 10).
Proof.
  induction m as [|m IH]; intros j acc s (Hb & Hacc & Hj).
  - simpl. split; [|lia]. apply (bounded_mono (5 + j)); [lia|exact Hb].
  - rewrite seqZ_cons by lia. cbn [queryTracks]. rewrite bind_unfold.
    pose proof (queryPoint_bounded (Z.of_nat j) (5 + j) ltac:(lia) s Hb) as Hq.
    destruct (queryPoint (Z.of_nat j) s) as [[e|[[[x y] sz] tr]] s1].
    + exact Hq.
    + destruct Hq as [Hb1 Hrange].
      rewrite bind_unfold. cbn [get].
      rewrite bind_unfold.
      destruct (set_touchInfo_bounded
                  (<[tr := mkInfo x y sz tr]> (touchInfo s1))
                  (5 + j) (5 + S j) s1 Hb1) as [Hb2 _].
      { rewrite map_size_insert. destruct Hb1 as [_ [Hc _]]. simpl in Hc.
        destruct (touchInfo s1 !! tr); simpl; lia. }
      { lia. }
      destruct (set_touchInfo _ s1) as [[e2|[]] s2] eqn:Hset;
        [discriminate|].
      simpl in Hb2.
      replace (Z.succ (Z.of_nat j)) with (Z.of_nat (S j)) by lia.
      replace (Z.pred (Z.of_nat (S m))) with (Z.of_nat m) by lia.
      specialize (IH (S j) (acc ++ [tr]) s2).
      destruct (queryTracks _ (acc ++ [tr]) s2) as [[e3|ts] s3].
      * apply IH. split; [exact Hb2|]. rewrite length_app. simpl. lia.
      * destruct IH as (H1 & H2 & H3).
        { split; [exact Hb2|]. rewrite length_app. simpl. lia. }
        split; [exact H1|]. lia.
Qed.

Lemma size_list_to_set_le (l : list Z) :
  (size (list_to_set l : gset Z) <= length l)%nat.
Proof.
  induction l as [|x l IH].
  - rewrite list_to_set_nil, size_empty. simpl. lia.
  - rewrite list_to_set_cons, size_union_alt, size_singleton. simpl.
    assert (size (list_to_set l ∖ {[x]} : gset Z)
            <= size (list_to_set l : gset Z))%nat as Hle.
    { apply subseteq_size. intros k Hk. apply elem_of_difference in Hk.
      tauto. }
    lia.
Qed.

(** The deletion loop: sizes only go down, and every key of the list is gone
    at the end. *)
Lemma delete_loop_bounded (l : list Z) :
  ∀ (D : gset Z),
    hoare (fun s => bounded 10 s ∧ dom (touchInfo s) ⊆ D)
      (for_each l
         (fun k => self ← get; set_touchInfo (delete k (touchInfo self))))
      (fun _ s => bounded 10 s ∧ dom (touchInfo s) ⊆ D ∖ list_to_set l)
      (fun _ => bounded 10).
Proof.
  induction l as [|k l IH]; intros D s [Hb Hdom].
  - simpl. split; [exact Hb|].
    intros x Hx. apply elem_of_difference. split; [apply Hdom; exact Hx|].
    apply not_elem_of_empty.
  - cbn [for_each]. rewrite bind_unfold. rewrite bind_unfold. cbn [get].
    destruct (set_touchInfo_bounded (delete k (touchInfo s)) 10 10 s Hb)
      as [Hb1 Hcur].
    { rewrite map_size_delete. destruct Hb as [_ [Hc _]]. simpl in Hc.
      destruct (touchInfo s !! k); simpl; lia. }
    { lia. }
    destruct (set_touchInfo _ s) as [[e|[]] s1] eqn:Hset; [discriminate|].
    simpl in Hb1, Hcur.
    specialize (IH (D ∖ {[k]}) s1).
    destruct (for_each l _ s1) as [[e|[]] s2].
    + apply IH. split; [exact Hb1|].
      rewrite Hcur, dom_delete_L. intros x Hx.
      apply elem_of_difference in Hx as [Hx Hk].
      apply elem_of_difference. split; [apply Hdom; exact Hx|exact Hk].
    + destruct IH as [Hb2 Hdom2].
      { split; [exact Hb1|].
        rewrite Hcur, dom_delete_L. intros x Hx.
        apply elem_of_difference in Hx as [Hx Hk].
        apply elem_of_difference. split; [apply Hdom; exact Hx|exact Hk]. }
      split; [exact Hb2|].
      intros x Hx. apply Hdom2 in Hx.
      apply elem_of_difference in Hx as [Hx Hl].
      apply elem_of_difference in Hx as [Hx Hk].
      apply elem_of_difference. split; [exact Hx|].
      rewrite list_to_set_cons, elem_of_union. tauto.
Qed.

(** After the pruning only tracks of this round are left. *)
Lemma removeMissingTracks_bounded (tracksThisRound : list Z) :
  (length tracksThisRound <= 5)%nat ->
  hoare (bounded 10) (removeMissingTracks tracksThisRound)
    (fun _ => bounded 5) (fun _ => bounded 10).
Proof.
  intros Hlen s Hb. unfold removeMissingTracks.
  rewrite bind_unfold. cbn [get].
  pose proof (delete_loop_bounded
                (filter (fun k => k ∉ tracksThisRound)
                   (elements (dom (touchInfo s))))
                (dom (touchInfo s)) s) as Hloop.
  destruct (for_each _ _ s) as [[e|[]] s1].
  - apply Hloop. split; [exact Hb|reflexivity].
  - destruct Hloop as [[Hh [_ Hp]] Hdom]; [split; [exact Hb|reflexivity]|].
    split; [exact Hh|]. split; [|exact Hp]. simpl.
    rewrite <- size_dom.
    etransitivity; [|exact Hlen].
    etransitivity; [|apply size_list_to_set_le].
    apply subseteq_size. intros k Hk. apply Hdom in Hk.
    apply elem_of_difference in Hk as [Hk Hnot].
    apply elem_of_list_to_set.
    destruct (decide (k ∈ tracksThisRound)) as [Hin|Hout]; [exact Hin|].
    exfalso. apply Hnot. apply elem_of_list_to_set, list_elem_of_filter.
    split; [exact Hout|]. apply elem_of_elements. exact Hk.
Qed.

Lemma eventCallback_bounded :
  hoare (bounded 5) eventCallback (fun _ => bounded 5) (fun _ => bounded 10).
Proof.
  intros s [Hh [Hc Hp]]. simpl in Hc, Hp.
  destruct (eventCallback_run s) as (s' & Hrun & Hprev & Hcur & _ & Hhist & _).
  rewrite Hrun. unfold bounded, within. rewrite Hhist, Hprev, Hcur. simpl.
  split; [|lia].
  apply Forall_app. split; [exact Hh|].
  constructor; [|constructor]. split; simpl; lia.
Qed.

Lemma range_seqZ (n : Z) :
  range n = seqZ (Z.of_nat 0) (Z.of_nat (Z.to_nat n)).
Proof.
  unfold range. destruct (decide (0 <= n)).
  - rewrite Z2Nat.id by lia. reflexivity.
  - rewrite seqZ_nil by lia. replace (Z.to_nat n) with 0%nat by lia.
    reflexivity.
Qed.

(** The two branches of a cycle that found the buffer ready, up to and
    including the callback. *)
Lemma cycle_bounded (st : Status) :
  hoare (bounded 5) (cycle st) (fun _ => bounded 5) (fun _ => bounded 10).
Proof.
  unfold cycle. destruct (1 <=? touchPoints st).
  - eapply hoare_bind.
    + rewrite range_seqZ.
      eapply hoare_conseq;
        [apply (queryTracks_bounded (Z.to_nat (touchPoints st)) 0 [])| | |].
      * intros s Hb. split; [exact Hb|]. split; [reflexivity|lia].
      * intros a s H. exact H.
      * intros e s H. exact H.
    + intros ts. simpl.
      intros s (Hb & Hlen & Hle).
      assert (length ts <= 5)%nat as Hts by lia.
      pose proof (removeMissingTracks_bounded ts Hts s Hb) as Hrm.
      rewrite bind_unfold.
      destruct (removeMissingTracks ts s) as [[e|[]] s1]; [exact Hrm|].
      apply eventCallback_bounded. exact Hrm.
  - intros s Hb. rewrite bind_unfold.
    destruct (set_touchInfo_bounded ∅ 5 5 s Hb) as [Hb1 _].
    { rewrite map_size_empty. lia. }
    { lia. }
    destruct (set_touchInfo ∅ s) as [[e|[]] s1] eqn:Hset; [discriminate|].
    apply eventCallback_bounded. exact Hb1.
Qed.

Lemma readLoop_iteration_bounded :
  hoare (bounded 5) readLoop_iteration
    (fun _ => bounded 5) (fun _ => bounded 10).
Proof.
  unfold readLoop_iteration.
  eapply hoare_bind.
  { apply hoare_same_tracks; [apply same_tracks_readI2C|lia]. }
  intros statusByte. cbv zeta.
  eapply hoare_bind with (Q := fun _ => bounded 5).
  - destruct (bufferStatus (parseStatus statusByte)).
    + eapply hoare_bind; [apply (cycle_bounded (parseStatus statusByte))|].
      intros ?. apply hoare_same_tracks; [apply same_tracks_writeI2C|lia].
    + intros s Hb. exact Hb.
  - intros ?. apply hoare_same_tracks; [apply same_tracks_emit|lia].
Qed.

Lemma readLoop_bounded (fuel : nat) :
  hoare (bounded 5) (readLoop fuel)
    (fun _ => bounded 5) (fun _ => bounded 10).
Proof.
  induction fuel as [|fuel IH]; simpl.
  - intros s Hb. exact Hb.
  - eapply hoare_bind; [apply readLoop_iteration_bounded|].
    intros ?. exact IH.
Qed.

Lemma same_tracks_queryTouchBoundary : preserves same_tracks queryTouchBoundary.
Proof.
  unfold queryTouchBoundary.
  apply preserves_bind; [apply _|apply preserves_get; apply _|intros self].
  apply preserves_bind;
    [apply _|apply same_tracks_readI2CMultiByteValue|intros vx].
  apply preserves_bind;
    [apply _|apply same_tracks_readI2CMultiByteValue|intros vy].
  destruct (swapXY self); apply preserves_ret; apply _.
Qed.

Lemma same_tracks_queryCoordinateResolution :
  preserves same_tracks queryCoordinateResolution.
Proof.
  unfold queryCoordinateResolution.
  apply preserves_bind; [apply _|apply preserves_get; apply _|intros self].
  apply preserves_bind;
    [apply _|apply same_tracks_readI2CMultiByteValue|intros vx].
  apply preserves_bind;
    [apply _|apply same_tracks_readI2CMultiByteValue|intros vy].
  destruct (swapXY self); apply preserves_ret; apply _.
Qed.

Lemma init_bounded :
  hoare (bounded 0) init (fun _ => bounded 5) (fun _ => bounded 10).
Proof.
  unfold init.
  eapply hoare_bind;
    [apply hoare_same_tracks; [apply same_tracks_queryTouchBoundary|lia]|].
  intros tb.
  eapply hoare_bind with (Q := fun _ => bounded 0).
  { intros s Hb. exact Hb. }
  intros ?.
  eapply hoare_bind;
    [apply hoare_same_tracks; [apply same_tracks_queryCoordinateResolution|lia]|].
  intros cr.
  eapply hoare_bind with (Q := fun _ => bounded 0).
  { intros s Hb. exact Hb. }
  intros ? s Hb.
  rewrite bind_unfold.
  destruct (set_touchInfo_bounded ∅ 0 0 s Hb) as [[Hh [Hc Hp]] Hcur].
  { rewrite map_size_empty. lia. }
  { lia. }
  destruct (set_touchInfo ∅ s) as [[e|[]] s1] eqn:Hset; [discriminate|].
  simpl in *. unfold bounded, within. simpl.
  rewrite map_size_empty. split; [|split; lia].
  apply Forall_app. split; [exact Hh|].
  constructor; [|constructor]. split; simpl; [lia|].
  rewrite map_size_empty. lia.
Qed.

Lemma blank_bounded (fx fy sw : bool) (scaling : Z) (b : nat -> option Z) :
  bounded 0 (blank fx fy sw scaling b).
Proof.
  unfold bounded, within, blank. simpl. rewrite map_size_empty.
  split; [constructor|lia].
Qed.

(** C3, as the code has it: at every point of every run the previous state
    holds at most 5 entries and the current state at most 10; whenever an
    iteration of the loop has run to its end the current state holds at most
    5 as well. *)
Theorem touch_states_bounded (fx fy sw : bool) (scaling : Z)
    (b : nat -> option Z) (fuel : nat) :
  let r := run fx fy sw scaling b fuel in
  Forall (fun p => (size p.1 <= 10)%nat ∧ (size p.2 <= 5)%nat) (history r.2)
  ∧ (size (previousTouchInfo r.2) <= 5)%nat
  ∧ (size (touchInfo r.2) <= 10)%nat
  ∧ match r.1 with
    | inr _ => (size (touchInfo r.2) <= 5)%nat
    | inl _ => True
    end.
Proof.
  intros r.
  assert (hoare (bounded 0) (init;; readLoop fuel)
            (fun _ => bounded 5) (fun _ => bounded 10)) as H.
  { eapply hoare_bind; [apply init_bounded|].
    intros ?. apply readLoop_bounded. }
  specialize (H (blank fx fy sw scaling b) (blank_bounded fx fy sw scaling b)).
  fold (run fx fy sw scaling b fuel) in H. fold r in H.
  destruct r as [[e|[]] s]; simpl; destruct H as [Hh [Hc Hp]];
    simpl in Hc, Hp; (split; [exact Hh|]); split; try lia.
Qed.

(** C3 as stated fails: after a cycle with five contacts (tracks 0..4), a
    cycle with one contact whose track ID is 5 stores the new entry before
    the stale ones are pruned, so the current state holds six entries at
    that point. *)
Lemma current_state_exceeds_five :
  let r := run false false false 1 five_then_one 2 in
  r.1 = inr tt
  ∧ (fun p => (size p.1, size p.2)) <$> history r.2
    = [(0, 0); (0, 0); (1, 0); (2, 0); (3, 0); (4, 0); (5, 0); (5, 5);
       (6, 5); (5, 5); (4, 5); (3, 5); (2, 5); (1, 5); (1, 1)]%nat
  ∧ ¬ Forall (fun p => (size p.1 <= 5)%nat ∧ (size p.2 <= 5)%nat)
        (history r.2).
Proof.
  intros r.
  assert ((fun p => (size p.1, size p.2)) <$> history r.2
          = [(0, 0); (0, 0); (1, 0); (2, 0); (3, 0); (4, 0); (5, 0); (5, 5);
             (6, 5); (5, 5); (4, 5); (3, 5); (2, 5); (1, 5); (1, 1)]%nat)
    as Hsizes by (vm_compute; reflexivity).
  split; [vm_compute; reflexivity|].
  split; [exact Hsizes|].
  intros Hall.
  assert (Forall (fun q : nat * nat => (q.1 <= 5)%nat)
            ((fun p => (size p.1, size p.2)) <$> history r.2)) as Hall'.
  { apply Forall_fmap. eapply Forall_impl; [exact Hall|].
    intros p [Hc _]. exact Hc. }
  rewrite Hsizes in Hall'.
  rewrite Forall_lookup in Hall'.
  specialize (Hall' 8%nat (6, 5)%nat eq_refl). simpl in Hall'. lia.
Qed.

(** The bound of ten on the current state is reached: five new track IDs
    after five other ones. *)
Example current_state_reaches_ten :
  let r := run false false false 1 five_then_five 2 in
  r.1 = inr tt
  ∧ (fun p => (size p.1, size p.2)) <$> history r.2
    = [(0, 0); (0, 0); (1, 0); (2, 0); (3, 0); (4, 0); (5, 0); (5, 5);
       (6, 5); (7, 5); (8, 5); (9, 5); (10, 5); (9, 5); (8, 5); (7, 5);
       (6, 5); (5, 5); (5, 5)]%nat.
Proof. intros r. split; vm_compute; reflexivity. Qed.

(** ** What a failed cycle leaves behind *)

Lemma reads_only_i2c_rdwr (ev : effect) :
  is_query ev = true -> preserves reads_only (i2c_rdwr ev).
Proof.
  intros Hq s. unfold i2c_rdwr.
  destruct (bus s (txn s)); simpl;
    (split; [reflexivity|]); (split; [reflexivity|]);
    exists [ev]; (split; [reflexivity|]); constructor; auto.
Qed.

Lemma reads_only_set_touchInfo (m : gmap Z Info) :
  preserves reads_only (set_touchInfo m).
Proof.
  intros s. simpl. split; [reflexivity|]. split; [reflexivity|].
  exists []. rewrite app_nil_r. split; [reflexivity|constructor].
Qed.

Lemma reads_only_readI2C (register : list Z) :
  is_query (I2cWrite register) = true ->
  preserves reads_only (readI2C register).
Proof.
  intros Hq. unfold readI2C. case_decide.
  - apply preserves_raise; apply _.
  - apply preserves_bind; [apply _|apply reads_only_i2c_rdwr; exact Hq|].
    intros ?.
    apply preserves_bind;
      [apply _|apply reads_only_i2c_rdwr; reflexivity|intros b].
    apply preserves_ret; apply _.
Qed.

Lemma reads_only_readI2CMultiByteValue (registers : list (list Z)) :
  Forall (fun register => is_query (I2cWrite register) = true) registers ->
  preserves reads_only (readI2CMultiByteValue registers).
Proof.
  intros Hq. unfold readI2CMultiByteValue.
  apply preserves_bind; [apply _| |intros vs; apply preserves_ret; apply _].
  induction Hq as [|r rs Hr Hrs IH]; simpl.
  - apply preserves_ret; apply _.
  - apply preserves_bind; [apply _|apply reads_only_readI2C; exact Hr|].
    intros v.
    apply preserves_bind; [apply _|exact IH|intros vs].
    apply preserves_ret; apply _.
Qed.

(** Every register of the table is a two-byte address. *)
Lemma tpRegisterID_wf (pointID : Z) (regs : PointRegisters) :
  tpRegisterID !! pointID = Some regs ->
  is_query (I2cWrite (reg_track regs)) = true
  ∧ Forall (fun register => is_query (I2cWrite register) = true) (reg_x regs)
  ∧ Forall (fun register => is_query (I2cWrite register) = true) (reg_y regs)
  ∧ Forall (fun register => is_query (I2cWrite register) = true)
      (reg_size regs).
Proof.
  intros Hlook. unfold tpRegisterID in Hlook.
  apply elem_of_list_to_map_2 in Hlook.
  repeat (apply elem_of_cons in Hlook as [Hlook|Hlook];
          [inversion Hlook; subst; simpl; repeat constructor|]).
  inversion Hlook.
Qed.

Lemma reads_only_queryPoint (pointID : Z) :
  preserves reads_only (queryPoint pointID).
Proof.
  unfold queryPoint.
  destruct (negb _); [apply preserves_raise; apply _|].
  destruct (tpRegisterID !! pointID) as [regs|] eqn:Hlook;
    [|apply preserves_raise; apply _].
  destruct (tpRegisterID_wf pointID regs Hlook) as (Ht & Hx & Hy & Hs).
  apply preserves_bind; [apply _|apply preserves_get; apply _|intros self].
  apply preserves_bind;
    [apply _|apply reads_only_readI2CMultiByteValue; exact Hx|intros vx].
  apply preserves_bind;
    [apply _|apply reads_only_readI2CMultiByteValue; exact Hy|intros vy].
  destruct (flipAndSwap self _ _) as [x y].
  apply preserves_bind;
    [apply _|apply reads_only_readI2CMultiByteValue; exact Hs|intros size].
  apply preserves_bind; [apply _|apply reads_only_readI2C; exact Ht|].
  intros track. apply preserves_ret; apply _.
Qed.

Lemma reads_only_queryTracks (ids : list Z) :
  ∀ acc, preserves reads_only (queryTracks ids acc).
Proof.
  induction ids as [|i ids IH]; intros acc; simpl.
  - apply preserves_ret; apply _.
  - apply preserves_bind; [apply _|apply reads_only_queryPoint|].
    intros [[[x y] size] track].
    apply preserves_bind; [apply _|apply preserves_get; apply _|intros self].
    apply preserves_bind; [apply _|apply reads_only_set_touchInfo|intros ?].
    apply IH.
Qed.

Lemma reads_only_removeMissingTracks (tracksThisRound : list Z) :
  preserves reads_only (removeMissingTracks tracksThisRound).
Proof.
  unfold removeMissingTracks.
  apply preserves_bind; [apply _|apply preserves_get; apply _|intros self].
  apply preserves_for_each; [apply _|]. intros k.
  apply preserves_bind; [apply _|apply preserves_get; apply _|intros self'].
  apply reads_only_set_touchInfo.
Qed.

Lemma stops_bind {A B} (m : M A) (k : A -> M B) :
  stops_at_failure m -> (∀ a, stops_at_failure (k a)) ->
  stops_at_failure (m ≫= k).
Proof.
  intros Hm Hk. eapply hoare_bind; [exact Hm|].
  intros a s _. apply Hk. exact I.
Qed.

Lemma stops_total {A} (m : M A) :
  (∀ s, ∃ a s', m s = (inr a, s')) -> stops_at_failure m.
Proof. intros Hm s _. destruct (Hm s) as (a & s' & ->). exact I. Qed.

Lemma stops_raise {A} (e : exn) :
  e ≠ OSError -> stops_at_failure (raise e : M A).
Proof. intros Hne s _. simpl. intros He. contradiction. Qed.

Lemma stops_i2c_rdwr (ev : effect) :
  is_i2c ev = true -> stops_at_failure (i2c_rdwr ev).
Proof.
  intros Hev s _. unfold i2c_rdwr.
  destruct (bus s (txn s)) eqn:Hbus; [exact I|].
  intros _. exists (txn s), (trace s), ev. simpl. auto.
Qed.

Lemma stops_readI2C (register : list Z) : stops_at_failure (readI2C register).
Proof.
  unfold readI2C. case_decide; [apply stops_raise; discriminate|].
  apply stops_bind; [apply stops_i2c_rdwr; reflexivity|intros ?].
  apply stops_bind; [apply stops_i2c_rdwr; reflexivity|intros b].
  apply stops_total. intros s. eexists _, _. reflexivity.
Qed.

Lemma stops_readI2CMultiByteValue (registers : list (list Z)) :
  stops_at_failure (readI2CMultiByteValue registers).
Proof.
  unfold readI2CMultiByteValue.
  apply stops_bind;
    [|intros vs; apply stops_total; intros s; eexists _, _; reflexivity].
  induction registers as [|r rs IH]; simpl.
  - apply stops_total. intros s; eexists _, _; reflexivity.
  - apply stops_bind; [apply stops_readI2C|intros v].
    apply stops_bind; [exact IH|intros vs].
    apply stops_total. intros s; eexists _, _; reflexivity.
Qed.

Lemma stops_queryPoint (pointID : Z) : stops_at_failure (queryPoint pointID).
Proof.
  unfold queryPoint.
  destruct (negb _); [apply stops_raise; discriminate|].
  destruct (tpRegisterID !! pointID) as [regs|];
    [|apply stops_raise; discriminate].
  apply stops_bind;
    [apply stops_total; intros s; eexists _, _; reflexivity|intros self].
  apply stops_bind; [apply stops_readI2CMultiByteValue|intros vx].
  apply stops_bind; [apply stops_readI2CMultiByteValue|intros vy].
  destruct (flipAndSwap self _ _) as [x y].
  apply stops_bind; [apply stops_readI2CMultiByteValue|intros size].
  apply stops_bind; [apply stops_readI2C|intros track].
  apply stops_total. intros s; eexists _, _; reflexivity.
Qed.

Lemma stops_queryTracks (ids : list Z) :
  ∀ acc, stops_at_failure (queryTracks ids acc).
Proof.
  induction ids as [|i ids IH]; intros acc; simpl.
  - apply stops_total. intros s; eexists _, _; reflexivity.
  - apply stops_bind; [apply stops_queryPoint|].
    intros [[[x y] size] track].
    apply stops_bind;
      [apply stops_total; intros s; eexists _, _; reflexivity|intros self].
    apply stops_bind;
      [apply stops_total; intros s; eexists _, _; reflexivity|intros ?].
    apply IH.
Qed.

Lemma reads_only_since (s s' : GT911) :
  reads_only s s' -> Forall (fun ev => is_query ev = true) (since s s').
Proof.
  intros (_ & _ & evs & Htr & Hq). unfold since.
  rewrite Htr, drop_app_length. exact Hq.
Qed.

Lemma Forall_query_not_in (evs : list effect) (ev : effect) :
  Forall (fun ev => is_query ev = true) evs -> is_query ev = false -> ev ∉ evs.
Proof.
  intros Hall Hev Hin. rewrite Forall_forall in Hall.
  specialize (Hall ev Hin). congruence.
Qed.

(** ** The buffer clear *)

#[local] Instance grows_preorder : PreOrder grows.
Proof.
  split.
  - intros s. exists []. rewrite app_nil_r. reflexivity.
  - intros s1 s2 s3 [e1 H1] [e2 H2]. exists (e1 ++ e2).
    rewrite H2, H1, app_assoc. reflexivity.
Qed.

Lemma preserves_weaken {A} (R R' : GT911 -> GT911 -> Prop) (m : M A) :
  (∀ s s', R s s' -> R' s s') -> preserves R m -> preserves R' m.
Proof. intros HR Hm s. apply HR, Hm. Qed.

Lemma reads_only_grows (s s' : GT911) : reads_only s s' -> grows s s'.
Proof. intros (_ & _ & evs & Htr & _). exists evs. exact Htr. Qed.

Lemma grows_eventCallback : preserves grows eventCallback.
Proof.
  intros s. destruct (eventCallback_run s) as (s' & Hrun & _ & _ & Htr & _).
  rewrite Hrun. simpl. eexists. exact Htr.
Qed.

Lemma grows_cycle (st : Status) : preserves grows (cycle st).
Proof.
  unfold cycle. destruct (1 <=? touchPoints st).
  - apply preserves_bind; [apply _| |intros ts].
    { eapply preserves_weaken;
        [apply reads_only_grows|apply reads_only_queryTracks]. }
    apply preserves_bind; [apply _| |intros ?; apply grows_eventCallback].
    eapply preserves_weaken;
      [apply reads_only_grows|apply reads_only_removeMissingTracks].
  - apply preserves_bind; [apply _| |intros ?; apply grows_eventCallback].
    eapply preserves_weaken;
      [apply reads_only_grows|apply reads_only_set_touchInfo].
Qed.

Lemma readI2C_inr (register : list Z) (s s1 : GT911) (b : Z) :
  readI2C register s = (inr b, s1) ->
  s1 = transact 2 [I2cWrite register; I2cRead 1] s.
Proof.
  unfold readI2C. case_decide; [discriminate|].
  rewrite bind_unfold. unfold i2c_rdwr at 1.
  destruct (bus s (txn s)) as [a|]; [|discriminate].
  rewrite bind_unfold. unfold i2c_rdwr. simpl.
  destruct (bus s (S (txn s))) as [b'|]; [|discriminate].
  simpl. intros Heq. inversion Heq; subst. unfold transact.
  rewrite <- app_assoc. simpl.
  replace (txn s + 2)%nat with (S (S (txn s))) by lia. reflexivity.
Qed.

Lemma writeI2C_run (register data : list Z) (s : GT911) :
  ∃ r, writeI2C register data s
       = (r, transact 1 [I2cWrite (register ++ data)] s).
Proof.
  unfold writeI2C. rewrite bind_unfold. unfold i2c_rdwr, transact.
  rewrite Nat.add_1_r.
  destruct (bus s (txn s)); eexists; reflexivity.
Qed.

Lemma readLoop_iteration_unfold (s s1 : GT911) (statusByte : Z) :
  readI2C [0x81; 0x4E] s = (inr statusByte, s1) ->
  readLoop_iteration s =
  ((if bufferStatus (parseStatus statusByte)
    then cycle (parseStatus statusByte);; writeI2C [0x81; 0x4E] [0]
    else mret tt);; emit Sleep) s1.
Proof.
  intros Hread. unfold readLoop_iteration.
  rewrite (bind_inr _ _ _ _ _ Hread). reflexivity.
Qed.

Lemma cycle_no_contacts (st : Status) (s : GT911) :
  touchPoints st = 0 -> ∃ s', cycle st s = (inr tt, s').
Proof.
  intros Htp. unfold cycle. rewrite Htp. simpl.
  rewrite bind_unfold. simpl.
  destruct (eventCallback_run (set_touchInfo ∅ s).2) as (s' & Hrun & _).
  exists s'. exact Hrun.
Qed.

Lemma cycle_query_fails (st : Status) (s s2 : GT911) (e : exn) :
  1 <= touchPoints st ->
  queryTracks (range (touchPoints st)) [] s = (inl e, s2) ->
  cycle st s = (inl e, s2).
Proof.
  intros Htp Hq. unfold cycle. apply Z.leb_le in Htp. rewrite Htp.
  rewrite bind_unfold, Hq. reflexivity.
Qed.

Lemma since_app (s s' : GT911) (evs : list effect) :
  trace s' = trace s ++ evs -> since s s' = evs.
Proof. intros H. unfold since. rewrite H. apply drop_app_length. Qed.

(** C5, as the code has it: an iteration that runs to its end clears the
    buffer exactly when the status byte had bit 7 set; with bit 7 clear no
    clear is ever issued; with bit 7 set and a contact count of zero the
    clear is always issued; with bit 7 set and an exception raised while the
    contacts are read, the iteration ends there without a clear. *)
Theorem clear_iff_ready_and_completed (s s1 : GT911) (statusByte : Z) :
  readI2C [0x81; 0x4E] s = (inr statusByte, s1) ->
  let st := parseStatus statusByte in
  let r := readLoop_iteration s in
  (bufferStatus st = false ->
     r.1 = inr tt
     ∧ since s r.2 = [I2cWrite [0x81; 0x4E]; I2cRead 1; Sleep]
     ∧ (clearBuffer ∉ since s r.2))
  ∧ (r.1 = inr tt -> (clearBuffer ∈ since s r.2 ↔ bufferStatus st = true))
  ∧ (bufferStatus st = true -> touchPoints st = 0 ->
       clearBuffer ∈ since s r.2)
  ∧ (bufferStatus st = true -> 1 <= touchPoints st ->
     ∀ e s2,
       queryTracks (range (touchPoints st)) [] s1 = (inl e, s2) ->
       r = (inl e, s2) ∧ (clearBuffer ∉ since s s2)).
Proof.
  intros Hread st r.
  pose proof (readLoop_iteration_unfold s s1 statusByte Hread) as Hit.
  fold st in Hit. fold r in Hit.
  pose proof (readI2C_inr _ _ _ _ Hread) as Hs1.
  assert (since s (log [Sleep] s1) = [I2cWrite [0x81; 0x4E]; I2cRead 1; Sleep])
    as Hquiet.
  { apply since_app. rewrite Hs1. simpl. rewrite <- app_assoc. reflexivity. }
  assert (clearBuffer ∉ [I2cWrite [0x81; 0x4E]; I2cRead 1; Sleep]) as Hnot.
  { intros Hin.
    repeat (apply elem_of_cons in Hin as [Hin|Hin]; [discriminate|]).
    inversion Hin. }
  destruct (bufferStatus st) eqn:Hbuf.
  - (* buffer ready *)
    rewrite bind_unfold, bind_unfold in Hit.
    pose proof (grows_cycle st s1) as [evs Hevs].
    destruct (cycle st s1) as [[e|[]] s2] eqn:Hcycle; simpl in Hevs.
    + (* the cycle raised *)
      rewrite Hit. cbn [fst snd].
      split; [discriminate|]. split; [discriminate|].
      split.
      { intros _ Htp. destruct (cycle_no_contacts st s1 Htp) as [s' Hs'].
        congruence. }
      intros _ Htp e' s2' Hq.
      pose proof (cycle_query_fails st s1 s2' e' Htp Hq) as Hc.
      rewrite Hcycle in Hc. inversion Hc; subst e' s2'.
      split; [reflexivity|].
      apply (Forall_query_not_in _ clearBuffer); [|reflexivity].
      apply reads_only_since. transitivity s1.
      * pose proof (reads_only_readI2C [0x81; 0x4E] eq_refl s) as H.
        rewrite Hread in H. exact H.
      * pose proof (reads_only_queryTracks (range (touchPoints st)) [] s1)
          as H.
        rewrite Hq in H. exact H.
    + (* the cycle returned: the clear is issued *)
      destruct (writeI2C_run [0x81; 0x4E] [0] s2) as [w Hw].
      rewrite Hw in Hit.
      assert (clearBuffer ∈ since s r.2) as Hin.
      { destruct w as [e|[]]; rewrite Hit; cbn [fst snd].
        - rewrite (since_app s _
                     (I2cWrite [0x81; 0x4E] :: I2cRead 1
                      :: evs ++ [clearBuffer])).
          2:{ unfold transact; simpl. rewrite Hevs, Hs1.
              unfold transact; simpl. rewrite <- !app_assoc. reflexivity. }
          right. right. apply elem_of_app. right. left.
        - rewrite (since_app s _
                     (I2cWrite [0x81; 0x4E] :: I2cRead 1
                      :: evs ++ [clearBuffer; Sleep])).
          2:{ unfold transact; simpl. rewrite Hevs, Hs1.
              unfold transact; simpl. rewrite <- !app_assoc. reflexivity. }
          right. right. apply elem_of_app. right. left. }
      split; [discriminate|].
      split; [intros _; split; [reflexivity|intros _; exact Hin]|].
      split; [intros _ _; exact Hin|].
      intros _ Htp e s2' Hq.
      pose proof (cycle_query_fails st s1 s2' e Htp Hq) as Hc.
      congruence.
  - (* buffer not ready *)
    assert (r = (inr tt, log [Sleep] s1)) as Hr by (rewrite Hit; reflexivity).
    rewrite Hr. simpl.
    split.
    { intros _. split; [reflexivity|]. split; [exact Hquiet|].
      rewrite Hquiet. exact Hnot. }
    split.
    { intros _. rewrite Hquiet. split; [intros Hin; contradiction|discriminate]. }
    split; discriminate.
Qed.

Lemma clear_iff_ready_and_completed_witness :
  let s := (init (blank false false false 1
                    (scripted (rdInit 800 480 800 480 ++ rd 0x80)))).2 in
  (readLoop_iteration s).1 = inr tt
  ∧ clearBuffer ∈ since s (readLoop_iteration s).2.
Proof.
  intros s.
  destruct (clear_iff_ready_and_completed s (readI2C [0x81; 0x4E] s).2 0x80)
    as (_ & _ & Hzero & _).
  - vm_compute. reflexivity.
  - split; [vm_compute; reflexivity|].
    apply Hzero; reflexivity.
Defined.

(** C5 as stated fails: with every transaction succeeding, a status byte
    0x86 (buffer ready, contact count six) makes the iteration stop at the
    assertion of the sixth contact query, and no clear is written although
    the buffer-ready bit was set. *)
Lemma ready_with_six_contacts_not_cleared :
  let s := (init (blank false false false 1 six_contacts)).2 in
  let r := readLoop_iteration s in
  (readI2C [0x81; 0x4E] s).1 = inr 0x86
  ∧ bufferStatus (parseStatus 0x86) = true
  ∧ touchPoints (parseStatus 0x86) = 6
  ∧ r.1 = inl AssertionError
  ∧ (clearBuffer ∉ since s r.2)
  ∧ ¬ (clearBuffer ∈ since s r.2 ↔ bufferStatus (parseStatus 0x86) = true).
Proof.
  intros s r.
  assert (clearBuffer ∉ since s r.2) as Hnot.
  { apply Forall_query_not_in; [|reflexivity].
    vm_compute. repeat constructor. }
  split; [vm_compute; reflexivity|].
  split; [reflexivity|]. split; [reflexivity|].
  split; [vm_compute; reflexivity|].
  split; [exact Hnot|].
  intros [_ Hback]. apply Hnot, Hback. reflexivity.
Qed.

(** ** Axis transform *)

(** C2 fails on the code: with swapXY and flipX set on an 800x480 panel, the
    stored resolution is already swapped to (480, 800), so raw x = 700 is
    reflected about 480 (the native Y resolution), giving -220, and not about
    the native X resolution 800, which would give 100; the value sent as
    ABS_MT_POSITION_Y is below the minimum 0 the device declares. *)
Theorem flipX_uses_swapped_resolution :
  let r := (init;; queryPoint 0) (blank true false true 1 point_700_100) in
  coordinateResolution r.2 = (480, 800)
  ∧ r.1 = inr (100, -220, 3, 0)
  ∧ flipAndSwap r.2 700 100 = (100, 480 - 700)
  ∧ 480 - 700 ≠ 800 - 700
  ∧ (ABS_MT_POSITION_Y, mkAbsInfo 0 0 800 0 0 0) ∈ caps r.2
  ∧ ¬ (0 <= -220 <= 800).
Proof.
  intros r.
  split; [vm_compute; reflexivity|].
  split; [vm_compute; reflexivity|].
  split; [vm_compute; reflexivity|].
  split; [lia|].
  split; [|lia].
  assert (coordinateResolution r.2 = (480, 800)) as Hres
    by (vm_compute; reflexivity).
  unfold caps. rewrite Hres. simpl.
  do 3 right. left.
Qed.

(** * Further properties *)

(** ** Register reads *)

Lemma readI2C_cases (register : list Z) (s : GT911) :
  register ≠ [] ->
  match bus s (txn s), bus s (S (txn s)) with
  | None, _ =>
      readI2C register s = (inl OSError, transact 1 [I2cWrite register] s)
  | Some _, None =>
      readI2C register s
      = (inl OSError, transact 2 [I2cWrite register; I2cRead 1] s)
  | Some _, Some b =>
      readI2C register s
      = (inr b, transact 2 [I2cWrite register; I2cRead 1] s)
  end.
Proof.
  intros Hne.
  assert (∀ ev s0, bus s0 (txn s0) = None ->
            i2c_rdwr ev s0 = (inl OSError, transact 1 [ev] s0)) as Hfail.
  { intros ev s0 H0. unfold i2c_rdwr, transact.
    rewrite H0, Nat.add_1_r. reflexivity. }
  destruct (bus s (txn s)) as [a|] eqn:Ha.
  - destruct (bus s (S (txn s))) as [b|] eqn:Hb.
    + apply (readI2C_ok register s a b Hne Ha Hb).
    + unfold readI2C. case_decide; [contradiction|].
      rewrite (bind_inr _ _ _ _ _ (i2c_rdwr_ok _ s a Ha)).
      rewrite bind_unfold, Hfail.
      * rewrite transact_transact. reflexivity.
      * simpl. rewrite Nat.add_1_r. exact Hb.
  - unfold readI2C. case_decide; [contradiction|].
    rewrite bind_unfold, Hfail by exact Ha. reflexivity.
Qed.

(** X1: a one-byte register read is two bus transactions, and the second is
    issued only when the first succeeded: a failed address write raises
    [OSError] after one transaction with no read issued, a failed read raises
    after two, and otherwise the byte read is returned (the answer to the
    address write is ignored). *)
Theorem readI2C_outcomes (register : list Z) (s : GT911) :
  register ≠ [] ->
  match bus s (txn s), bus s (S (txn s)) with
  | None, _ =>
      readI2C register s = (inl OSError, transact 1 [I2cWrite register] s)
  | Some _, None =>
      readI2C register s
      = (inl OSError, transact 2 [I2cWrite register; I2cRead 1] s)
  | Some _, Some b =>
      readI2C register s
      = (inr b, transact 2 [I2cWrite register; I2cRead 1] s)
  end.
Proof.
  intros Hne. pose proof (readI2C_cases register s Hne) as H.
  destruct (bus s (txn s)); [destruct (bus s (S (txn s)))|]; exact H.
Qed.

Lemma readI2C_outcomes_witness :
  let s := blank false false false 1 (scripted [None]) in
  readI2C [0x81; 0x4E] s
  = (inl OSError, transact 1 [I2cWrite [0x81; 0x4E]] s).
Proof.
  intros s.
  exact (readI2C_outcomes [0x81; 0x4E] s ltac:(discriminate)).
Defined.

Lemma readI2C_trace (register : list Z) (s : GT911) :
  ∃ evs,
    trace (readI2C register s).2 = trace s ++ evs
    ∧ evs `prefix_of` [I2cWrite register; I2cRead 1]
    ∧ match (readI2C register s).1 with
      | inr _ => evs = [I2cWrite register; I2cRead 1]
      | inl _ => True
      end.
Proof.
  destruct (decide (register = [])) as [->|Hne].
  - exists []. simpl. rewrite app_nil_r.
    split; [reflexivity|]. split; [apply prefix_nil|exact I].
  - pose proof (readI2C_cases register s Hne) as H.
    destruct (bus s (txn s)) as [a|]; [destruct (bus s (S (txn s))) as [b|]|];
      rewrite H; simpl.
    + exists [I2cWrite register; I2cRead 1]. auto.
    + exists [I2cWrite register; I2cRead 1]. auto.
    + exists [I2cWrite register].
      split; [reflexivity|]. split; [|exact I].
      exists [I2cRead 1]. reflexivity.
Qed.

Lemma readValues_trace (registers : list (list Z)) :
  ∀ s, ∃ evs,
    trace (readValues registers s).2 = trace s ++ evs
    ∧ evs `prefix_of` reads_of registers
    ∧ match (readValues registers s).1 with
      | inr values =>
          evs = reads_of registers ∧ length values = length registers
      | inl _ => True
      end.
Proof.
  induction registers as [|r rs IH]; intros s.
  - exists []. simpl. rewrite app_nil_r. auto.
  - cbn [readValues]. rewrite bind_unfold.
    destruct (readI2C_trace r s) as (e1 & Ht1 & Hp1 & Hr1).
    destruct (readI2C r s) as [[e|v] s1]; simpl in Ht1, Hr1.
    + exists e1. simpl. split; [exact Ht1|]. split; [|exact I].
      destruct Hp1 as [k Hk]. exists (k ++ reads_of rs).
      rewrite (app_assoc e1 k), <- Hk. reflexivity.
    + subst e1. rewrite bind_unfold.
      destruct (IH s1) as (e2 & Ht2 & Hp2 & Hr2).
      destruct (readValues rs s1) as [[e|vs] s2]; simpl in Ht2, Hr2 |- *.
      * exists ([I2cWrite r; I2cRead 1] ++ e2).
        split; [rewrite Ht2, Ht1, <- app_assoc; reflexivity|].
        split; [|exact I].
        apply (prefix_app [I2cWrite r; I2cRead 1]). exact Hp2.
      * destruct Hr2 as [-> Hlen].
        exists ([I2cWrite r; I2cRead 1] ++ reads_of rs).
        split; [rewrite Ht2, Ht1, <- app_assoc; reflexivity|].
        split; [reflexivity|]. split; [reflexivity|]. simpl. lia.
Qed.

(** X2: whatever the bus does, the multi-byte read only issues the reads of
    the registers it was given, in the order given: what it adds to the trace
    is a prefix of the full read sequence, it stops at the first read that
    raises, and it is the whole sequence when a value is returned. *)
Theorem readI2CMultiByteValue_reads_in_order (registers : list (list Z))
    (s : GT911) :
  let r := readI2CMultiByteValue registers s in
  since s r.2 `prefix_of` reads_of registers
  ∧ tracks r.2 = tracks s
  ∧ match r.1 with
    | inr _ => since s r.2 = reads_of registers
    | inl _ => True
    end.
Proof.
  intros r. subst r. unfold readI2CMultiByteValue. rewrite bind_unfold.
  destruct (readValues_trace registers s) as (evs & Htr & Hpre & Hres).
  pose proof (same_tracks_readValues registers s) as [Hsame _].
  destruct (readValues registers s) as [[e|vs] s1]; simpl in *.
  - rewrite (since_app _ _ _ Htr). auto.
  - rewrite (since_app _ _ _ Htr). destruct Hres as [-> _]. auto.
Qed.

Lemma little_endian_range (bytes : list Z) :
  Forall is_byte bytes ->
  0 <= little_endian bytes < 256 ^ Z.of_nat (length bytes).
Proof.
  unfold little_endian, is_byte.
  induction 1 as [|b bs Hb Hbs IH]; [simpl; lia|].
  cbn [foldr length]. rewrite Nat2Z.inj_succ, Z.pow_succ_r by lia.
  set (v := foldr (fun b acc => b + 256 * acc) 0 bs) in *.
  set (p := 256 ^ Z.of_nat (length bs)) in *.
  lia.
Qed.

(** X3: the value combined from [n] bytes lies in [0, 256^n); the empty list
    combines to 0. *)
Theorem combine_range (bytes : list Z) :
  Forall is_byte bytes ->
  0 <= combine bytes < 256 ^ Z.of_nat (length bytes).
Proof.
  intros Hb. rewrite combine_little_endian by exact Hb.
  apply little_endian_range. exact Hb.
Qed.

Lemma combine_range_witness : 0 <= combine [0xFF; 0xFF] < 256 ^ 2.
Proof.
  apply (combine_range [0xFF; 0xFF]).
  repeat constructor; unfold is_byte; lia.
Defined.

Lemma answers_app (s : GT911) (l1 l2 : list Z) (evs : list effect) :
  answers s (l1 ++ l2) ->
  answers s l1 ∧ answers (transact (2 * length l1) evs s) l2.
Proof.
  intros H. split.
  - intros i b Hi. apply H. apply lookup_app_l_Some. exact Hi.
  - intros i b Hi. simpl.
    specialize (H (length l1 + i)%nat b).
    rewrite lookup_app_r in H by lia.
    replace (length l1 + i - length l1)%nat with i in H by lia.
    specialize (H Hi).
    replace (txn s + (length l1 + (length l1 + 0)) + (i + (i + 0)))%nat
      with (txn s + 2 * (length l1 + i))%nat by lia.
    exact H.
Qed.

Lemma readI2CMultiByteValue_ok (registers : list (list Z)) (bytes : list Z)
    (s : GT911) :
  Forall (fun register => register ≠ []) registers ->
  length bytes = length registers ->
  answers s bytes ->
  readI2CMultiByteValue registers s
  = (inr (combine bytes),
     transact (2 * length registers) (reads_of registers) s).
Proof.
  intros Hne Hlen Hans. unfold readI2CMultiByteValue.
  rewrite (bind_inr _ _ _ _ _ (readValues_ok registers bytes s Hne Hlen Hans)).
  reflexivity.
Qed.

Lemma combine_pair (lo hi : Z) :
  is_byte lo -> is_byte hi -> combine [lo; hi] = lo + 256 * hi.
Proof.
  intros Hlo Hhi.
  rewrite combine_little_endian
    by (apply Forall_cons; split;
        [exact Hlo|apply Forall_singleton; exact Hhi]).
  unfold little_endian. simpl. lia.
Qed.

(** A pair of two-byte fields read one after the other. *)
Lemma read_two_fields (r1 r2 r3 r4 : list Z) (s : GT911) (al ah bl bh : Z) :
  r1 ≠ [] -> r2 ≠ [] -> r3 ≠ [] -> r4 ≠ [] ->
  answers s [al; ah; bl; bh] ->
  is_byte al -> is_byte ah -> is_byte bl -> is_byte bh ->
  readI2CMultiByteValue [r1; r2] s
  = (inr (al + 256 * ah), transact 4 (reads_of [r1; r2]) s)
  ∧ readI2CMultiByteValue [r3; r4] (transact 4 (reads_of [r1; r2]) s)
    = (inr (bl + 256 * bh), transact 8 (reads_of [r1; r2; r3; r4]) s).
Proof.
  intros H1 H2 H3 H4 Hans Hal Hah Hbl Hbh.
  destruct (answers_app s [al; ah] [bl; bh] (reads_of [r1; r2]) Hans)
    as [Ha Hb].
  assert (Forall (fun register : list Z => register ≠ []) [r1; r2]) as F12
    by (apply Forall_cons; split; [exact H1|apply Forall_singleton; exact H2]).
  assert (Forall (fun register : list Z => register ≠ []) [r3; r4]) as F34
    by (apply Forall_cons; split; [exact H3|apply Forall_singleton; exact H4]).
  split.
  - rewrite (readI2CMultiByteValue_ok [r1; r2] [al; ah] s F12 eq_refl Ha).
    rewrite combine_pair by assumption. reflexivity.
  - change (2 * length [al; ah])%nat with 4%nat in Hb.
    rewrite (readI2CMultiByteValue_ok [r3; r4] [bl; bh] _ F34 eq_refl Hb).
    rewrite combine_pair by assumption.
    rewrite transact_transact. reflexivity.
Qed.

(** ** Device metadata *)

Lemma queryTouchBoundary_ok (s : GT911) (xl xh yl yh : Z) :
  answers s [xl; xh; yl; yh] ->
  is_byte xl -> is_byte xh -> is_byte yl -> is_byte yh ->
  let xMax := (xl + 256 * xh) * scalingFactor s in
  let yMax := (yl + 256 * yh) * scalingFactor s in
  queryTouchBoundary s
  = (inr (if swapXY s then (yMax, xMax) else (xMax, yMax)),
     transact 8
       (reads_of [[0x80; 0x48]; [0x80; 0x49]; [0x80; 0x4A]; [0x80; 0x4B]]) s).
Proof.
  intros Hans Hxl Hxh Hyl Hyh xMax yMax.
  destruct (read_two_fields [0x80; 0x48] [0x80; 0x49] [0x80; 0x4A] [0x80; 0x4B]
              s xl xh yl yh) as [Hx Hy]; try discriminate; try assumption.
  unfold queryTouchBoundary. rewrite bind_unfold. cbn [get].
  rewrite (bind_inr _ _ _ _ _ Hx), (bind_inr _ _ _ _ _ Hy).
  subst xMax yMax. destruct (swapXY s); reflexivity.
Qed.

(** X4: when the four boundary registers are read, the touch boundary is
    the pair of little-endian 16-bit values, each multiplied by the scaling
    factor, exchanged when swapXY is set; the registers are read in the order
    (0x80,0x48), (0x80,0x49), (0x80,0x4A), (0x80,0x4B). *)
Theorem queryTouchBoundary_scaled (s : GT911) (xl xh yl yh : Z) :
  answers s [xl; xh; yl; yh] ->
  is_byte xl -> is_byte xh -> is_byte yl -> is_byte yh ->
  let xMax := (xl + 256 * xh) * scalingFactor s in
  let yMax := (yl + 256 * yh) * scalingFactor s in
  queryTouchBoundary s
  = (inr (if swapXY s then (yMax, xMax) else (xMax, yMax)),
     transact 8
       (reads_of [[0x80; 0x48]; [0x80; 0x49]; [0x80; 0x4A]; [0x80; 0x4B]]) s).
Proof.
  intros Hans Hxl Hxh Hyl Hyh xMax yMax. subst xMax yMax.
  apply queryTouchBoundary_ok; assumption.
Qed.

Lemma queryTouchBoundary_scaled_witness :
  let s := blank false false false 2 (scripted (rd16 800 ++ rd16 480)) in
  (queryTouchBoundary s).1 = inr (1600, 960).
Proof.
  intros s.
  rewrite (queryTouchBoundary_scaled s 32 3 224 1).
  - reflexivity.
  - intros i b Hi.
    destruct i as [|[|[|[|i]]]]; simpl in Hi; inversion Hi; subst; simpl;
      split; eauto.
  - unfold is_byte; lia.
  - unfold is_byte; lia.
  - unfold is_byte; lia.
  - unfold is_byte; lia.
Defined.

Lemma queryCoordinateResolution_ok (s : GT911) (xl xh yl yh : Z) :
  answers s [xl; xh; yl; yh] ->
  is_byte xl -> is_byte xh -> is_byte yl -> is_byte yh ->
  let xRes := (xl + 256 * xh) * scalingFactor s in
  let yRes := (yl + 256 * yh) * scalingFactor s in
  queryCoordinateResolution s
  = (inr (if swapXY s then (yRes, xRes) else (xRes, yRes)),
     transact 8
       (reads_of [[0x81; 0x46]; [0x81; 0x47]; [0x81; 0x48]; [0x81; 0x49]]) s).
Proof.
  intros Hans Hxl Hxh Hyl Hyh xRes yRes.
  destruct (read_two_fields [0x81; 0x46] [0x81; 0x47] [0x81; 0x48] [0x81; 0x49]
              s xl xh yl yh) as [Hx Hy]; try discriminate; try assumption.
  unfold queryCoordinateResolution. rewrite bind_unfold. cbn [get].
  rewrite (bind_inr _ _ _ _ _ Hx), (bind_inr _ _ _ _ _ Hy).
  subst xRes yRes. destruct (swapXY s); reflexivity.
Qed.

(** X5: the coordinate resolution is read the same way from (0x81,0x46),
    (0x81,0x47), (0x81,0x48), (0x81,0x49): scaled, and exchanged when swapXY
    is set, so that its first component is the native Y resolution then. *)
Theorem queryCoordinateResolution_scaled (s : GT911) (xl xh yl yh : Z) :
  answers s [xl; xh; yl; yh] ->
  is_byte xl -> is_byte xh -> is_byte yl -> is_byte yh ->
  let xRes := (xl + 256 * xh) * scalingFactor s in
  let yRes := (yl + 256 * yh) * scalingFactor s in
  queryCoordinateResolution s
  = (inr (if swapXY s then (yRes, xRes) else (xRes, yRes)),
     transact 8
       (reads_of [[0x81; 0x46]; [0x81; 0x47]; [0x81; 0x48]; [0x81; 0x49]]) s).
Proof.
  intros Hans Hxl Hxh Hyl Hyh xRes yRes. subst xRes yRes.
  apply queryCoordinateResolution_ok; assumption.
Qed.

Lemma queryCoordinateResolution_scaled_witness :
  let s := blank false false true 1 (scripted (rd16 800 ++ rd16 480)) in
  (queryCoordinateResolution s).1 = inr (480, 800).
Proof.
  intros s.
  rewrite (queryCoordinateResolution_scaled s 32 3 224 1).
  - reflexivity.
  - intros i b Hi.
    destruct i as [|[|[|[|i]]]]; simpl in Hi; inversion Hi; subst; simpl;
      split; eauto.
  - unfold is_byte; lia.
  - unfold is_byte; lia.
  - unfold is_byte; lia.
  - unfold is_byte; lia.
Defined.

(** ** Contact query *)

Lemma queryPoint_with (pointID : Z) (regs : PointRegisters)
    (r1 r2 r3 r4 r5 r6 r7 : list Z) (s : GT911)
    (xl xh yl yh sl sh tr : Z) :
  0 <= pointID <= 4 ->
  tpRegisterID !! pointID = Some regs ->
  reg_x regs = [r1; r2] -> reg_y regs = [r3; r4] ->
  reg_size regs = [r5; r6] -> reg_track regs = r7 ->
  Forall (fun register => register ≠ []) [r1; r2; r3; r4; r5; r6; r7] ->
  answers s [xl; xh; yl; yh; sl; sh; tr] ->
  is_byte xl -> is_byte xh -> is_byte yl -> is_byte yh ->
  is_byte sl -> is_byte sh ->
  queryPoint pointID s
  = (inr ((flipAndSwap s ((xl + 256 * xh) * scalingFactor s)
             ((yl + 256 * yh) * scalingFactor s)).1,
          (flipAndSwap s ((xl + 256 * xh) * scalingFactor s)
             ((yl + 256 * yh) * scalingFactor s)).2,
          sl + 256 * sh, tr),
     transact 14 (reads_of [r1; r2; r3; r4; r5; r6; r7]) s).
Proof.
  intros Hrange Hlook Hx Hy Hs Ht Hne Hans Bxl Bxh Byl Byh Bsl Bsh.
  rewrite !Forall_cons in Hne.
  destruct Hne as (N1 & N2 & N3 & N4 & N5 & N6 & N7 & _).
  destruct (answers_app s [xl; xh; yl; yh] [sl; sh; tr]
              (reads_of [r1; r2; r3; r4]) Hans) as [Hxy Hrest].
  change (2 * length [xl; xh; yl; yh])%nat with 8%nat in Hrest.
  destruct (read_two_fields r1 r2 r3 r4 s xl xh yl yh) as [Rx Ry];
    try assumption.
  set (s8 := transact 8 (reads_of [r1; r2; r3; r4]) s) in *.
  destruct (answers_app s8 [sl; sh] [tr] (reads_of [r5; r6]) Hrest)
    as [Hsz Htr].
  change (2 * length [sl; sh])%nat with 4%nat in Htr.
  assert (readI2CMultiByteValue [r5; r6] s8
          = (inr (sl + 256 * sh), transact 4 (reads_of [r5; r6]) s8)) as Rs.
  { assert (Forall (fun register : list Z => register ≠ []) [r5; r6]) as F56
      by (apply Forall_cons; split;
          [exact N5|apply Forall_singleton; exact N6]).
    rewrite (readI2CMultiByteValue_ok [r5; r6] [sl; sh] s8 F56 eq_refl Hsz).
    rewrite combine_pair by assumption. reflexivity. }
  set (s12 := transact 4 (reads_of [r5; r6]) s8) in *.
  destruct (Htr 0%nat tr eq_refl) as [[a Ha] Hb].
  rewrite Nat.add_0_r in Ha. simpl in Hb.
  rewrite Nat.add_0_r, Nat.add_1_r in Hb.
  pose proof (readI2C_ok r7 s12 a tr N7 Ha Hb) as Rt.
  unfold queryPoint.
  replace ((0 <=? pointID) && (pointID <=? 4)) with true
    by (symmetry; apply andb_true_iff; split; apply Z.leb_le; lia).
  rewrite Hlook. cbv beta iota. rewrite Hx, Hy, Hs, Ht.
  cbn [negb]. rewrite bind_unfold. cbn [get].
  rewrite (bind_inr _ _ _ _ _ Rx), (bind_inr _ _ _ _ _ Ry).
  destruct (flipAndSwap s _ _) as [x y] eqn:Hfs. cbn [fst snd].
  rewrite (bind_inr _ _ _ _ _ Rs), (bind_inr _ _ _ _ _ Rt).
  subst s12 s8. rewrite !transact_transact. reflexivity.
Qed.

(** The hardcoded table follows one stride: the registers of contact [i] are
    those of contact 0 moved up by [8 * i]. *)
Lemma tpRegisterID_stride (i : Z) :
  0 <= i <= 4 ->
  tpRegisterID !! i
  = Some (mkPointRegisters [0x81; 0x4F + 8 * i]
            [[0x81; 0x50 + 8 * i]; [0x81; 0x51 + 8 * i]]
            [[0x81; 0x52 + 8 * i]; [0x81; 0x53 + 8 * i]]
            [[0x81; 0x54 + 8 * i]; [0x81; 0x55 + 8 * i]]).
Proof.
  intros Hi.
  assert (i = 0 ∨ i = 1 ∨ i = 2 ∨ i = 3 ∨ i = 4) as Hc by lia.
  destruct Hc as [->|[->|[->|[->| ->]]]]; vm_compute; reflexivity.
Qed.

Lemma queryPoint_ok (pointID : Z) (s : GT911)
    (xl xh yl yh sl sh tr : Z) :
  0 <= pointID <= 4 ->
  answers s [xl; xh; yl; yh; sl; sh; tr] ->
  is_byte xl -> is_byte xh -> is_byte yl -> is_byte yh ->
  is_byte sl -> is_byte sh ->
  let x := (xl + 256 * xh) * scalingFactor s in
  let y := (yl + 256 * yh) * scalingFactor s in
  queryPoint pointID s
  = (inr ((flipAndSwap s x y).1, (flipAndSwap s x y).2, sl + 256 * sh, tr),
     transact 14 (reads_of (point_registers pointID)) s).
Proof.
  intros Hrange Hans Bxl Bxh Byl Byh Bsl Bsh x y. subst x y.
  unfold point_registers.
  apply (queryPoint_with pointID _ _ _ _ _ _ _ _ s xl xh yl yh sl sh tr
           Hrange (tpRegisterID_stride pointID Hrange)
           eq_refl eq_refl eq_refl eq_refl);
    try assumption.
  repeat (apply Forall_cons; split; [discriminate|]). apply Forall_nil.
  exact I.
Qed.

(** X6: contact [i] (0..4) is read from seven registers at a stride of eight
    per contact, in the order x low, x high, y low, y high, size low, size
    high, track; the coordinates returned are the little-endian 16-bit values
    times the scaling factor, put through the flips and the swap, the size is
    the raw 16-bit value and the track ID the raw byte. *)
Theorem queryPoint_reads_slot (pointID : Z) (s : GT911)
    (xl xh yl yh sl sh tr : Z) :
  0 <= pointID <= 4 ->
  answers s [xl; xh; yl; yh; sl; sh; tr] ->
  is_byte xl -> is_byte xh -> is_byte yl -> is_byte yh ->
  is_byte sl -> is_byte sh ->
  let x := (xl + 256 * xh) * scalingFactor s in
  let y := (yl + 256 * yh) * scalingFactor s in
  queryPoint pointID s
  = (inr ((flipAndSwap s x y).1, (flipAndSwap s x y).2, sl + 256 * sh, tr),
     transact 14 (reads_of (point_registers pointID)) s).
Proof.
  intros Hrange Hans Bxl Bxh Byl Byh Bsl Bsh x y. subst x y.
  apply queryPoint_ok; assumption.
Qed.

Lemma queryPoint_reads_slot_witness :
  let s := blank true false false 1 (scripted (rdPoint 700 100 3 9)) in
  (queryPoint 2 s).1 = inr (0 - 700, 100, 3, 9)
  ∧ since s (queryPoint 2 s).2
    = reads_of [[0x81; 0x60]; [0x81; 0x61]; [0x81; 0x62]; [0x81; 0x63];
                [0x81; 0x64]; [0x81; 0x65]; [0x81; 0x5F]].
Proof.
  intros s.
  rewrite (queryPoint_reads_slot 2 s 188 2 100 0 3 0 9).
  - split; [reflexivity|]. simpl snd. rewrite since_transact. reflexivity.
  - lia.
  - intros i b Hi.
    destruct i as [|[|[|[|[|[|[|i]]]]]]]; simpl in Hi; inversion Hi; subst;
      simpl; split; eauto.
  - unfold is_byte; lia.
  - unfold is_byte; lia.
  - unfold is_byte; lia.
  - unfold is_byte; lia.
  - unfold is_byte; lia.
  - unfold is_byte; lia.
Defined.

(** ** Which exceptions can leave the driver *)

Lemma never_raises_ret {A} (a : A) : never_raises (mret a : M A).
Proof. intros s. eexists _, _. reflexivity. Qed.



Lemma never_raises_get : never_raises get.
Proof. intros s. eexists _, _. reflexivity. Qed.

Lemma never_raises_set_touchInfo (m : gmap Z Info) :
  never_raises (set_touchInfo m).
Proof. intros s. eexists _, _. reflexivity. Qed.




Lemma only_never_raises {A} (m : M A) :
  never_raises m -> raises_only_bus_or_assert m.
Proof. intros Hm s _. destruct (Hm s) as (a & s' & ->). exact I. Qed.

Lemma only_bind {A B} (m : M A) (k : A -> M B) :
  raises_only_bus_or_assert m -> (∀ a, raises_only_bus_or_assert (k a)) ->
  raises_only_bus_or_assert (m ≫= k).
Proof.
  intros Hm Hk. eapply hoare_bind; [exact Hm|].
  intros a s _. apply Hk. exact I.
Qed.

Lemma only_i2c_rdwr (ev : effect) : raises_only_bus_or_assert (i2c_rdwr ev).
Proof.
  intros s _. unfold i2c_rdwr. destruct (bus s (txn s)); [exact I|].
  left. reflexivity.
Qed.

Lemma only_readI2C (register : list Z) :
  raises_only_bus_or_assert (readI2C register).
Proof.
  unfold readI2C. case_decide.
  - intros s _. simpl. right. reflexivity.
  - apply only_bind; [apply only_i2c_rdwr|intros ?].
    apply only_bind; [apply only_i2c_rdwr|intros b].
    apply only_never_raises, never_raises_ret.
Qed.


Lemma only_readI2CMultiByteValue (registers : list (list Z)) :
  raises_only_bus_or_assert (readI2CMultiByteValue registers).
Proof.
  unfold readI2CMultiByteValue.
  apply only_bind;
    [|intros vs; apply only_never_raises, never_raises_ret].
  induction registers as [|r rs IH]; simpl.
  - apply only_never_raises, never_raises_ret.
  - apply only_bind; [apply only_readI2C|intros v].
    apply only_bind; [exact IH|intros vs].
    apply only_never_raises, never_raises_ret.
Qed.

Lemma only_queryPoint (pointID : Z) :
  raises_only_bus_or_assert (queryPoint pointID).
Proof.
  unfold queryPoint.
  destruct ((0 <=? pointID) && (pointID <=? 4)) eqn:Hrange; cbn [negb].
  - apply andb_true_iff in Hrange as [H0 H4].
    apply Z.leb_le in H0. apply Z.leb_le in H4.
    rewrite tpRegisterID_stride by lia.
    apply only_bind;
      [apply only_never_raises, never_raises_get|intros self].
    apply only_bind; [apply only_readI2CMultiByteValue|intros vx].
    apply only_bind; [apply only_readI2CMultiByteValue|intros vy].
    destruct (flipAndSwap self _ _) as [x y].
    apply only_bind; [apply only_readI2CMultiByteValue|intros size].
    apply only_bind; [apply only_readI2C|intros track].
    apply only_never_raises, never_raises_ret.
  - intros s _. simpl. right. reflexivity.
Qed.

Lemma only_queryTracks (ids : list Z) :
  ∀ acc, raises_only_bus_or_assert (queryTracks ids acc).
Proof.
  induction ids as [|i ids IH]; intros acc; simpl.
  - apply only_never_raises, never_raises_ret.
  - apply only_bind; [apply only_queryPoint|].
    intros [[[x y] size] track].
    apply only_bind;
      [apply only_never_raises, never_raises_get|intros self].
    apply only_bind;
      [apply only_never_raises, never_raises_set_touchInfo|intros ?].
    apply IH.
Qed.






(** ** Contact counts above five *)

Lemma queryTracks_inr_ids (ids : list Z) :
  ∀ acc s ts s',
    queryTracks ids acc s = (inr ts, s') ->
    Forall (fun i => 0 <= i <= 4) ids.
Proof.
  induction ids as [|i ids IH]; intros acc s ts s' Hq.
  - apply Forall_nil. exact I.
  - cbn [queryTracks] in Hq. rewrite bind_unfold in Hq.
    destruct (queryPoint i s) as [[e|[[[x y] sz] tr]] s1] eqn:Hp;
      [discriminate|].
    rewrite bind_unfold in Hq. cbn [get] in Hq. rewrite bind_unfold in Hq.
    destruct (set_touchInfo _ s1) as [[e|[]] s2]; [discriminate|].
    apply Forall_cons. split.
    + eapply queryPoint_inr. exact Hp.
    + eapply IH. exact Hq.
Qed.

(** X8: when the status byte has the buffer-ready bit set and a contact count
    of 6 to 15, the iteration never completes, whatever the bus answers: the
    loop ends with [AssertionError] or [OSError], after register reads only
    (no event, no clear, no sleep), with the previous state untouched. *)
Theorem contact_count_above_five_aborts (s s1 : GT911) (statusByte : Z)
    (fuel : nat) :
  readI2C [0x81; 0x4E] s = (inr statusByte, s1) ->
  bufferStatus (parseStatus statusByte) = true ->
  5 < touchPoints (parseStatus statusByte) ->
  ∃ e s',
    readLoop (S fuel) s = (inl e, s')
    ∧ (e = AssertionError ∨ e = OSError)
    ∧ previousTouchInfo s' = previousTouchInfo s
    ∧ Forall (fun ev => is_query ev = true) (since s s').
Proof.
  intros Hread Hbuf Htp.
  set (st := parseStatus statusByte) in *.
  destruct (queryTracks (range (touchPoints st)) [] s1) as [[e|ts] s2] eqn:Hq.
  - exists e, s2.
    assert (cycle st s1 = (inl e, s2)) as Hc
      by (apply cycle_query_fails; [lia|exact Hq]).
    split.
    { cbn [readLoop]. rewrite bind_unfold.
      rewrite (readLoop_iteration_unfold s s1 statusByte Hread).
      fold st. rewrite Hbuf.
      rewrite bind_unfold, bind_unfold, Hc. reflexivity. }
    split.
    { pose proof (only_queryTracks (range (touchPoints st)) [] s1 I) as H.
      rewrite Hq in H. tauto. }
    assert (reads_only s s2) as Hro.
    { transitivity s1.
      - pose proof (reads_only_readI2C [0x81; 0x4E] eq_refl s) as H.
        rewrite Hread in H. exact H.
      - pose proof (reads_only_queryTracks (range (touchPoints st)) [] s1)
          as H.
        rewrite Hq in H. exact H. }
    split; [apply Hro|apply reads_only_since; exact Hro].
  - exfalso.
    apply queryTracks_inr_ids in Hq.
    rewrite Forall_forall in Hq.
    assert (5 ∈ range (touchPoints st)) as H5
      by (unfold range; apply elem_of_seqZ; lia).
    specialize (Hq 5 H5). lia.
Qed.

Lemma contact_count_above_five_aborts_witness :
  let s := (init (blank false false false 1 six_contacts)).2 in
  ∃ e s', readLoop 1 s = (inl e, s') ∧ (e = AssertionError ∨ e = OSError).
Proof.
  intros s.
  destruct (contact_count_above_five_aborts
              s (readI2C [0x81; 0x4E] s).2 0x86 0)
    as (e & s' & Hrun & He & _).
  - vm_compute. reflexivity.
  - reflexivity.
  - vm_compute. reflexivity.
  - exists e, s'. split; [exact Hrun|exact He].
Defined.

(** ** Flips and swap *)

(** X9: applying the flips and the swap twice gives the coordinates back when
    there is no swap, or a swap without flips, or a swap with both flips on a
    square resolution. *)
Theorem flipAndSwap_twice (self : GT911) (x y : Z) :
  swapXY self = false
  ∨ (flipX self = false ∧ flipY self = false)
  ∨ (flipX self = true ∧ flipY self = true
     ∧ (coordinateResolution self).1 = (coordinateResolution self).2) ->
  flipAndSwap self (flipAndSwap self x y).1 (flipAndSwap self x y).2 = (x, y).
Proof.
  unfold flipAndSwap.
  destruct (coordinateResolution self) as [r1 r2]. simpl.
  intros [Hs|[[Hx Hy]|(Hx & Hy & Hr)]].
  - rewrite Hs. destruct (flipX self), (flipY self); simpl; f_equal; lia.
  - rewrite Hx, Hy. destruct (swapXY self); reflexivity.
  - rewrite Hx, Hy. subst r2. destruct (swapXY self); simpl; f_equal; lia.
Qed.

Lemma flipAndSwap_twice_witness :
  let self := mkGT911 true true false 1 (800, 480) (800, 480) ∅ ∅
                (fun _ => Some 0) 0%nat [] [] in
  flipAndSwap self (flipAndSwap self 700 100).1 (flipAndSwap self 700 100).2
  = (700, 100).
Proof.
  intros self. apply (flipAndSwap_twice self 700 100).
  left. reflexivity.
Defined.

(** With a swap and exactly one flip the transform is a quarter turn, not an
    involution, even on a square resolution. *)
Example flipAndSwap_twice_quarter_turn :
  let self := mkGT911 true false true 1 (480, 480) (480, 480) ∅ ∅
                (fun _ => Some 0) 0%nat [] [] in
  flipAndSwap self (flipAndSwap self 100 30).1 (flipAndSwap self 100 30).2
  = (380, 450).
Proof. reflexivity. Qed.

(** X10: when the stored resolution is the native one (exchanged under
    swapXY) and the raw coordinates lie within the native resolution, the
    transformed coordinates lie within the stored resolution, which is the
    range the device declares, provided there is no swap, or no flip, or the
    resolution is square. *)
Theorem flipAndSwap_within_declared_range (self : GT911) (x y nx ny : Z) :
  coordinateResolution self = (if swapXY self then (ny, nx) else (nx, ny)) ->
  0 <= x <= nx -> 0 <= y <= ny ->
  swapXY self = false ∨ (flipX self = false ∧ flipY self = false) ∨ nx = ny ->
  0 <= (flipAndSwap self x y).1 <= (coordinateResolution self).1
  ∧ 0 <= (flipAndSwap self x y).2 <= (coordinateResolution self).2.
Proof.
  unfold flipAndSwap. intros Hres Hx Hy Hcond. rewrite Hres.
  destruct Hcond as [Hs|[[Hfx Hfy]|Hsq]].
  - rewrite Hs. destruct (flipX self), (flipY self); simpl; lia.
  - rewrite Hfx, Hfy. destruct (swapXY self); simpl; lia.
  - subst ny.
    destruct (swapXY self), (flipX self), (flipY self); simpl; lia.
Qed.

Lemma flipAndSwap_within_declared_range_witness :
  let self := mkGT911 false false true 1 (480, 800) (480, 800) ∅ ∅
                (fun _ => Some 0) 0%nat [] [] in
  0 <= (flipAndSwap self 700 100).1 <= 480
  ∧ 0 <= (flipAndSwap self 700 100).2 <= 800.
Proof.
  intros self.
  apply (flipAndSwap_within_declared_range self 700 100 800 480).
  - reflexivity.
  - lia.
  - lia.
  - right. left. split; reflexivity.
Defined.

(** ** The event handler *)

Lemma count_of_app (p : effect -> bool) (a b : list effect) :
  count_of p (a ++ b) = (count_of p a + count_of p b)%nat.
Proof. unfold count_of. rewrite filter_app, length_app. reflexivity. Qed.

Lemma count_of_flat_map_0 {A} (p : effect -> bool) (f : A -> list effect)
    (l : list A) :
  (∀ x, count_of p (f x) = 0%nat) -> count_of p (flat_map f l) = 0%nat.
Proof.
  intros Hf. induction l as [|x l IH]; [reflexivity|].
  simpl. rewrite count_of_app, Hf, IH. reflexivity.
Qed.

Lemma count_of_flat_map_once {A} `{EqDecision A} (p : effect -> bool)
    (f : A -> list effect) (t : A) (l : list A) :
  NoDup l ->
  (∀ x, x ∈ l ->
     count_of p (f x) = if decide (x = t) then 1%nat else 0%nat) ->
  count_of p (flat_map f l) = if decide (t ∈ l) then 1%nat else 0%nat.
Proof.
  intros Hnd Hf. induction Hnd as [|x l Hx Hnd IH].
  - destruct (decide (t ∈ [])) as [Hin|Hout]; [inversion Hin|reflexivity].
  - cbn [flat_map]. rewrite count_of_app, Hf by left.
    rewrite IH by (intros y Hy; apply Hf; right; exact Hy).
    destruct (decide (x = t)) as [->|Hne].
    + destruct (decide (t ∈ l)) as [Hin|_]; [contradiction|].
      destruct (decide (t ∈ t :: l)) as [_|Hout]; [reflexivity|].
      exfalso. apply Hout. left.
    + destruct (decide (t ∈ l)) as [Hin|Hout].
      * destruct (decide (t ∈ x :: l)) as [_|Hout]; [reflexivity|].
        exfalso. apply Hout. right. exact Hin.
      * destruct (decide (t ∈ x :: l)) as [Hin|_]; [|reflexivity].
        apply elem_of_cons in Hin as [->|Hin]; contradiction.
Qed.

Lemma size_0_elements (X : gset Z) : ¬ (0 < size X)%nat -> elements X = [].
Proof.
  intros H. assert (size X = 0%nat) as H0 by lia.
  apply size_empty_inv in H0. apply leibniz_equiv in H0. subst X.
  apply elements_empty.
Qed.

Lemma count_syn_group (cur : gmap Z Info) (X : gset Z)
    (writes : Z -> Info -> list effect) :
  (∀ t i, count_of is_syn (writes t i) = 0%nat) ->
  count_of is_syn (group_writes cur X writes)
  = if decide (0 < size X)%nat then 1%nat else 0%nat.
Proof.
  intros Hw. unfold group_writes. rewrite count_of_app.
  rewrite count_of_flat_map_0.
  - case_decide; reflexivity.
  - intros t. destruct (cur !! t); [apply Hw|reflexivity].
Qed.

Lemma last_group (cur : gmap Z Info) (X : gset Z)
    (writes : Z -> Info -> list effect) (pre : list effect) :
  (0 < size X)%nat -> last (pre ++ group_writes cur X writes) = Some UiSyn.
Proof.
  intros H. unfold group_writes. rewrite decide_True by exact H.
  rewrite !app_assoc. apply last_snoc.
Qed.

Lemma group_empty (cur : gmap Z Info) (X : gset Z)
    (writes : Z -> Info -> list effect) :
  ¬ (0 < size X)%nat -> group_writes cur X writes = [].
Proof.
  intros H. unfold group_writes.
  rewrite (size_0_elements X H), decide_False by exact H. reflexivity.
Qed.

Lemma flat_map_ext_elem {A B} (f g : A -> list B) (l : list A) :
  (∀ x, x ∈ l -> f x = g x) -> flat_map f l = flat_map g l.
Proof.
  induction l as [|x l IH]; intros H; [reflexivity|].
  simpl. rewrite (H x) by left. rewrite IH; [reflexivity|].
  intros y Hy. apply H. right. exact Hy.
Qed.

(** The ended group has the shape of the other two. *)
Lemma ended_as_group (cur prev : gmap Z Info) :
  flat_map endTrack_writes (elements (endedTracks cur prev))
  ++ (if decide (0 < size (endedTracks cur prev))%nat then [UiSyn] else [])
  = group_writes prev (endedTracks cur prev) (fun t _ => endTrack_writes t).
Proof.
  unfold group_writes. f_equal.
  apply flat_map_ext_elem. intros t Ht.
  apply elem_of_elements in Ht.
  unfold endedTracks in Ht. apply elem_of_difference in Ht as [Ht _].
  apply elem_of_dom in Ht as [i Hi]. rewrite Hi. reflexivity.
Qed.

(** X11: one call of the event handler sends one [syn] per non-empty group
    (new, updated, ended), so at most three; and either it sends nothing at
    all, which happens exactly when no track is known in either state, or
    the last thing it sends is a [syn]. *)
Theorem eventCallback_syn_batches (s : GT911) :
  ∃ s',
    eventCallback s = (inr tt, s')
    ∧ count_of is_syn (since s s')
      = ((if decide (0 < size (newTracks (touchInfo s)
                                 (previousTouchInfo s)))%nat
          then 1 else 0)
         + (if decide (0 < size (commonTracks (touchInfo s)
                                   (previousTouchInfo s)))%nat
            then 1 else 0)
         + (if decide (0 < size (endedTracks (touchInfo s)
                                   (previousTouchInfo s)))%nat
            then 1 else 0))%nat
    ∧ (count_of is_syn (since s s') <= 3)%nat
    ∧ match last (since s s') with
      | Some ev => ev = UiSyn
      | None => touchInfo s = ∅ ∧ previousTouchInfo s = ∅
      end.
Proof.
  destruct (eventCallback_run s) as (s' & Hrun & _ & _ & Htr & _).
  exists s'. split; [exact Hrun|].
  rewrite (since_app _ _ _ Htr).
  set (cur := touchInfo s). set (prev := previousTouchInfo s).
  assert (count_of is_syn (callback_writes cur prev)
          = ((if decide (0 < size (newTracks cur prev))%nat then 1 else 0)
             + (if decide (0 < size (commonTracks cur prev))%nat
                then 1 else 0)
             + (if decide (0 < size (endedTracks cur prev))%nat
                then 1 else 0))%nat) as Hcount.
  { unfold callback_writes. rewrite ended_as_group.
    rewrite !count_of_app, !count_syn_group by (intros; reflexivity). lia. }
  split; [exact Hcount|].
  split.
  { rewrite Hcount. repeat case_decide; lia. }
  unfold callback_writes. rewrite ended_as_group.
  destruct (decide (0 < size (endedTracks cur prev))%nat) as [He|He].
  { rewrite app_assoc, last_group by exact He. reflexivity. }
  rewrite (group_empty _ _ _ He), app_nil_r.
  destruct (decide (0 < size (commonTracks cur prev))%nat) as [Hc|Hc].
  { rewrite last_group by exact Hc. reflexivity. }
  rewrite (group_empty _ _ _ Hc), app_nil_r.
  destruct (decide (0 < size (newTracks cur prev))%nat) as [Hn|Hn].
  { rewrite <- (app_nil_l (group_writes _ _ _)), last_group by exact Hn.
    reflexivity. }
  rewrite (group_empty _ _ _ Hn). simpl.
  assert (∀ X : gset Z, ¬ (0 < size X)%nat -> X = ∅) as Hempty.
  { intros X HX. assert (size X = 0%nat) as H0 by lia.
    apply size_empty_inv in H0. apply leibniz_equiv in H0. exact H0. }
  apply Hempty in He, Hc, Hn.
  unfold newTracks, commonTracks, endedTracks in *.
  assert (dom cur = ∅) as Hdc.
  { apply set_eq. intros k. split; [|intros Hk; inversion Hk].
    intros Hk. destruct (decide (k ∈ dom prev)) as [Hp|Hp].
    - rewrite <- Hc. apply elem_of_intersection. tauto.
    - rewrite <- Hn. apply elem_of_difference. tauto. }
  assert (dom prev = ∅) as Hdp.
  { apply set_eq. intros k. split; [|intros Hk; inversion Hk].
    intros Hk. rewrite <- He. apply elem_of_difference.
    split; [exact Hk|]. rewrite Hdc. apply not_elem_of_empty. }
  split; apply dom_empty_iff_L; assumption.
Qed.

Lemma count_slot_newTrack (t x : Z) (i : Info) :
  count_of (is_slot t) (newTrack_writes x i)
  = if decide (x = t) then 1%nat else 0%nat.
Proof.
  unfold count_of, newTrack_writes.
  destruct (decide (x = t)) as [->|Hne].
  - rewrite filter_cons_True
      by (simpl; apply bool_decide_eq_true_2; reflexivity).
    reflexivity.
  - rewrite filter_cons_False
      by (simpl; rewrite bool_decide_eq_false_2 by exact Hne; discriminate).
    reflexivity.
Qed.

Lemma count_slot_updateTrack (t x : Z) (i : Info) :
  count_of (is_slot t) (updateTrack_writes x i)
  = if decide (x = t) then 1%nat else 0%nat.
Proof.
  unfold count_of, updateTrack_writes.
  destruct (decide (x = t)) as [->|Hne].
  - rewrite filter_cons_True
      by (simpl; apply bool_decide_eq_true_2; reflexivity).
    reflexivity.
  - rewrite filter_cons_False
      by (simpl; rewrite bool_decide_eq_false_2 by exact Hne; discriminate).
    reflexivity.
Qed.

Lemma count_slot_endTrack (t x : Z) :
  count_of (is_slot t) (endTrack_writes x)
  = if decide (x = t) then 1%nat else 0%nat.
Proof.
  unfold count_of, endTrack_writes.
  destruct (decide (x = t)) as [->|Hne].
  - rewrite filter_cons_True
      by (simpl; apply bool_decide_eq_true_2; reflexivity).
    reflexivity.
  - rewrite filter_cons_False
      by (simpl; rewrite bool_decide_eq_false_2 by exact Hne; discriminate).
    reflexivity.
Qed.

Lemma count_slot_group (m : gmap Z Info) (X : gset Z)
    (writes : Z -> Info -> list effect) (t : Z) :
  (∀ x i, count_of (is_slot t) (writes x i)
          = if decide (x = t) then 1%nat else 0%nat) ->
  X ⊆ dom m ->
  count_of (is_slot t) (group_writes m X writes)
  = if decide (t ∈ X) then 1%nat else 0%nat.
Proof.
  intros Hw Hsub. unfold group_writes. rewrite count_of_app.
  rewrite (count_of_flat_map_once _ _ t).
  - assert (count_of (is_slot t)
              (if decide (0 < size X)%nat then [UiSyn] else []) = 0%nat)
      as Hsyn by (case_decide; reflexivity).
    rewrite Hsyn, Nat.add_0_r.
    destruct (decide (t ∈ elements X)) as [Hin|Hout];
      destruct (decide (t ∈ X)) as [Hin'|Hout']; try reflexivity;
      exfalso; rewrite elem_of_elements in *; contradiction.
  - apply NoDup_elements.
  - intros x Hx. apply elem_of_elements in Hx.
    apply Hsub, elem_of_dom in Hx as [i Hi]. rewrite Hi. apply Hw.
Qed.

(** X12: in one call of the event handler every track ID that is a key of
    the current or of the previous state gets exactly one slot-select write,
    and no other slot is selected: each track is handled once, as new, as
    updated or as ended. *)
Theorem eventCallback_selects_each_track_once (s : GT911) (trackID : Z) :
  ∃ s',
    eventCallback s = (inr tt, s')
    ∧ count_of (is_slot trackID) (since s s')
      = if decide (trackID ∈ dom (touchInfo s) ∪ dom (previousTouchInfo s))
        then 1%nat else 0%nat.
Proof.
  destruct (eventCallback_run s) as (s' & Hrun & _ & _ & Htr & _).
  exists s'. split; [exact Hrun|].
  rewrite (since_app _ _ _ Htr).
  set (cur := touchInfo s). set (prev := previousTouchInfo s).
  unfold callback_writes. rewrite ended_as_group, !count_of_app.
  rewrite (count_slot_group cur (newTracks cur prev)).
  2:{ intros. apply count_slot_newTrack. }
  2:{ unfold newTracks. intros k Hk. apply elem_of_difference in Hk. tauto. }
  rewrite (count_slot_group cur (commonTracks cur prev)).
  2:{ intros. apply count_slot_updateTrack. }
  2:{ unfold commonTracks. intros k Hk. apply elem_of_intersection in Hk.
      tauto. }
  rewrite (count_slot_group prev (endedTracks cur prev)).
  2:{ intros. apply count_slot_endTrack. }
  2:{ unfold endedTracks. intros k Hk. apply elem_of_difference in Hk.
      tauto. }
  unfold newTracks, commonTracks, endedTracks.
  destruct (decide (trackID ∈ dom cur)) as [Hc|Hc];
    destruct (decide (trackID ∈ dom prev)) as [Hp|Hp];
    repeat case_decide; try reflexivity; exfalso;
    repeat match goal with
           | H : _ ∈ _ ∖ _ |- _ => apply elem_of_difference in H
           | H : _ ∈ _ ∩ _ |- _ => apply elem_of_intersection in H
           | H : _ ∈ _ ∪ _ |- _ => apply elem_of_union in H
           | H : ¬ (_ ∈ _ ∖ _) |- _ => rewrite elem_of_difference in H
           | H : ¬ (_ ∈ _ ∩ _) |- _ => rewrite elem_of_intersection in H
           | H : ¬ (_ ∈ _ ∪ _) |- _ => rewrite elem_of_union in H
           end; tauto.
Qed.

(** X13: when the two states have the same keys, no track is new and none
    is ended, and the event handler sends only the Updated writes of every
    key, in some order of the keys, followed by one [syn] if there is any
    key. *)
Theorem eventCallback_same_keys (s : GT911) :
  dom (touchInfo s) = dom (previousTouchInfo s) ->
  newTracks (touchInfo s) (previousTouchInfo s) = ∅
  ∧ endedTracks (touchInfo s) (previousTouchInfo s) = ∅
  ∧ commonTracks (touchInfo s) (previousTouchInfo s) = dom (touchInfo s)
  ∧ ∃ s' order,
      eventCallback s = (inr tt, s')
      ∧ order ≡ₚ elements (dom (touchInfo s))
      ∧ since s s' = group_sent (touchInfo s) order updateTrack_writes.
Proof.
  intros Hdom.
  assert (newTracks (touchInfo s) (previousTouchInfo s) = ∅) as Hn.
  { unfold newTracks. rewrite Hdom. apply set_eq. intros k.
    rewrite elem_of_difference. split; [tauto|intros Hk; inversion Hk]. }
  assert (endedTracks (touchInfo s) (previousTouchInfo s) = ∅) as He.
  { unfold endedTracks. rewrite Hdom. apply set_eq. intros k.
    rewrite elem_of_difference. split; [tauto|intros Hk; inversion Hk]. }
  assert (commonTracks (touchInfo s) (previousTouchInfo s)
          = dom (touchInfo s)) as Hc.
  { unfold commonTracks. rewrite <- Hdom. apply set_eq. intros k.
    rewrite elem_of_intersection. tauto. }
  split; [exact Hn|]. split; [exact He|]. split; [exact Hc|].
  destruct (eventCallback_run s) as (s' & Hrun & _ & _ & Htr & _).
  exists s', (elements (dom (touchInfo s))).
  split; [exact Hrun|]. split; [reflexivity|].
  rewrite (since_app _ _ _ Htr). unfold callback_writes.
  rewrite Hn, He, Hc. unfold group_writes at 1.
  rewrite elements_empty, size_empty. simpl.
  rewrite app_nil_r. reflexivity.
Qed.

Lemma eventCallback_same_keys_witness :
  let s := mkGT911 false false false 1 (800, 480) (800, 480)
             {[ 5 := mkInfo 12 10 3 5 ]} {[ 5 := mkInfo 10 10 3 5 ]}
             (fun _ => Some 0) 0%nat [] [] in
  ∃ s', eventCallback s = (inr tt, s')
        ∧ since s s' = [ UiWrite EV_ABS ABS_MT_SLOT 5;
                         UiWrite EV_ABS ABS_MT_POSITION_X 12;
                         UiWrite EV_ABS ABS_MT_POSITION_Y 10;
                         UiWrite EV_ABS ABS_MT_TOUCH_MAJOR 3;
                         UiSyn ].
Proof.
  intros s.
  destruct (eventCallback_same_keys s)
    as (_ & _ & _ & s' & order & Hrun & Hperm & Hsince).
  - vm_compute. reflexivity.
  - exists s'. split; [exact Hrun|]. rewrite Hsince.
    assert (elements (dom (touchInfo s)) = [5]) as E
      by (vm_compute; reflexivity).
    rewrite E in Hperm. apply Permutation_singleton_r in Hperm.
    subst order. vm_compute. reflexivity.
Defined.

(** X14: a track that is in the current state and not in the previous one is
    new and not updated: the handler sends its New writes (slot select,
    tracking ID, both positions, contact size), and afterwards the previous
    state holds the track with the same data. *)
Theorem new_track_announced (s : GT911) (trackID : Z) (info : Info) :
  touchInfo s !! trackID = Some info ->
  previousTouchInfo s !! trackID = None ->
  trackID ∈ newTracks (touchInfo s) (previousTouchInfo s)
  ∧ (trackID ∉ commonTracks (touchInfo s) (previousTouchInfo s))
  ∧ ∃ s' before after,
      eventCallback s = (inr tt, s')
      ∧ since s s' = before ++ newTrack_writes trackID info ++ after
      ∧ previousTouchInfo s' !! trackID = Some info.
Proof.
  intros Hcur Hprev.
  assert (trackID ∈ newTracks (touchInfo s) (previousTouchInfo s)) as Hin.
  { unfold newTracks. apply elem_of_difference. split.
    - apply elem_of_dom. eauto.
    - rewrite not_elem_of_dom. exact Hprev. }
  split; [exact Hin|].
  split.
  { unfold commonTracks. rewrite elem_of_intersection, (elem_of_dom (previousTouchInfo s)).
    rewrite Hprev. intros [_ [x Hx]]. discriminate. }
  destruct (flat_map_split
              (fun t => match touchInfo s !! t with
                        | Some i => newTrack_writes t i
                        | None => []
                        end)
              (elements (newTracks (touchInfo s) (previousTouchInfo s)))
              trackID) as (b & a & Hsplit).
  { apply elem_of_elements. exact Hin. }
  rewrite Hcur in Hsplit.
  destruct (eventCallback_run s) as (s' & Hrun & Hp' & _ & Htr & _).
  exists s', b. eexists.
  split; [exact Hrun|].
  split; [|rewrite Hp'; exact Hcur].
  rewrite (since_app _ _ _ Htr). unfold callback_writes.
  unfold group_writes at 1. rewrite Hsplit, <- !app_assoc. reflexivity.
Qed.

Lemma new_track_announced_witness :
  let s := mkGT911 false false false 1 (800, 480) (800, 480)
             {[ 7 := mkInfo 50 50 1 7 ]} ∅ (fun _ => Some 0) 0%nat [] [] in
  ∃ s', eventCallback s = (inr tt, s')
        ∧ previousTouchInfo s' !! 7 = Some (mkInfo 50 50 1 7).
Proof.
  intros s.
  destruct (new_track_announced s 7 (mkInfo 50 50 1 7))
    as (_ & _ & s' & _ & _ & Hrun & _ & Hprev).
  - reflexivity.
  - reflexivity.
  - exists s'. split; [exact Hrun|exact Hprev].
Defined.

(** X15: a track that is in the previous state and not in the current one is
    ended: the handler sends slot select and tracking ID -1 for it, and
    afterwards the previous state no longer holds it. *)
Theorem ended_track_released (s : GT911) (trackID : Z) (old : Info) :
  previousTouchInfo s !! trackID = Some old ->
  touchInfo s !! trackID = None ->
  trackID ∈ endedTracks (touchInfo s) (previousTouchInfo s)
  ∧ ∃ s' before after,
      eventCallback s = (inr tt, s')
      ∧ since s s'
        = before ++ [ UiWrite EV_ABS ABS_MT_SLOT trackID;
                      UiWrite EV_ABS ABS_MT_TRACKING_ID (-1) ] ++ after
      ∧ previousTouchInfo s' !! trackID = None.
Proof.
  intros Hprev Hcur.
  assert (trackID ∈ endedTracks (touchInfo s) (previousTouchInfo s)) as Hin.
  { unfold endedTracks. apply elem_of_difference. split.
    - apply elem_of_dom. eauto.
    - rewrite not_elem_of_dom. exact Hcur. }
  split; [exact Hin|].
  destruct (flat_map_split endTrack_writes
              (elements (endedTracks (touchInfo s) (previousTouchInfo s)))
              trackID) as (b & a & Hsplit).
  { apply elem_of_elements. exact Hin. }
  destruct (eventCallback_run s) as (s' & Hrun & Hp' & _ & Htr & _).
  exists s'.
  exists (group_writes (touchInfo s)
            (newTracks (touchInfo s) (previousTouchInfo s)) newTrack_writes
          ++ group_writes (touchInfo s)
               (commonTracks (touchInfo s) (previousTouchInfo s))
               updateTrack_writes
          ++ b).
  exists (a ++ (if decide (0 < size (endedTracks (touchInfo s)
                                      (previousTouchInfo s)))%nat
                then [UiSyn] else [])).
  split; [exact Hrun|].
  split; [|rewrite Hp'; exact Hcur].
  rewrite (since_app _ _ _ Htr). unfold callback_writes.
  rewrite Hsplit. unfold endTrack_writes.
  rewrite <- !app_assoc. reflexivity.
Qed.

Lemma ended_track_released_witness :
  let s := mkGT911 false false false 1 (800, 480) (800, 480)
             ∅ {[ 5 := mkInfo 10 10 3 5 ]} (fun _ => Some 0) 0%nat [] [] in
  ∃ s', eventCallback s = (inr tt, s')
        ∧ since s s' = [ UiWrite EV_ABS ABS_MT_SLOT 5;
                         UiWrite EV_ABS ABS_MT_TRACKING_ID (-1); UiSyn ]
        ∧ previousTouchInfo s' !! 5 = None.
Proof.
  intros s.
  destruct (ended_track_released s 5 (mkInfo 10 10 3 5))
    as (_ & s' & _ & _ & Hrun & _ & Hprev).
  - reflexivity.
  - reflexivity.
  - exists s'. split; [exact Hrun|]. split; [|exact Hprev].
    assert (s' = (eventCallback s).2) as -> by (rewrite Hrun; reflexivity).
    vm_compute. reflexivity.
Defined.

(** ** Iterations of the polling loop *)

Lemma status_not_ready (b : Z) :
  Z.testbit b 7 = false -> bufferStatus (parseStatus b) = false.
Proof.
  intros H. unfold parseStatus. simpl.
  rewrite <- H. apply (land_pow2 b 7). lia.
Qed.

Lemma callback_writes_all_ended (prev : gmap Z Info) :
  callback_writes ∅ prev
  = flat_map endTrack_writes (elements (dom prev))
    ++ (if decide (0 < size (dom prev))%nat then [UiSyn] else []).
Proof.
  unfold callback_writes, newTracks, commonTracks, endedTracks.
  rewrite dom_empty_L.
  assert (∅ ∖ dom prev = (∅ : gset Z)) as ->.
  { apply set_eq. intros k. rewrite elem_of_difference.
    pose proof (not_elem_of_empty (C := gset Z) k). tauto. }
  assert (∅ ∩ dom prev = (∅ : gset Z)) as ->.
  { apply set_eq. intros k. rewrite elem_of_intersection.
    pose proof (not_elem_of_empty (C := gset Z) k). tauto. }
  assert (dom prev ∖ ∅ = dom prev) as ->.
  { apply set_eq. intros k. rewrite elem_of_difference.
    pose proof (not_elem_of_empty (C := gset Z) k). tauto. }
  unfold group_writes. rewrite elements_empty, size_empty. reflexivity.
Qed.

(** X16: when the status byte has the buffer-ready bit set and a contact
    count of zero, and the clear is acknowledged, the iteration sends exactly
    one Ended pair (slot select, tracking ID -1) for every track of the
    previous state, in some order of the tracks, one [syn] if there was any,
    no New and no Updated write, then clears the buffer and sleeps; both
    states are empty afterwards. *)
Theorem ready_without_contacts_releases_all (s s1 : GT911) (statusByte : Z) :
  readI2C [0x81; 0x4E] s = (inr statusByte, s1) ->
  bufferStatus (parseStatus statusByte) = true ->
  touchPoints (parseStatus statusByte) = 0 ->
  is_Some (bus s (txn s + 2)%nat) ->
  ∃ s' order,
    readLoop_iteration s = (inr tt, s')
    ∧ touchInfo s' = ∅
    ∧ previousTouchInfo s' = ∅
    ∧ order ≡ₚ elements (dom (previousTouchInfo s))
    ∧ since s s'
      = [I2cWrite [0x81; 0x4E]; I2cRead 1]
        ++ flat_map endTrack_writes order
        ++ (if decide (0 < length order)%nat then [UiSyn] else [])
        ++ [clearBuffer; Sleep].
Proof.
  intros Hread Hbuf Htp [a Ha].
  pose proof (readI2C_inr _ _ _ _ Hread) as Hs1.
  set (sA := (set_touchInfo ∅ s1).2).
  assert (set_touchInfo ∅ s1 = (inr tt, sA)) as Hset by reflexivity.
  destruct (eventCallback_run sA)
    as (sB & Hcb & HpB & HcB & HtB & _ & HbB & HnB).
  assert (cycle (parseStatus statusByte) s1 = (inr tt, sB)) as Hcycle.
  { unfold cycle. rewrite Htp. change (1 <=? 0) with false. cbv iota.
    rewrite (bind_inr _ _ _ _ _ Hset). exact Hcb. }
  assert (writeI2C [0x81; 0x4E] [0] sB
          = (inr tt, transact 1 [clearBuffer] sB)) as Hw.
  { unfold writeI2C. erewrite bind_inr; [reflexivity|].
    apply (i2c_rdwr_ok _ sB a).
    rewrite HbB, HnB. subst sA. simpl. rewrite Hs1. simpl. exact Ha. }
  rewrite (readLoop_iteration_unfold s s1 statusByte Hread), Hbuf.
  rewrite bind_unfold, bind_unfold, Hcycle, Hw.
  eexists. exists (elements (dom (previousTouchInfo s))).
  split; [reflexivity|].
  split; [simpl; rewrite HcB; reflexivity|].
  split; [simpl; rewrite HpB; reflexivity|].
  split; [reflexivity|].
  apply since_app. simpl. rewrite HtB. subst sA. simpl.
  rewrite callback_writes_all_ended.
  rewrite Hs1. simpl. rewrite <- !app_assoc. reflexivity.
Qed.

Lemma ready_without_contacts_releases_all_witness :
  let s := mkGT911 false false false 1 (800, 480) (800, 480)
             {[ 5 := mkInfo 10 10 3 5 ]} {[ 5 := mkInfo 10 10 3 5 ]}
             (scripted (rd 0x80)) 0%nat [] [] in
  ∃ s',
    readLoop_iteration s = (inr tt, s')
    ∧ touchInfo s' = ∅ ∧ previousTouchInfo s' = ∅
    ∧ since s s'
      = [I2cWrite [0x81; 0x4E]; I2cRead 1;
         UiWrite EV_ABS ABS_MT_SLOT 5; UiWrite EV_ABS ABS_MT_TRACKING_ID (-1);
         UiSyn; clearBuffer; Sleep].
Proof.
  intros s.
  destruct (ready_without_contacts_releases_all
              s (readI2C [0x81; 0x4E] s).2 0x80)
    as (s' & order & Hrun & Hc & Hp & Hperm & Hsince).
  - vm_compute. reflexivity.
  - reflexivity.
  - reflexivity.
  - simpl. eauto.
  - exists s'. split; [exact Hrun|]. split; [exact Hc|]. split; [exact Hp|].
    assert (elements (dom (previousTouchInfo s)) = [5]) as E
      by (vm_compute; reflexivity).
    rewrite E in Hperm. apply Permutation_singleton_r in Hperm.
    subst order. exact Hsince.
Defined.

Lemma idle_iteration (s : GT911) (a b : Z) :
  bus s (txn s) = Some a ->
  bus s (S (txn s)) = Some b ->
  Z.testbit b 7 = false ->
  readLoop_iteration s
  = (inr tt, log [Sleep] (transact 2 [I2cWrite [0x81; 0x4E]; I2cRead 1] s)).
Proof.
  intros Ha Hb Hbit.
  assert (readI2C [0x81; 0x4E] s
          = (inr b, transact 2 [I2cWrite [0x81; 0x4E]; I2cRead 1] s)) as Hread
    by (apply (readI2C_ok _ s a b); [discriminate|exact Ha|exact Hb]).
  rewrite (readLoop_iteration_unfold _ _ _ Hread).
  rewrite (status_not_ready b Hbit). reflexivity.
Qed.

Lemma grows_readLoop_iteration : preserves grows readLoop_iteration.
Proof.
  unfold readLoop_iteration.
  apply preserves_bind; [apply _| |intros statusByte].
  { eapply preserves_weaken;
      [apply reads_only_grows|apply reads_only_readI2C].
    reflexivity. }
  cbv zeta.
  apply preserves_bind; [apply _| |intros ?].
  - destruct (bufferStatus (parseStatus statusByte)).
    + apply preserves_bind;
        [apply _|apply (grows_cycle (parseStatus statusByte))|].
      intros ? s0.
      destruct (writeI2C_run [0x81; 0x4E] [0] s0) as [w Hw].
      rewrite Hw. simpl. eexists. reflexivity.
    + apply preserves_ret; apply _.
  - intros s0. simpl. eexists. reflexivity.
Qed.

Lemma grows_readLoop (fuel : nat) : preserves grows (readLoop fuel).
Proof.
  induction fuel as [|n IHn]; simpl.
  - apply preserves_ret; apply _.
  - apply preserves_bind;
      [apply _|apply grows_readLoop_iteration|intros ?; exact IHn].
Qed.

Lemma grows_since (s s' : GT911) :
  grows s s' -> trace s' = trace s ++ since s s'.
Proof.
  intros [evs Hevs]. unfold since. rewrite Hevs, drop_app_length.
  reflexivity.
Qed.

(** X17: on a bus whose every answer has bit 7 clear (the buffer is never
    ready), any number of iterations runs to the end doing nothing but
    reading the status register and sleeping: two transactions and one sleep
    per iteration, no event, no write to the device, and the two states and
    their history are left as they were. *)
Theorem idle_loop_only_polls (fuel : nat) :
  ∀ s : GT911,
    (∀ n, ∃ b, bus s n = Some b ∧ Z.testbit b 7 = false) ->
    ∃ s',
      readLoop fuel s = (inr tt, s')
      ∧ tracks s' = tracks s
      ∧ txn s' = (txn s + 2 * fuel)%nat
      ∧ since s s'
        = concat (replicate fuel [I2cWrite [0x81; 0x4E]; I2cRead 1; Sleep]).
Proof.
  induction fuel as [|fuel IH]; intros s Hbus.
  - exists s. simpl. split; [reflexivity|]. split; [reflexivity|].
    split; [lia|]. unfold since. apply drop_all.
  - destruct (Hbus (txn s)) as (a & Ha & _).
    destruct (Hbus (S (txn s))) as (b & Hb & Hbit).
    pose proof (idle_iteration s a b Ha Hb Hbit) as Hit.
    set (s1 := log [Sleep]
                 (transact 2 [I2cWrite [0x81; 0x4E]; I2cRead 1] s)) in *.
    destruct (IH s1) as (s' & Hrun & Htracks & Htxn & Hsince).
    { intros n. apply Hbus. }
    exists s'. cbn [readLoop]. rewrite (bind_inr _ _ _ _ _ Hit).
    split; [exact Hrun|]. split; [rewrite Htracks; reflexivity|].
    split; [rewrite Htxn; simpl; lia|].
    assert (trace s' = trace s1 ++ since s1 s') as Hgrow.
    { apply grows_since. pose proof (grows_readLoop fuel s1) as Hp.
      rewrite Hrun in Hp. exact Hp. }
    apply since_app. rewrite Hgrow, Hsince. subst s1. simpl.
    rewrite <- !app_assoc. reflexivity.
Qed.

Lemma idle_loop_only_polls_witness :
  let s := blank false false false 1 (fun _ => Some 0) in
  ∃ s', readLoop 3 s = (inr tt, s') ∧ txn s' = 6%nat.
Proof.
  intros s.
  destruct (idle_loop_only_polls 3 s) as (s' & Hrun & _ & Htxn & _).
  - intros n. exists 0. split; reflexivity.
  - exists s'. split; [exact Hrun|exact Htxn].
Defined.

Lemma hoare_frame {A} (m : M A) (P : GT911 -> Prop) :
  preserves same_tracks m ->
  (∀ s s', same_tracks s s' -> P s -> P s') ->
  hoare P m (fun _ => P) (fun _ _ => True).
Proof.
  intros Hm HP s Hs. specialize (Hm s).
  destruct (m s) as [[e|a] s1]; simpl in Hm; [exact I|].
  eapply HP; eassumption.
Qed.

Lemma states_equal_same_tracks (s s' : GT911) :
  same_tracks s s' ->
  previousTouchInfo s = touchInfo s -> previousTouchInfo s' = touchInfo s'.
Proof.
  intros [Ht _] H. unfold tracks in Ht. inversion Ht as [[Hc Hp Hh]].
  rewrite Hc, Hp. exact H.
Qed.

Lemma cycle_states_equal (st : Status) :
  hoare (fun _ => True) (cycle st)
    (fun _ s => previousTouchInfo s = touchInfo s) (fun _ _ => True).
Proof.
  assert (hoare (fun _ => True) eventCallback
            (fun _ s => previousTouchInfo s = touchInfo s)
            (fun _ _ => True)) as Hcb.
  { intros s _. destruct (eventCallback_run s) as (s' & Hrun & Hp & Hc & _).
    rewrite Hrun. congruence. }
  unfold cycle. destruct (1 <=? touchPoints st).
  - eapply hoare_bind with (Q := fun _ _ => True).
    { intros s _. destruct (queryTracks _ _ s) as [[e|ts] s1]; exact I. }
    intros ts. eapply hoare_bind with (Q := fun _ _ => True).
    { intros s _. destruct (removeMissingTracks ts s) as [[e|[]] s1]; exact I. }
    intros ?. exact Hcb.
  - eapply hoare_bind with (Q := fun _ _ => True).
    { intros s _. exact I. }
    intros ?. exact Hcb.
Qed.

Lemma readLoop_iteration_states_equal :
  hoare (fun s => previousTouchInfo s = touchInfo s) readLoop_iteration
    (fun _ s => previousTouchInfo s = touchInfo s) (fun _ _ => True).
Proof.
  unfold readLoop_iteration.
  eapply hoare_bind.
  { apply hoare_frame;
      [apply same_tracks_readI2C|apply states_equal_same_tracks]. }
  intros statusByte. cbv zeta.
  eapply hoare_bind
    with (Q := fun _ s => previousTouchInfo s = touchInfo s).
  - destruct (bufferStatus (parseStatus statusByte)).
    + eapply hoare_bind
        with (Q := fun _ s => previousTouchInfo s = touchInfo s).
      { intros s _. apply (cycle_states_equal (parseStatus statusByte) s I). }
      intros ?. apply hoare_frame;
        [apply same_tracks_writeI2C|apply states_equal_same_tracks].
    + intros s Hs. exact Hs.
  - intros ?. apply hoare_frame;
      [apply same_tracks_emit|apply states_equal_same_tracks].
Qed.

(** X18: whenever the loop has run a number of iterations to the end, the
    previous state equals the current state: between iterations the two
    states never differ, so every diff compares against the outcome of the
    last cycle that was read. *)
Theorem states_equal_between_iterations (fx fy sw : bool) (scaling : Z)
    (b : nat -> option Z) (fuel : nat) :
  let r := run fx fy sw scaling b fuel in
  match r.1 with
  | inr _ => previousTouchInfo r.2 = touchInfo r.2
  | inl _ => True
  end.
Proof.
  intros r.
  assert (hoare (fun _ => True) init
            (fun _ s => previousTouchInfo s = touchInfo s)
            (fun _ _ => True)) as Hinit.
  { unfold init.
    eapply hoare_bind with (Q := fun _ _ => True).
    { intros s _. destruct (queryTouchBoundary s) as [[e|v] s1]; exact I. }
    intros tb. eapply hoare_bind with (Q := fun _ _ => True).
    { intros s _. exact I. }
    intros ?. eapply hoare_bind with (Q := fun _ _ => True).
    { intros s _.
      destruct (queryCoordinateResolution s) as [[e|v] s1]; exact I. }
    intros cr. eapply hoare_bind with (Q := fun _ _ => True).
    { intros s _. exact I. }
    intros ? s _. reflexivity. }
  assert (hoare (fun s => previousTouchInfo s = touchInfo s) (readLoop fuel)
            (fun _ s => previousTouchInfo s = touchInfo s)
            (fun _ _ => True)) as Hloop.
  { induction fuel as [|n IH]; simpl.
    - intros s Hs. exact Hs.
    - eapply hoare_bind; [apply readLoop_iteration_states_equal|].
      intros ?. exact IH. }
  pose proof (hoare_bind _ _ _ (fun _ => readLoop fuel) _ _ Hinit
                (fun _ => Hloop) (blank fx fy sw scaling b) I) as H.
  fold (run fx fy sw scaling b fuel) in H. fold r in H.
  destruct r as [[e|[]] s]; exact H.
Qed.

(** ** What a completed cycle stores *)

Lemma queryTracks_inr_dom (ids : list Z) :
  ∀ acc s ts s',
    queryTracks ids acc s = (inr ts, s') ->
    ∃ new,
      ts = acc ++ new
      ∧ length new = length ids
      ∧ dom (touchInfo s') = dom (touchInfo s) ∪ list_to_set new.
Proof.
  induction ids as [|i ids IH]; intros acc s ts s' Hq.
  - simpl in Hq. inversion Hq; subst. exists [].
    rewrite app_nil_r. split; [reflexivity|]. split; [reflexivity|].
    rewrite list_to_set_nil. apply set_eq. intros k.
    rewrite elem_of_union.
    pose proof (not_elem_of_empty (C := gset Z) k). tauto.
  - cbn [queryTracks] in Hq. rewrite bind_unfold in Hq.
    destruct (queryPoint i s) as [[e|[[[x y] sz] tr]] s1] eqn:Hp;
      [discriminate|].
    rewrite bind_unfold in Hq. cbn [get] in Hq. rewrite bind_unfold in Hq.
    pose proof (same_tracks_queryPoint i s) as [Hsame _].
    rewrite Hp in Hsame. simpl in Hsame. unfold tracks in Hsame.
    inversion Hsame as [[Hc1 Hp1 Hh1]].
    set (s2 := (set_touchInfo (<[tr:=mkInfo x y sz tr]> (touchInfo s1)) s1).2)
      in *.
    change (set_touchInfo (<[tr:=mkInfo x y sz tr]> (touchInfo s1)) s1)
      with (inr tt : exn + unit, s2) in Hq.
    cbv iota beta in Hq.
    destruct (IH _ _ _ _ Hq) as (new & Hts & Hlen & Hdom).
    exists (tr :: new). split; [rewrite Hts, <- app_assoc; reflexivity|].
    split; [simpl; rewrite Hlen; reflexivity|].
    rewrite Hdom. subst s2. cbn [touchInfo set_touchInfo snd].
    rewrite dom_insert_L, Hc1.
    rewrite list_to_set_cons. apply set_eq. intros k.
    rewrite !elem_of_union. tauto.
Qed.

Lemma delete_loop_exact (l : list Z) :
  ∀ s, ∃ s',
    for_each l
      (fun k => self ← get; set_touchInfo (delete k (touchInfo self))) s
    = (inr tt, s')
    ∧ dom (touchInfo s') = dom (touchInfo s) ∖ list_to_set l
    ∧ (∀ k, k ∉ l -> touchInfo s' !! k = touchInfo s !! k)
    ∧ (previousTouchInfo s' = previousTouchInfo s
       ∧ trace s' = trace s ∧ bus s' = bus s ∧ txn s' = txn s).
Proof.
  induction l as [|k l IH]; intros s.
  - exists s. cbn [for_each]. split; [reflexivity|].
    split; [|split; [reflexivity|repeat split; reflexivity]].
    rewrite list_to_set_nil. apply set_eq. intros x.
    rewrite elem_of_difference.
    pose proof (not_elem_of_empty (C := gset Z) x). tauto.
  - cbn [for_each]. rewrite bind_unfold, bind_unfold. cbn [get].
    set (s1 := (set_touchInfo (delete k (touchInfo s)) s).2).
    change (set_touchInfo (delete k (touchInfo s)) s)
      with (inr tt : exn + unit, s1).
    cbv iota beta.
    destruct (IH s1) as (s' & Hrun & Hdom & Hlook & Hprev).
    exists s'. split; [exact Hrun|].
    split; [|split].
    + rewrite Hdom. subst s1. cbn [touchInfo set_touchInfo snd].
      rewrite dom_delete_L, list_to_set_cons.
      apply set_eq. intros x.
      rewrite !elem_of_difference, elem_of_union. tauto.
    + intros x Hx. rewrite Hlook.
      * subst s1. simpl. apply lookup_delete_ne.
        intros ->. apply Hx. left.
      * intros Hin. apply Hx. right. exact Hin.
    + destruct Hprev as (H1 & H2 & H3 & H4).
      rewrite H1, H2, H3, H4. repeat split; reflexivity.
Qed.

Lemma removeMissingTracks_exact (tracksThisRound : list Z) (s : GT911) :
  ∃ s',
    removeMissingTracks tracksThisRound s = (inr tt, s')
    ∧ dom (touchInfo s') = dom (touchInfo s) ∩ list_to_set tracksThisRound
    ∧ (∀ k, k ∈ tracksThisRound -> touchInfo s' !! k = touchInfo s !! k)
    ∧ (previousTouchInfo s' = previousTouchInfo s
       ∧ trace s' = trace s ∧ bus s' = bus s ∧ txn s' = txn s).
Proof.
  unfold removeMissingTracks. rewrite bind_unfold. cbn [get].
  destruct (delete_loop_exact
              (filter (fun k => k ∉ tracksThisRound)
                 (elements (dom (touchInfo s)))) s)
    as (s' & Hrun & Hdom & Hlook & Hsame).
  exists s'. split; [exact Hrun|]. split; [|split; [|exact Hsame]].
  - rewrite Hdom. apply set_eq. intros k.
    rewrite elem_of_difference, elem_of_intersection, !elem_of_list_to_set.
    rewrite list_elem_of_filter, elem_of_elements.
    destruct (decide (k ∈ tracksThisRound)); tauto.
  - intros k Hk. apply Hlook. rewrite list_elem_of_filter. tauto.
Qed.

(** X19: when the buffer is ready and all the contacts announced (1 to 5)
    are read, the iteration leaves in the current state exactly the track
    IDs read in this round, each with the data read for it (for a track ID
    reported twice, the data read last), whatever tracks were stored before;
    the previous state is made equal to it, whether or not the clear that
    follows succeeds. *)
Theorem completed_cycle_keeps_this_round (s s1 s2 : GT911) (statusByte : Z)
    (tracksThisRound : list Z) :
  readI2C [0x81; 0x4E] s = (inr statusByte, s1) ->
  bufferStatus (parseStatus statusByte) = true ->
  1 <= touchPoints (parseStatus statusByte) ->
  queryTracks (range (touchPoints (parseStatus statusByte))) [] s1
    = (inr tracksThisRound, s2) ->
  let r := readLoop_iteration s in
  dom (touchInfo r.2) = list_to_set tracksThisRound
  ∧ (∀ k, k ∈ tracksThisRound -> touchInfo r.2 !! k = touchInfo s2 !! k)
  ∧ previousTouchInfo r.2 = touchInfo r.2
  ∧ Z.of_nat (length tracksThisRound) = touchPoints (parseStatus statusByte)
  ∧ touchPoints (parseStatus statusByte) <= 5.
Proof.
  intros Hread Hbuf Htp Hq r.
  set (st := parseStatus statusByte) in *.
  destruct (queryTracks_inr_dom _ _ _ _ _ Hq) as (new & Hts & Hlen & Hdom).
  simpl in Hts. subst new.
  destruct (removeMissingTracks_exact tracksThisRound s2)
    as (s3 & Hrm & Hdom3 & Hlook3 & _).
  destruct (eventCallback_run s3) as (s4 & Hcb & Hp4 & Hc4 & _).
  assert (cycle st s1 = (inr tt, s4)) as Hcycle.
  { unfold cycle. apply Z.leb_le in Htp. rewrite Htp.
    rewrite (bind_inr _ _ _ _ _ Hq), (bind_inr _ _ _ _ _ Hrm). exact Hcb. }
  assert (tracks r.2 = tracks s4) as Htracks.
  { subst r. rewrite (readLoop_iteration_unfold s s1 statusByte Hread).
    fold st. rewrite Hbuf, bind_unfold, bind_unfold, Hcycle.
    pose proof (same_tracks_writeI2C [0x81; 0x4E] [0] s4) as [Hw _].
    destruct (writeI2C [0x81; 0x4E] [0] s4) as [[e|[]] s5]; simpl in *;
      exact Hw. }
  unfold tracks in Htracks. inversion Htracks as [[Hc Hp Hh]].
  rewrite Hc, Hp, Hp4, Hc4.
  split.
  { rewrite Hdom3, Hdom. apply set_eq. intros k.
    rewrite elem_of_intersection, elem_of_union. tauto. }
  split; [exact Hlook3|]. split; [reflexivity|].
  assert (length tracksThisRound = Z.to_nat (touchPoints st)) as Hl.
  { rewrite Hlen. unfold range. apply length_seqZ. }
  split; [lia|].
  apply queryTracks_inr_ids in Hq. rewrite Forall_forall in Hq.
  destruct (decide (touchPoints st <= 5)) as [Hle|Hgt]; [exact Hle|].
  assert (5 ∈ range (touchPoints st)) as H5
    by (unfold range; apply elem_of_seqZ; lia).
  specialize (Hq 5 H5). lia.
Qed.

Lemma completed_cycle_keeps_this_round_witness :
  let s := mkGT911 false false false 1 (800, 480) (800, 480)
             {[ 5 := mkInfo 10 10 3 5 ]} {[ 5 := mkInfo 10 10 3 5 ]}
             (scripted (rd 0x81 ++ rdPoint 50 50 1 7)) 0%nat [] [] in
  dom (touchInfo (readLoop_iteration s).2) = list_to_set [7]
  ∧ previousTouchInfo (readLoop_iteration s).2
    = touchInfo (readLoop_iteration s).2.
Proof.
  intros s.
  destruct (completed_cycle_keeps_this_round
              s (readI2C [0x81; 0x4E] s).2
              (queryTracks (range 1) [] (readI2C [0x81; 0x4E] s).2).2
              0x81 [7])
    as (Hdom & _ & Hprev & _).
  - vm_compute. reflexivity.
  - reflexivity.
  - vm_compute. discriminate.
  - vm_compute. reflexivity.
  - split; [exact Hdom|exact Hprev].
Defined.

(** ** What the driver never does *)

#[local] Instance emits_protocol_preorder : PreOrder emits_protocol.
Proof.
  split.
  - intros s. exists []. rewrite app_nil_r. split; [reflexivity|].
    apply Forall_nil. exact I.
  - intros s1 s2 s3 [e1 [H1 F1]] [e2 [H2 F2]]. exists (e1 ++ e2).
    split; [rewrite H2, H1, app_assoc; reflexivity|].
    apply Forall_app. split; assumption.
Qed.

Lemma query_is_protocol (ev : effect) :
  is_query ev = true -> is_protocol ev = true.
Proof.
  destruct ev as [m|n| | |]; try discriminate; [|reflexivity].
  destruct m as [|a [|b [|c m]]]; try discriminate. reflexivity.
Qed.

Lemma reads_only_protocol (s s' : GT911) :
  reads_only s s' -> emits_protocol s s'.
Proof.
  intros (_ & _ & evs & Htr & Hq). exists evs. split; [exact Htr|].
  eapply Forall_impl; [exact Hq|]. intros ev. apply query_is_protocol.
Qed.

Lemma Forall_flat_map_elem {A} (P : effect -> Prop) (f : A -> list effect)
    (l : list A) :
  (∀ x, Forall P (f x)) -> Forall P (flat_map f l).
Proof.
  intros Hf. induction l as [|x l IH]; simpl.
  - apply Forall_nil. exact I.
  - apply Forall_app. split; [apply Hf|exact IH].
Qed.

Lemma group_is_protocol (cur : gmap Z Info) (X : gset Z)
    (writes : Z -> Info -> list effect) :
  (∀ t i, Forall (fun ev => is_protocol ev = true) (writes t i)) ->
  Forall (fun ev => is_protocol ev = true) (group_writes cur X writes).
Proof.
  intros Hw. unfold group_writes. apply Forall_app. split.
  - apply Forall_flat_map_elem. intros t.
    destruct (cur !! t); [apply Hw|apply Forall_nil; exact I].
  - case_decide; [apply Forall_singleton; reflexivity|].
    apply Forall_nil. exact I.
Qed.

Lemma callback_is_protocol (cur prev : gmap Z Info) :
  Forall (fun ev => is_protocol ev = true) (callback_writes cur prev).
Proof.
  unfold callback_writes. rewrite ended_as_group.
  apply Forall_app; split; [|apply Forall_app; split];
    apply group_is_protocol; intros t i;
    repeat (apply Forall_cons; split; [reflexivity|]);
    apply Forall_nil; exact I.
Qed.

Lemma protocol_eventCallback : preserves emits_protocol eventCallback.
Proof.
  intros s. destruct (eventCallback_run s) as (s' & Hrun & _ & _ & Htr & _).
  rewrite Hrun. simpl. eexists. split; [exact Htr|].
  apply callback_is_protocol.
Qed.

Lemma protocol_cycle (st : Status) : preserves emits_protocol (cycle st).
Proof.
  unfold cycle. destruct (1 <=? touchPoints st).
  - apply preserves_bind; [apply _| |intros ts].
    { eapply preserves_weaken;
        [apply reads_only_protocol|apply reads_only_queryTracks]. }
    apply preserves_bind; [apply _| |intros ?; apply protocol_eventCallback].
    eapply preserves_weaken;
      [apply reads_only_protocol|apply reads_only_removeMissingTracks].
  - apply preserves_bind; [apply _| |intros ?; apply protocol_eventCallback].
    eapply preserves_weaken;
      [apply reads_only_protocol|apply reads_only_set_touchInfo].
Qed.

Lemma protocol_readLoop_iteration : preserves emits_protocol readLoop_iteration.
Proof.
  unfold readLoop_iteration.
  apply preserves_bind; [apply _| |intros statusByte].
  { eapply preserves_weaken;
      [apply reads_only_protocol|apply reads_only_readI2C].
    reflexivity. }
  cbv zeta.
  apply preserves_bind; [apply _| |intros ?].
  - destruct (bufferStatus (parseStatus statusByte)).
    + apply preserves_bind;
        [apply _|apply (protocol_cycle (parseStatus statusByte))|].
      intros ? s0.
      destruct (writeI2C_run [0x81; 0x4E] [0] s0) as [w Hw].
      rewrite Hw. simpl. eexists. split; [reflexivity|].
      apply Forall_singleton. reflexivity.
    + apply preserves_ret; apply _.
  - intros s0. simpl. eexists. split; [reflexivity|].
    apply Forall_singleton. reflexivity.
Qed.

Lemma protocol_readLoop (fuel : nat) :
  preserves emits_protocol (readLoop fuel).
Proof.
  induction fuel as [|n IHn]; simpl.
  - apply preserves_ret; apply _.
  - apply preserves_bind;
      [apply _|apply protocol_readLoop_iteration|intros ?; exact IHn].
Qed.

Lemma protocol_two_fields (r1 r2 : list (list Z)) (k : Z -> Z -> M (Z * Z)) :
  Forall (fun register => is_query (I2cWrite register) = true) r1 ->
  Forall (fun register => is_query (I2cWrite register) = true) r2 ->
  (∀ a b, preserves emits_protocol (k a b)) ->
  preserves emits_protocol
    (a ← readI2CMultiByteValue r1; b ← readI2CMultiByteValue r2; k a b).
Proof.
  intros H1 H2 Hk.
  apply preserves_bind; [apply _| |intros a].
  { eapply preserves_weaken;
      [apply reads_only_protocol
      |apply reads_only_readI2CMultiByteValue; exact H1]. }
  apply preserves_bind; [apply _| |intros b; apply Hk].
  eapply preserves_weaken;
    [apply reads_only_protocol
    |apply reads_only_readI2CMultiByteValue; exact H2].
Qed.

Lemma protocol_init : preserves emits_protocol init.
Proof.
  assert (∀ a b : list Z,
            is_query (I2cWrite a) = true -> is_query (I2cWrite b) = true ->
            Forall (fun register => is_query (I2cWrite register) = true)
              [a; b]) as Hpair.
  { intros a b Ha Hb. apply Forall_cons. split; [exact Ha|].
    apply Forall_singleton. exact Hb. }
  assert (∀ {A} (m : M A), (∀ s, trace (m s).2 = trace s) ->
            preserves emits_protocol m) as Hquiet.
  { intros A m Hm s. exists []. rewrite app_nil_r.
    split; [apply Hm|apply Forall_nil; exact I]. }
  unfold init.
  apply preserves_bind; [apply _| |intros tb].
  { unfold queryTouchBoundary.
    apply preserves_bind; [apply _|apply preserves_get; apply _|intros self].
    apply protocol_two_fields; [apply Hpair; reflexivity..|].
    intros va vb. destruct (swapXY self); apply preserves_ret; apply _. }
  apply preserves_bind; [apply _|apply Hquiet; reflexivity|intros ?].
  apply preserves_bind; [apply _| |intros cr].
  { unfold queryCoordinateResolution.
    apply preserves_bind; [apply _|apply preserves_get; apply _|intros self].
    apply protocol_two_fields; [apply Hpair; reflexivity..|].
    intros va vb. destruct (swapXY self); apply preserves_ret; apply _. }
  apply preserves_bind; [apply _|apply Hquiet; reflexivity|intros ?].
  apply preserves_bind; [apply _|apply Hquiet; reflexivity|intros ?].
  apply Hquiet. reflexivity.
Qed.

(** X20: in every run, whatever the bus answers, the only write to the device
    that carries data is the write of zero to the status register (the
    driver never writes a configuration register), and the only events sent
    are [syn] and writes of the codes ABS_MT_SLOT, ABS_MT_TRACKING_ID,
    ABS_MT_POSITION_X, ABS_MT_POSITION_Y and ABS_MT_TOUCH_MAJOR: ABS_X, ABS_Y,
    BTN_TOUCH and BTN_TOOL_FINGER, which the device declares, are never
    sent. *)
Theorem run_emits_protocol_only (fx fy sw : bool) (scaling : Z)
    (b : nat -> option Z) (fuel : nat) :
  let r := run fx fy sw scaling b fuel in
  Forall (fun ev => is_protocol ev = true) (trace r.2)
  ∧ (∀ message, I2cWrite message ∈ trace r.2 ->
       length message = 2%nat ∨ message = [0x81; 0x4E; 0])
  ∧ (∀ t c v, UiWrite t c v ∈ trace r.2 ->
       t = EV_ABS
       ∧ c ≠ ABS_X ∧ c ≠ ABS_Y ∧ c ≠ BTN_TOUCH ∧ c ≠ BTN_TOOL_FINGER).
Proof.
  intros r.
  assert (Forall (fun ev => is_protocol ev = true) (trace r.2)) as Hall.
  { assert (preserves emits_protocol (init;; readLoop fuel)) as Hp.
    { apply preserves_bind;
        [apply _|apply protocol_init|intros ?; apply protocol_readLoop]. }
    destruct (Hp (blank fx fy sw scaling b)) as [evs [Htr Hevs]].
    fold (run fx fy sw scaling b fuel) in Htr. fold r in Htr.
    rewrite Htr. simpl. exact Hevs. }
  split; [exact Hall|].
  rewrite Forall_forall in Hall.
  split.
  - intros message Hin. specialize (Hall _ Hin). simpl in Hall.
    destruct message as [|hi [|lo [|data [|x message]]]]; try discriminate.
    + left. reflexivity.
    + right. apply andb_true_iff in Hall as [Hall Hd].
      apply andb_true_iff in Hall as [Hh Hl].
      apply Z.eqb_eq in Hh, Hl, Hd. subst. reflexivity.
  - intros t c v Hin. specialize (Hall _ Hin). simpl in Hall.
    destruct t, c; try discriminate; repeat split; discriminate.
Qed.

(** ** One contact, end to end *)

(** X21: a cycle that reads one contact.  When the status byte announces one
    contact with the buffer ready, the seven registers of contact 0 are read
    and the clear is acknowledged, the iteration leaves exactly that contact
    in both states, whatever was stored before, with the transformed
    coordinates, the raw size and the track ID as key; after the register
    reads it sends what the diff of that one-contact state against the old
    previous state sends, for some order of the tracks of each group, then
    clears the buffer and sleeps. *)
Theorem single_contact_cycle (s : GT911)
    (statusByte xl xh yl yh sl sh tr : Z) :
  answers s [statusByte; xl; xh; yl; yh; sl; sh; tr] ->
  is_Some (bus s (txn s + 16)%nat) ->
  bufferStatus (parseStatus statusByte) = true ->
  touchPoints (parseStatus statusByte) = 1 ->
  is_byte xl -> is_byte xh -> is_byte yl -> is_byte yh ->
  is_byte sl -> is_byte sh ->
  let x := (xl + 256 * xh) * scalingFactor s in
  let y := (yl + 256 * yh) * scalingFactor s in
  let info :=
    mkInfo (flipAndSwap s x y).1 (flipAndSwap s x y).2 (sl + 256 * sh) tr in
  ∃ s' evs,
    readLoop_iteration s = (inr tt, s')
    ∧ touchInfo s' = {[ tr := info ]}
    ∧ previousTouchInfo s' = {[ tr := info ]}
    ∧ diff_sent {[ tr := info ]} (previousTouchInfo s) evs
    ∧ since s s'
      = reads_of ([0x81; 0x4E] :: point_registers 0)
        ++ evs
        ++ [clearBuffer; Sleep].
Proof.
  intros Hans [c Hc] Hbuf Htp Bxl Bxh Byl Byh Bsl Bsh x y info.
  destruct (answers_app s [statusByte] [xl; xh; yl; yh; sl; sh; tr]
              [I2cWrite [0x81; 0x4E]; I2cRead 1] Hans) as [Hst Hpt].
  change (2 * length [statusByte])%nat with 2%nat in Hpt.
  destruct (Hst 0%nat statusByte eq_refl) as [[a Ha] Hb].
  rewrite Nat.add_0_r in Ha. simpl in Hb.
  rewrite Nat.add_0_r, Nat.add_1_r in Hb.
  pose proof (readI2C_ok [0x81; 0x4E] s a statusByte
                ltac:(discriminate) Ha Hb) as Hread.
  set (s1 := transact 2 [I2cWrite [0x81; 0x4E]; I2cRead 1] s) in *.
  pose proof (queryPoint_ok 0 s1 xl xh yl yh sl sh tr
                ltac:(lia) Hpt Bxl Bxh Byl Byh Bsl Bsh) as Hq.
  cbv zeta in Hq.
  change (scalingFactor s1) with (scalingFactor s) in Hq.
  change (flipAndSwap s1) with (flipAndSwap s) in Hq.
  fold x y in Hq.
  set (s2 := transact 14 (reads_of (point_registers 0)) s1) in *.
  set (s3 := (set_touchInfo (<[tr := info]> (touchInfo s2)) s2).2).
  assert (queryTracks (range 1) [] s1 = (inr [tr], s3)) as Htracks.
  { change (range 1) with [0]. cbn [queryTracks].
    rewrite (bind_inr _ _ _ _ _ Hq). reflexivity. }
  destruct (removeMissingTracks_exact [tr] s3)
    as (s4 & Hrm & Hdom4 & Hlook4 & Hsame4).
  assert (touchInfo s4 = {[ tr := info ]}) as Hcur4.
  { apply map_eq. intros k. destruct (decide (k = tr)) as [->|Hne].
    - rewrite Hlook4 by left. subst s3. simpl.
      rewrite lookup_insert_eq, lookup_singleton_eq. reflexivity.
    - rewrite lookup_singleton_ne by congruence.
      apply not_elem_of_dom. rewrite Hdom4.
      rewrite elem_of_intersection, elem_of_list_to_set.
      intros [_ Hin]. apply list_elem_of_singleton in Hin. contradiction. }
  destruct Hsame4 as (Hp4 & Ht4 & Hb4 & Hn4).
  destruct (eventCallback_run s4)
    as (s5 & Hcb & Hp5 & Hc5 & Ht5 & _ & Hb5 & Hn5).
  assert (cycle (parseStatus statusByte) s1 = (inr tt, s5)) as Hcycle.
  { unfold cycle. rewrite Htp. change (1 <=? 1) with true. cbv iota.
    rewrite (bind_inr _ _ _ _ _ Htracks), (bind_inr _ _ _ _ _ Hrm).
    exact Hcb. }
  assert (writeI2C [0x81; 0x4E] [0] s5
          = (inr tt, transact 1 [clearBuffer] s5)) as Hw.
  { unfold writeI2C. erewrite bind_inr; [reflexivity|].
    apply (i2c_rdwr_ok _ s5 c).
    rewrite Hb5, Hn5, Hb4, Hn4. subst s3 s2 s1. simpl.
    replace (txn s + 2 + 14)%nat with (txn s + 16)%nat by lia. exact Hc. }
  rewrite (readLoop_iteration_unfold s s1 statusByte Hread), Hbuf.
  rewrite bind_unfold, bind_unfold, Hcycle, Hw.
  eexists. exists (callback_writes {[ tr := info ]} (previousTouchInfo s)).
  split; [reflexivity|].
  split; [simpl; rewrite Hc5; exact Hcur4|].
  split; [simpl; rewrite Hp5; exact Hcur4|].
  split; [apply callback_writes_diff_sent|].
  apply since_app. simpl. rewrite Ht5, Ht4, Hcur4, Hp4.
  subst s3 s2 s1. simpl. rewrite <- !app_assoc. reflexivity.
Qed.

Lemma single_contact_cycle_witness :
  let s := mkGT911 false false false 1 (800, 480) (800, 480)
             {[ 5 := mkInfo 10 10 3 5 ]} {[ 5 := mkInfo 10 10 3 5 ]}
             (scripted (rd 0x81 ++ rdPoint 50 60 1 7)) 0%nat [] [] in
  ∃ s',
    readLoop_iteration s = (inr tt, s')
    ∧ touchInfo s' = {[ 7 := mkInfo 50 60 1 7 ]}.
Proof.
  intros s.
  destruct (single_contact_cycle s 0x81 50 0 60 0 1 0 7)
    as (s' & evs & Hrun & Hcur & _).
  - intros i b Hi.
    destruct i as [|[|[|[|[|[|[|[|i]]]]]]]]; simpl in Hi; inversion Hi;
      subst; simpl; split; eauto.
  - simpl. eauto.
  - reflexivity.
  - reflexivity.
  - unfold is_byte; lia.
  - unfold is_byte; lia.
  - unfold is_byte; lia.
  - unfold is_byte; lia.
  - unfold is_byte; lia.
  - unfold is_byte; lia.
  - exists s'. split; [exact Hrun|]. rewrite Hcur. reflexivity.
Defined.

(** ** Startup *)

(** X22: startup reads the boundary and then the resolution, eight registers
    in all, in the order (0x80,0x48..0x4B), (0x81,0x46..0x49); it stores both
    pairs scaled (exchanged under swapXY), starts with both touch states
    empty, and the ranges the device declares for the X and Y positions are
    the two components of the stored resolution. *)
Theorem init_reads_geometry (s : GT911)
    (bxl bxh byl byh rxl rxh ryl ryh : Z) :
  answers s [bxl; bxh; byl; byh; rxl; rxh; ryl; ryh] ->
  is_byte bxl -> is_byte bxh -> is_byte byl -> is_byte byh ->
  is_byte rxl -> is_byte rxh -> is_byte ryl -> is_byte ryh ->
  let k := scalingFactor s in
  let xMax := (bxl + 256 * bxh) * k in
  let yMax := (byl + 256 * byh) * k in
  let xRes := (rxl + 256 * rxh) * k in
  let yRes := (ryl + 256 * ryh) * k in
  ∃ s',
    init s = (inr tt, s')
    ∧ touchBoundary s' = (if swapXY s then (yMax, xMax) else (xMax, yMax))
    ∧ coordinateResolution s'
      = (if swapXY s then (yRes, xRes) else (xRes, yRes))
    ∧ touchInfo s' = ∅ ∧ previousTouchInfo s' = ∅
    ∧ since s s'
      = reads_of [[0x80; 0x48]; [0x80; 0x49]; [0x80; 0x4A]; [0x80; 0x4B];
                  [0x81; 0x46]; [0x81; 0x47]; [0x81; 0x48]; [0x81; 0x49]]
    ∧ (ABS_MT_POSITION_X,
       mkAbsInfo 0 0 (if swapXY s then yRes else xRes) 0 0 0) ∈ caps s'
    ∧ (ABS_MT_POSITION_Y,
       mkAbsInfo 0 0 (if swapXY s then xRes else yRes) 0 0 0) ∈ caps s'.
Proof.
  intros Hans B1 B2 B3 B4 B5 B6 B7 B8 k xMax yMax xRes yRes.
  set (evs1 := reads_of [[0x80; 0x48]; [0x80; 0x49]; [0x80; 0x4A];
                         [0x80; 0x4B]]).
  destruct (answers_app s [bxl; bxh; byl; byh] [rxl; rxh; ryl; ryh] evs1 Hans)
    as [Hb Hr].
  change (2 * length [bxl; bxh; byl; byh])%nat with 8%nat in Hr.
  pose proof (queryTouchBoundary_ok s bxl bxh byl byh Hb B1 B2 B3 B4) as Hq1.
  cbv zeta in Hq1. fold k xMax yMax evs1 in Hq1.
  set (tb := if swapXY s then (yMax, xMax) else (xMax, yMax)) in *.
  set (s1 := (set_touchBoundary tb (transact 8 evs1 s)).2).
  assert (answers s1 [rxl; rxh; ryl; ryh]) as Hr1 by exact Hr.
  pose proof (queryCoordinateResolution_ok s1 rxl rxh ryl ryh Hr1
                B5 B6 B7 B8) as Hq2.
  cbv zeta in Hq2.
  change (scalingFactor s1) with k in Hq2.
  change (swapXY s1) with (swapXY s) in Hq2.
  fold xRes yRes in Hq2.
  set (cr := if swapXY s then (yRes, xRes) else (xRes, yRes)) in *.
  unfold init.
  rewrite (bind_inr _ _ _ _ _ Hq1).
  rewrite bind_unfold.
  change (set_touchBoundary tb (transact 8 evs1 s)) with (inr tt : exn + unit, s1).
  cbv iota beta.
  rewrite (bind_inr _ _ _ _ _ Hq2).
  eexists. split; [reflexivity|].
  split; [reflexivity|]. split; [reflexivity|].
  split; [reflexivity|]. split; [reflexivity|].
  split.
  { apply since_app. simpl. rewrite <- !app_assoc. reflexivity. }
  unfold caps. simpl. subst cr.
  split; destruct (swapXY s); simpl.
  - do 2 right. left.
  - do 2 right. left.
  - do 3 right. left.
  - do 3 right. left.
Qed.

Lemma init_reads_geometry_witness :
  let s := blank false false true 2 (scripted (rdInit 800 480 800 480)) in
  ∃ s', init s = (inr tt, s')
        ∧ touchBoundary s' = (960, 1600)
        ∧ coordinateResolution s' = (960, 1600).
Proof.
  intros s.
  destruct (init_reads_geometry s 32 3 224 1 32 3 224 1)
    as (s' & Hrun & Htb & Hcr & _).
  - intros i b Hi.
    destruct i as [|[|[|[|[|[|[|[|i]]]]]]]]; simpl in Hi; inversion Hi;
      subst; simpl; split; eauto.
  - unfold is_byte; lia.
  - unfold is_byte; lia.
  - unfold is_byte; lia.
  - unfold is_byte; lia.
  - unfold is_byte; lia.
  - unfold is_byte; lia.
  - unfold is_byte; lia.
  - unfold is_byte; lia.
  - exists s'. split; [exact Hrun|]. split; [exact Htb|exact Hcr].
Defined.

(** * Failure and replacement across a cycle *)

(** ** Transactions issued one by one *)

Lemma after_refl (s : GT911) : after s s [].
Proof.
  unfold after. simpl. rewrite Nat.add_0_r, app_nil_r. auto.
Qed.

Lemma after_trans (s1 s2 s3 : GT911) (e1 e2 : list effect) :
  after s1 s2 e1 -> after s2 s3 e2 -> after s1 s3 (e1 ++ e2).
Proof.
  intros (T1 & R1 & B1 & P1) (T2 & R2 & B2 & P2). unfold after.
  rewrite length_app. split; [lia|].
  split; [rewrite R2, R1, app_assoc; reflexivity|].
  split; congruence.
Qed.

Lemma succeeds_bind {A B} (m : M A) (k : A -> M B) (e1 e2 : list effect) :
  succeeds_in m e1 -> (∀ a, succeeds_in (k a) e2) ->
  succeeds_in (m ≫= k) (e1 ++ e2).
Proof.
  intros Hm Hk s Hans. rewrite length_app in Hans.
  destruct (Hm s) as (a & s1 & Hrun & Haft).
  { intros i Hi. apply Hans. lia. }
  pose proof Haft as (T1 & _ & B1 & _).
  destruct (Hk a s1) as (b & s2 & Hrun2 & Haft2).
  { intros i Hi. rewrite B1, T1, <- Nat.add_assoc. apply Hans. lia. }
  exists b, s2. split.
  - rewrite (bind_inr _ _ _ _ _ Hrun). exact Hrun2.
  - exact (after_trans _ _ _ _ _ Haft Haft2).
Qed.

Lemma fails_bind {A B} (m : M A) (k : A -> M B) (e1 e2 : list effect) :
  succeeds_in m e1 -> fails_in m e1 -> (∀ a, fails_in (k a) e2) ->
  fails_in (m ≫= k) (e1 ++ e2).
Proof.
  intros Hs Hf Hk s j Hj Hans Hnone. rewrite length_app in Hj.
  destruct (decide (j < length e1)%nat) as [Hlt|Hge].
  - destruct (Hf s j Hlt Hans Hnone) as (s' & Hrun & Haft).
    exists s'. split.
    + rewrite bind_unfold, Hrun. reflexivity.
    + rewrite take_app_le by lia. exact Haft.
  - destruct (Hs s) as (a & s1 & Hrun & Haft).
    { intros i Hi. apply Hans. lia. }
    pose proof Haft as (T1 & _ & B1 & _).
    destruct (Hk a s1 (j - length e1)%nat) as (s2 & Hrun2 & Haft2).
    { lia. }
    { intros i Hi. rewrite B1, T1, <- Nat.add_assoc. apply Hans. lia. }
    { rewrite B1, T1, <- Nat.add_assoc.
      replace (length e1 + (j - length e1))%nat with j by lia. exact Hnone. }
    exists s2. split; [rewrite (bind_inr _ _ _ _ _ Hrun); exact Hrun2|].
    replace (take (S j) (e1 ++ e2))
      with (e1 ++ take (S (j - length e1)) e2).
    + exact (after_trans _ _ _ _ _ Haft Haft2).
    + rewrite take_app_ge by lia. f_equal. f_equal. lia.
Qed.

Lemma transacts_bind {A B} (m : M A) (k : A -> M B) (e1 e2 : list effect) :
  transacts m e1 -> (∀ a, transacts (k a) e2) -> transacts (m ≫= k) (e1 ++ e2).
Proof.
  intros [Hs Hf] Hk. split.
  - apply succeeds_bind; [exact Hs|intros a; apply Hk].
  - apply fails_bind; [exact Hs|exact Hf|intros a; apply Hk].
Qed.

Lemma transacts_pure {A} (m : M A) :
  (∀ s, ∃ a, m s = (inr a, s)) -> transacts m [].
Proof.
  intros H. split.
  - intros s _. destruct (H s) as [a Ha]. exists a, s.
    split; [exact Ha|apply after_refl].
  - intros s j Hj. simpl in Hj. lia.
Qed.

Lemma transacts_ret {A} (a : A) : transacts (mret a : M A) [].
Proof. apply transacts_pure. intros s. exists a. reflexivity. Qed.

Lemma transacts_set_touchInfo (m : gmap Z Info) :
  transacts (set_touchInfo m) [].
Proof.
  split.
  - intros s _. eexists _, _. split; [reflexivity|].
    unfold after. simpl. rewrite Nat.add_0_r, app_nil_r. auto.
  - intros s j Hj. simpl in Hj. lia.
Qed.

Lemma transacts_pure_bind {A B} (m : M A) (k : A -> M B) (e : list effect) :
  transacts m [] -> (∀ a, transacts (k a) e) -> transacts (m ≫= k) e.
Proof. intros Hm Hk. exact (transacts_bind m k [] e Hm Hk). Qed.

Lemma transacts_bind_pure {A B} (m : M A) (k : A -> M B) (e : list effect) :
  transacts m e -> (∀ a, transacts (k a) []) -> transacts (m ≫= k) e.
Proof.
  intros Hm Hk. rewrite <- (app_nil_r e). exact (transacts_bind m k e [] Hm Hk).
Qed.

Lemma fails_pure_bind {A B} (m : M A) (k : A -> M B) (e : list effect) :
  transacts m [] -> (∀ a, fails_in (k a) e) -> fails_in (m ≫= k) e.
Proof. intros [Hs Hf] Hk. exact (fails_bind m k [] e Hs Hf Hk). Qed.

Lemma transacts_i2c_rdwr (ev : effect) : transacts (i2c_rdwr ev) [ev].
Proof.
  split.
  - intros s Hans. destruct (Hans 0%nat) as [b Hb]; [simpl; lia|].
    rewrite Nat.add_0_r in Hb. unfold i2c_rdwr. rewrite Hb.
    eexists _, _. split; [reflexivity|].
    unfold after. simpl. split; [lia|auto].
  - intros s j Hj _ Hnone. simpl in Hj.
    assert (j = 0%nat) as -> by lia. rewrite Nat.add_0_r in Hnone.
    unfold i2c_rdwr. rewrite Hnone.
    eexists. split; [reflexivity|].
    unfold after. simpl. split; [lia|auto].
Qed.

Lemma transacts_readI2C (register : list Z) :
  register ≠ [] ->
  transacts (readI2C register) [I2cWrite register; I2cRead 1].
Proof.
  intros Hne. unfold readI2C. case_decide; [contradiction|].
  apply (transacts_bind _ _ [I2cWrite register] [I2cRead 1]);
    [apply transacts_i2c_rdwr|intros ?].
  apply transacts_bind_pure; [apply transacts_i2c_rdwr|intros b].
  apply transacts_ret.
Qed.

Lemma transacts_readI2CMultiByteValue (registers : list (list Z)) :
  Forall (fun register => register ≠ []) registers ->
  transacts (readI2CMultiByteValue registers) (reads_of registers).
Proof.
  intros Hne. unfold readI2CMultiByteValue.
  apply transacts_bind_pure; [|intros vs; apply transacts_ret].
  induction Hne as [|r rs Hr Hrs IH]; cbn [readValues].
  - apply transacts_ret.
  - apply (transacts_bind _ _ [I2cWrite r; I2cRead 1] (reads_of rs));
      [apply transacts_readI2C; exact Hr|intros v].
    apply transacts_bind_pure; [exact IH|intros vs]. apply transacts_ret.
Qed.

Lemma transacts_queryPoint (pointID : Z) :
  0 <= pointID <= 4 ->
  transacts (queryPoint pointID) (reads_of (point_registers pointID)).
Proof.
  intros Hi. unfold queryPoint.
  replace ((0 <=? pointID) && (pointID <=? 4)) with true
    by (symmetry; apply andb_true_iff; split; apply Z.leb_le; lia).
  rewrite (tpRegisterID_stride pointID Hi).
  cbn [negb reg_x reg_y reg_size reg_track].
  apply transacts_pure_bind;
    [apply transacts_pure; intros s; eexists; reflexivity|intros self].
  apply (transacts_bind _ _
           (reads_of [[0x81; 0x50 + 8 * pointID]; [0x81; 0x51 + 8 * pointID]])
           (reads_of [[0x81; 0x52 + 8 * pointID]; [0x81; 0x53 + 8 * pointID];
                      [0x81; 0x54 + 8 * pointID]; [0x81; 0x55 + 8 * pointID];
                      [0x81; 0x4F + 8 * pointID]])).
  { apply transacts_readI2CMultiByteValue.
    apply Forall_cons; split; [discriminate|].
    apply Forall_singleton. discriminate. }
  intros vx.
  apply (transacts_bind _ _
           (reads_of [[0x81; 0x52 + 8 * pointID]; [0x81; 0x53 + 8 * pointID]])
           (reads_of [[0x81; 0x54 + 8 * pointID]; [0x81; 0x55 + 8 * pointID];
                      [0x81; 0x4F + 8 * pointID]])).
  { apply transacts_readI2CMultiByteValue.
    apply Forall_cons; split; [discriminate|].
    apply Forall_singleton. discriminate. }
  intros vy.
  destruct (flipAndSwap self _ _) as [x y].
  apply (transacts_bind _ _
           (reads_of [[0x81; 0x54 + 8 * pointID]; [0x81; 0x55 + 8 * pointID]])
           (reads_of [[0x81; 0x4F + 8 * pointID]])).
  { apply transacts_readI2CMultiByteValue.
    apply Forall_cons; split; [discriminate|].
    apply Forall_singleton. discriminate. }
  intros size.
  apply transacts_bind_pure; [apply transacts_readI2C; discriminate|].
  intros track. apply transacts_ret.
Qed.

Lemma reads_of_app (a b : list (list Z)) :
  reads_of (a ++ b) = reads_of a ++ reads_of b.
Proof. unfold reads_of. apply flat_map_app. Qed.

Lemma length_reads_of_points (ids : list Z) :
  length (reads_of (flat_map point_registers ids)) = (14 * length ids)%nat.
Proof.
  induction ids as [|i ids IH]; [reflexivity|].
  cbn [flat_map]. rewrite reads_of_app, length_app, IH. simpl. lia.
Qed.

(** The contact reads stop at the first transaction that fails, whatever
    would have been read after the contacts [ids]. *)
Lemma fails_queryTracks (ids rest : list Z) :
  Forall (fun i => 0 <= i <= 4) ids ->
  ∀ tracksThisRound,
    fails_in (queryTracks (ids ++ rest) tracksThisRound)
      (reads_of (flat_map point_registers ids)).
Proof.
  intros Hids. induction Hids as [|i ids Hi Hids IH]; intros acc.
  - intros s j Hj. simpl in Hj. lia.
  - cbn [app queryTracks flat_map]. rewrite reads_of_app.
    destruct (transacts_queryPoint i Hi) as [Hs Hf].
    apply fails_bind; [exact Hs|exact Hf|].
    intros [[[x y] size] track].
    apply fails_pure_bind;
      [apply transacts_pure; intros s; eexists; reflexivity|intros self].
    apply fails_pure_bind; [apply transacts_set_touchInfo|intros ?].
    apply IH.
Qed.

(** ** A failed contact read *)

(** With the status read answered and transaction number [n] the first one
    without an answer, among those of the contacts 0..4: the contact reads
    raise right after transaction [n], each transaction up to it issued
    once. *)
Lemma failed_read_run (s : GT911) (statusByte tp : Z) (n : nat) :
  (∀ k, (txn s <= k < n)%nat -> is_Some (bus s k)) ->
  bus s (S (txn s)) = Some statusByte ->
  bus s n = None ->
  1 <= tp ->
  (txn s + 2 <= n < txn s + 2 + 14 * Z.to_nat (Z.min tp 5))%nat ->
  ∃ s1 s2,
    readI2C [0x81; 0x4E] s = (inr statusByte, s1)
    ∧ queryTracks (range tp) [] s1 = (inl OSError, s2)
    ∧ txn s2 = S n
    ∧ since s s2
      = take (S n - txn s)
          (reads_of ([0x81; 0x4E] :: flat_map point_registers (range tp))).
Proof.
  intros Hans Hb Hnone Htp [Hn1 Hn2].
  destruct (Hans (txn s)) as [a Ha]; [lia|].
  pose proof (readI2C_ok [0x81; 0x4E] s a statusByte
                ltac:(discriminate) Ha Hb) as Hread.
  set (s1 := transact 2 [I2cWrite [0x81; 0x4E]; I2cRead 1] s) in *.
  set (m := Z.min tp 5) in *.
  assert (range tp = seqZ 0 m ++ seqZ m (tp - m)) as Hsplit.
  { unfold range. replace tp with (m + (tp - m)) at 1 by lia.
    apply seqZ_app; lia. }
  assert (Forall (fun i => 0 <= i <= 4) (seqZ 0 m)) as Hids.
  { apply Forall_forall. intros i Hi. apply elem_of_seqZ in Hi. lia. }
  pose proof (fails_queryTracks (seqZ 0 m) (seqZ m (tp - m)) Hids [] s1
                (n - (txn s + 2))%nat) as H.
  rewrite length_reads_of_points, length_seqZ in H.
  destruct H as (s2 & Hq & T & R & _ & _).
  { lia. }
  { intros i Hi. subst s1. simpl. apply Hans. lia. }
  { subst s1. simpl.
    replace (txn s + 2 + (n - (txn s + 2)))%nat with n by lia. exact Hnone. }
  exists s1, s2. rewrite Hsplit.
  split; [exact Hread|]. split; [exact Hq|].
  rewrite length_take, length_reads_of_points, length_seqZ in T.
  split; [rewrite T; subst s1; cbn [txn transact]; lia|].
  apply since_app. rewrite R. subst s1. cbn [trace transact].
  rewrite <- app_assoc. f_equal.
  replace (S n - txn s)%nat with (2 + S (n - (txn s + 2)))%nat by lia.
  change (reads_of ([0x81; 0x4E]
                    :: flat_map point_registers
                         (seqZ 0 m ++ seqZ m (tp - m))))
    with ([I2cWrite [0x81; 0x4E]; I2cRead 1]
          ++ reads_of (flat_map point_registers
                         (seqZ 0 m ++ seqZ m (tp - m)))).
  cbn [Nat.add app take]. do 2 f_equal.
  rewrite flat_map_app, reads_of_app.
  rewrite take_app_le; [reflexivity|].
  rewrite length_reads_of_points, length_seqZ. lia.
Qed.

(** C4, as the code has it: when the bus leaves a transaction without an
    answer while the contacts of a cycle are being read, all earlier ones
    having been answered, the exception leaves the loop right there: every
    transaction up to the failed one was issued once, in order, the failed
    one is the last effect of the process (it is not issued again; no event,
    no clear, no sleep follows), the previous state is untouched, and no
    further cycle begins, however many iterations remain. *)
Theorem failed_query_ends_loop (s : GT911) (statusByte : Z) (n fuel : nat) :
  (∀ k, (txn s <= k < n)%nat -> is_Some (bus s k)) ->
  bus s (S (txn s)) = Some statusByte ->
  bus s n = None ->
  bufferStatus (parseStatus statusByte) = true ->
  1 <= touchPoints (parseStatus statusByte) ->
  (txn s + 2 <= n
   < txn s + 2
     + 14 * Z.to_nat (Z.min (touchPoints (parseStatus statusByte)) 5))%nat ->
  ∃ s2,
    readLoop (S fuel) s = (inl OSError, s2)
    ∧ txn s2 = S n
    ∧ since s s2
      = take (S n - txn s)
          (reads_of ([0x81; 0x4E]
                     :: flat_map point_registers
                          (range (touchPoints (parseStatus statusByte)))))
    ∧ failed_last s2
    ∧ bus s2 = bus s
    ∧ previousTouchInfo s2 = previousTouchInfo s
    ∧ Forall (fun ev => is_query ev = true) (since s s2)
    ∧ (clearBuffer ∉ since s s2)
    ∧ (Sleep ∉ since s s2).
Proof.
  intros Hans Hb Hnone Hbuf Htp Hn.
  destruct (failed_read_run s statusByte _ n Hans Hb Hnone Htp Hn)
    as (s1 & s2 & Hread & Hq & Htxn & Htrace).
  exists s2.
  assert (reads_only s s2) as Hro.
  { transitivity s1.
    - pose proof (reads_only_readI2C [0x81; 0x4E] eq_refl s) as H.
      rewrite Hread in H. exact H.
    - pose proof (reads_only_queryTracks
                    (range (touchPoints (parseStatus statusByte))) [] s1) as H.
      rewrite Hq in H. exact H. }
  split.
  { cbn [readLoop]. rewrite bind_unfold.
    unfold readLoop_iteration. rewrite bind_unfold, Hread. cbv zeta.
    rewrite Hbuf. rewrite bind_unfold. rewrite bind_unfold.
    apply Z.leb_le in Htp. rewrite Htp.
    rewrite bind_unfold, Hq. reflexivity. }
  split; [exact Htxn|]. split; [exact Htrace|].
  split.
  { pose proof (stops_queryTracks
                  (range (touchPoints (parseStatus statusByte))) [] s1 I) as H.
    rewrite Hq in H. apply H. reflexivity. }
  pose proof (reads_only_since s s2 Hro) as Hsince.
  destruct Hro as (Hbus & Hprev & _).
  split; [exact Hbus|]. split; [exact Hprev|]. split; [exact Hsince|].
  split; apply (Forall_query_not_in _ _ Hsince); reflexivity.
Qed.

Lemma failed_query_ends_loop_witness :
  let s := (init (blank false false false 1 read_fails)).2 in
  ∃ s2,
    readLoop 3 s = (inl OSError, s2)
    ∧ txn s2 = 20%nat
    ∧ since s s2
      = [I2cWrite [0x81; 0x4E]; I2cRead 1; I2cWrite [0x81; 0x50]; I2cRead 1].
Proof.
  intros s.
  assert (txn s = 16%nat) as Ht by (vm_compute; reflexivity).
  destruct (failed_query_ends_loop s 0x81 19 2)
    as (s2 & Hloop & Htxn & Hsince & _).
  - intros k Hk. rewrite Ht in Hk.
    assert (k = 16 ∨ k = 17 ∨ k = 18)%nat as [->|[->| ->]] by lia;
      vm_compute; eauto.
  - vm_compute. reflexivity.
  - vm_compute. reflexivity.
  - reflexivity.
  - vm_compute. discriminate.
  - rewrite Ht. vm_compute. lia.
  - exists s2. split; [exact Hloop|]. split; [exact Htxn|].
    rewrite Hsince, Ht. vm_compute. reflexivity.
Defined.

(** C4 as stated fails: on a bus where one contact read fails and every
    later transaction would succeed, the loop asked for three iterations
    stops with the exception right after the failed read; no sleep and no
    second status read follow. *)
Lemma no_fresh_cycle_after_failure :
  let r := run false false false 1 read_fails 3 in
  let started := (init (blank false false false 1 read_fails)).2 in
  r.1 = inl OSError
  ∧ since started r.2
    = [I2cWrite [0x81; 0x4E]; I2cRead 1; I2cWrite [0x81; 0x50]; I2cRead 1]
  ∧ (Sleep ∉ trace r.2)
  ∧ read_fails 19%nat = None
  ∧ (∀ n, (19 < n)%nat -> read_fails n = Some 0)
  ∧ txn r.2 = 20%nat.
Proof.
  intros r started.
  assert (trace r.2 =
          reads_of [[0x80; 0x48]; [0x80; 0x49]; [0x80; 0x4A]; [0x80; 0x4B];
                    [0x81; 0x46]; [0x81; 0x47]; [0x81; 0x48]; [0x81; 0x49];
                    [0x81; 0x4E]; [0x81; 0x50]]) as Htrace
    by (vm_compute; reflexivity).
  split; [vm_compute; reflexivity|].
  split; [vm_compute; reflexivity|].
  split.
  { rewrite Htrace. unfold reads_of. simpl. intros Hin.
    repeat (apply elem_of_cons in Hin as [Hin|Hin]; [discriminate|]).
    inversion Hin. }
  split; [reflexivity|].
  split; [|vm_compute; reflexivity].
  intros n Hn. unfold read_fails, scripted.
  rewrite lookup_ge_None_2; [reflexivity|].
  simpl. lia.
Qed.

(** ** The previous state across a cycle *)

#[local] Instance prev_kept_preorder : PreOrder prev_kept.
Proof.
  split.
  - intros s. split; [reflexivity|]. exists []. rewrite app_nil_r.
    split; [reflexivity|apply Forall_nil; exact I].
  - intros s1 s2 s3 (P1 & H1 & E1 & F1) (P2 & H2 & E2 & F2).
    split; [congruence|]. exists (H1 ++ H2).
    split; [rewrite E2, E1, app_assoc; reflexivity|].
    apply Forall_app. split; [exact F1|].
    rewrite P1 in F2. exact F2.
Qed.

Lemma same_tracks_prev_kept (s s' : GT911) :
  same_tracks s s' -> prev_kept s s'.
Proof.
  intros [Ht _]. unfold tracks in Ht. inversion Ht as [[Hc Hp Hh]].
  split; [exact Hp|]. exists []. rewrite app_nil_r.
  split; [exact Hh|apply Forall_nil; exact I].
Qed.

Lemma prev_kept_set_touchInfo (m : gmap Z Info) :
  preserves prev_kept (set_touchInfo m).
Proof.
  intros s. split; [reflexivity|]. exists [(m, previousTouchInfo s)].
  split; [reflexivity|]. apply Forall_singleton. reflexivity.
Qed.

Lemma prev_kept_queryTracks (ids : list Z) :
  ∀ acc, preserves prev_kept (queryTracks ids acc).
Proof.
  induction ids as [|i ids IH]; intros acc; simpl.
  - apply preserves_ret; apply _.
  - apply preserves_bind; [apply _| |].
    { eapply preserves_weaken;
        [apply same_tracks_prev_kept|apply same_tracks_queryPoint]. }
    intros [[[x y] size] track].
    apply preserves_bind; [apply _|apply preserves_get; apply _|intros self].
    apply preserves_bind; [apply _|apply prev_kept_set_touchInfo|intros ?].
    apply IH.
Qed.

Lemma prev_kept_removeMissingTracks (tracksThisRound : list Z) :
  preserves prev_kept (removeMissingTracks tracksThisRound).
Proof.
  unfold removeMissingTracks.
  apply preserves_bind; [apply _|apply preserves_get; apply _|intros self].
  apply preserves_for_each; [apply _|]. intros k.
  apply preserves_bind; [apply _|apply preserves_get; apply _|intros self'].
  apply prev_kept_set_touchInfo.
Qed.

(** The body of [if(bufferStatus)] up to the event handler either raises
    while the contacts are read, or reaches the handler; up to there the
    previous state is not assigned and only registers are read. *)
Lemma cycle_decompose (st : Status) (s : GT911) :
  (∃ e s2, cycle st s = (inl e, s2) ∧ prev_kept s s2 ∧ reads_only s s2)
  ∨ (∃ sE s5,
       prev_kept s sE ∧ reads_only s sE
       ∧ eventCallback sE = (inr tt, s5)
       ∧ cycle st s = (inr tt, s5)).
Proof.
  unfold cycle. destruct (1 <=? touchPoints st).
  - rewrite bind_unfold.
    pose proof (prev_kept_queryTracks (range (touchPoints st)) [] s) as K.
    pose proof (reads_only_queryTracks (range (touchPoints st)) [] s) as R.
    destruct (queryTracks (range (touchPoints st)) [] s) as [[e|ts] s2].
    + left. exists e, s2. split; [reflexivity|]. split; [exact K|exact R].
    + right.
      pose proof (prev_kept_removeMissingTracks ts s2) as K2.
      pose proof (reads_only_removeMissingTracks ts s2) as R2.
      destruct (removeMissingTracks_exact ts s2) as (sE & Hrm & _).
      rewrite Hrm in K2, R2. simpl in K, R, K2, R2.
      destruct (eventCallback_run sE) as (s5 & Hcb & _).
      exists sE, s5.
      split; [transitivity s2; assumption|].
      split; [transitivity s2; assumption|].
      split; [exact Hcb|].
      rewrite (bind_inr _ _ _ _ _ Hrm). exact Hcb.
  - right.
    set (sE := (set_touchInfo ∅ s).2).
    destruct (eventCallback_run sE) as (s5 & Hcb & _).
    exists sE, s5.
    split; [apply prev_kept_set_touchInfo|].
    split; [apply reads_only_set_touchInfo|].
    split; [exact Hcb|].
    rewrite bind_unfold. exact Hcb.
Qed.

(** C6: inside [__eventCallback] the three detection groups leave both
    states untouched and only send events, those of the diff; the previous
    state is then assigned once, to the whole current state, and nothing is
    sent after that assignment.  In an iteration whose status byte has the
    buffer ready, either the contact reads raise, and then the previous state
    was never assigned and nothing but register reads happened, or the event
    handler is reached with the previous state never assigned since the
    start of the iteration and nothing sent yet; it sends the diff of the
    current state against that previous state, makes the previous state the
    whole current one, and no state is assigned afterwards: only the clear
    and the sleep follow. *)
Theorem previous_replaced_after_emission (s : GT911) :
  (∃ s3 s',
     (detectNewTracks;; detectUpdatedTracks;; detectEndedTracks) s
       = (inr tt, s3)
     ∧ previousTouchInfo s3 = previousTouchInfo s
     ∧ touchInfo s3 = touchInfo s
     ∧ history s3 = history s
     ∧ diff_sent (touchInfo s) (previousTouchInfo s) (since s s3)
     ∧ eventCallback s = updatePreviousState s3
     ∧ updatePreviousState s3 = (inr tt, s')
     ∧ previousTouchInfo s' = touchInfo s
     ∧ touchInfo s' = touchInfo s
     ∧ trace s' = trace s3
     ∧ history s' = history s ++ [(touchInfo s, touchInfo s)])
  ∧ ∀ statusByte s1,
      readI2C [0x81; 0x4E] s = (inr statusByte, s1) ->
      bufferStatus (parseStatus statusByte) = true ->
      let r := readLoop_iteration s in
      (∃ e, r.1 = inl e ∧ prev_kept s r.2 ∧ reads_only s r.2)
      ∨ (∃ sE s5 evs,
           prev_kept s sE
           ∧ reads_only s sE
           ∧ eventCallback sE = (inr tt, s5)
           ∧ trace s5 = trace sE ++ evs
           ∧ diff_sent (touchInfo sE) (previousTouchInfo s) evs
           ∧ previousTouchInfo s5 = touchInfo sE
           ∧ touchInfo s5 = touchInfo sE
           ∧ history s5 = history sE ++ [(touchInfo sE, touchInfo sE)]
           ∧ tracks r.2 = tracks s5
           ∧ (trace r.2 = trace s5 ++ [clearBuffer]
              ∨ trace r.2 = trace s5 ++ [clearBuffer; Sleep])).
Proof.
  split.
  { eexists. eexists.
    split; [apply detect_groups_log|].
    split; [reflexivity|]. split; [reflexivity|]. split; [reflexivity|].
    split; [rewrite since_log; apply callback_writes_diff_sent|].
    split; [apply eventCallback_eq|].
    split; [reflexivity|].
    simpl. tauto. }
  intros statusByte s1 Hread Hbuf r. subst r.
  rewrite (readLoop_iteration_unfold s s1 statusByte Hread), Hbuf.
  assert (prev_kept s s1) as K1.
  { apply same_tracks_prev_kept.
    pose proof (same_tracks_readI2C [0x81; 0x4E] s) as H.
    rewrite Hread in H. exact H. }
  assert (reads_only s s1) as R1.
  { pose proof (reads_only_readI2C [0x81; 0x4E] eq_refl s) as H.
    rewrite Hread in H. exact H. }
  rewrite bind_unfold, bind_unfold.
  destruct (cycle_decompose (parseStatus statusByte) s1)
    as [(e & s2 & Hc & K2 & R2)|(sE & s5 & K2 & R2 & Hcb & Hc)];
    rewrite Hc.
  - left. exists e. split; [reflexivity|].
    split; transitivity s1; assumption.
  - right.
    assert (prev_kept s sE) as K by (transitivity s1; assumption).
    exists sE, s5,
      (callback_writes (touchInfo sE) (previousTouchInfo sE)).
    split; [exact K|].
    split; [transitivity s1; assumption|].
    split; [exact Hcb|].
    destruct (eventCallback_run sE) as (s5' & Hrun & Hp & Hc5 & Htr & Hh & _).
    rewrite Hcb in Hrun. inversion Hrun; subst s5'.
    split; [exact Htr|].
    split.
    { destruct K as [<- _]. apply callback_writes_diff_sent. }
    split; [exact Hp|]. split; [exact Hc5|]. split; [exact Hh|].
    destruct (writeI2C_run [0x81; 0x4E] [0] s5) as [res Hw]. rewrite Hw.
    destruct res as [e|[]].
    + split; [reflexivity|]. left. reflexivity.
    + split; [reflexivity|]. right.
      simpl. rewrite <- app_assoc. reflexivity.
Qed.

Lemma previous_replaced_after_emission_witness :
  let s := mkGT911 false false false 1 (800, 480) (800, 480)
             {[ 5 := mkInfo 10 10 3 5 ]} {[ 5 := mkInfo 10 10 3 5 ]}
             (scripted (rd 0x80)) 0%nat [] [] in
  previousTouchInfo (readLoop_iteration s).2
  = touchInfo (readLoop_iteration s).2.
Proof.
  intros s.
  destruct (proj2 (previous_replaced_after_emission s)
              0x80 (readI2C [0x81; 0x4E] s).2)
    as [(e & He & _)
       |(sE & s5 & evs & _ & _ & _ & _ & _ & Hp & Hc & _ & Ht & _)].
  - vm_compute. reflexivity.
  - reflexivity.
  - vm_compute in He. discriminate.
  - pose proof (f_equal (fun t => t.1.1) Ht) as Hc'.
    pose proof (f_equal (fun t => t.1.2) Ht) as Hp'.
    cbn [tracks fst snd] in Hc', Hp'.
    rewrite Hc', Hp', Hp, Hc. reflexivity.
Defined.
